(** * Jazz engine: spatial hash, entity movement, scene update and frame scheduler

    A shallow embedding of the core of the Jazz framework
    ([spatialhash.js], [utils.js], [thing.js], [scene.js], [game.js]).

    Modelling conventions.
    - JavaScript numbers are modelled as rationals [Q]; [===] on numbers is
      [Qeq]. [Math.floor] is [Qfloor], [Math.round] is [Qfloor (x + 1/2)]
      (JavaScript rounds halves towards +infinity).
    - Object references (Things) are addresses of type [nat]; the mutable
      objects live in a store [gmap nat Thing]. Arrays of references are
      lists of addresses, so aliasing is preserved.
    - A JavaScript object used as a dictionary is a [gmap]. The key
      [[x, y]] of the spatial hash (coerced to the string "x,y") is the
      pair [(x, y) : Z * Z].
    - An uncaught exception is the outcome [Threw]; [console.error] output
      is collected in a log.
    - Loops the language does not bound take a fuel argument and return
      [None] when the fuel runs out. *)

From stdpp Require Import gmap list strings sorting.
From Stdlib Require Import QArith Qround Qabs Qminmax Lqa.

Open Scope Q_scope.

(** Object references. *)
Abbreviation ref := nat.

(** ** Outcomes of fallible calls *)

Inductive message :=
  | NotInSpatialHash (object : ref).

Inductive outcome (A : Type) :=
  | Returned (value : A) (log : list message)
  | Threw.
Arguments Returned {A} value log.
Arguments Threw {A}.

(** ** Boolean comparisons on numbers *)

Definition Qlt_bool (a b : Q) : bool := negb (Qle_bool b a).

(** [Math.round] *)
Definition round (x : Q) : Z := Qfloor (x + (1 # 2)).

(** [Math.trunc], used by the remainder operator [%]. *)
Definition trunc (x : Q) : Z := if Qle_bool 0 x then Qfloor x else Qceiling x.

(** [a % 1]: the remainder keeps the sign of the dividend. *)
Definition rem1 (a : Q) : Q := a - inject_Z (trunc a).

(** [a % b] for a divisor other than zero. *)
Definition rem (a b : Q) : Q := a - b * inject_Z (trunc (a / b)).

(** [Array.prototype.indexOf]: the first index holding [x], or -1. *)
Definition indexOf (l : list ref) (x : ref) : Z :=
  match list_find (λ y, y = x) l with
  | Some (i, _) => Z.of_nat i
  | None => (-1)%Z
  end.

(** [Array.prototype.splice(start, 1)]: a negative [start] counts from the
    end of the array, so [splice(-1, 1)] removes the last element. *)
Definition splice1 (l : list ref) (start : Z) : list ref :=
  let len := Z.of_nat (length l) in
  let from := if (start <? 0)%Z then Z.max (len + start) 0 else Z.min start len in
  delete (Z.to_nat from) l.

(** ** utils.js *)

Module Utils.

(** [sign (x) { return x && (x > 0 ? 1 : -1) }] *)
Definition sign (x : Q) : Q :=
  if Qeq_bool x 0 then x else if Qlt_bool 0 x then 1 else -1.

(** A number read from an array: [None] is [undefined]; arithmetic on
    it gives [NaN], every comparison with which is false. *)
Definition at_ (a : list Q) (i : nat) : option Q := a !! i.

Definition addn (a : option Q) (x : option Q) : option Q :=
  match a, x with Some a, Some x => Some (a + x) | _, _ => None end.

Definition subn (a : option Q) (x : option Q) : option Q :=
  match a, x with Some a, Some x => Some (a - x) | _, _ => None end.

Definition len (a b : option Q) : bool :=
  match a, b with Some a, Some b => Qle_bool a b | _, _ => false end.

Definition gen (a b : option Q) : bool := len b a.

(** [aabb2D]: [None] is the thrown arity error. *)
Definition aabb2D (aabb : list Q) : option (list Q) :=
  if (length aabb =? 6)%nat then
    match aabb with
    | [a0; a1; _; a3; a4; _] => Some [a0; a1; a3; a4]
    | _ => None
    end
  else if (length aabb =? 4)%nat then Some aabb
  else None.

(** [aabbToXywh] *)
Definition aabbToXywh (aabb : list Q) (position : list Q) : option (list (option Q)) :=
  if (length aabb =? 6)%nat then
    Some [ addn (at_ aabb 0) (at_ position 0);
           addn (at_ aabb 1) (at_ position 1);
           addn (at_ aabb 2) (at_ position 2);
           subn (at_ aabb 3) (at_ aabb 0);
           subn (at_ aabb 4) (at_ aabb 1);
           subn (at_ aabb 5) (at_ aabb 2) ]
  else if (length aabb =? 4)%nat then
    Some [ addn (at_ aabb 0) (at_ position 0);
           addn (at_ aabb 1) (at_ position 1);
           subn (at_ aabb 2) (at_ aabb 0);
           subn (at_ aabb 3) (at_ aabb 1) ]
  else None.

(** [checkAabbIntersection2D] *)
Definition checkAabbIntersection2D (aabb1 aabb2 : list Q) (p1 p2 : list Q) : bool :=
  let x1 := at_ p1 0 in let y1 := at_ p1 1 in
  let x2 := at_ p2 0 in let y2 := at_ p2 1 in
  len (addn (at_ aabb1 0) x1) (addn (at_ aabb2 2) x2) &&
  len (addn (at_ aabb1 1) y1) (addn (at_ aabb2 3) y2) &&
  gen (addn (at_ aabb1 2) x1) (addn (at_ aabb2 0) x2) &&
  gen (addn (at_ aabb1 3) y1) (addn (at_ aabb2 1) y2).

(** [checkAabbIntersection3D] *)
Definition checkAabbIntersection3D (aabb1 aabb2 : list Q) (p1 p2 : list Q) : bool :=
  let x1 := at_ p1 0 in let y1 := at_ p1 1 in let z1 := at_ p1 2 in
  let x2 := at_ p2 0 in let y2 := at_ p2 1 in let z2 := at_ p2 2 in
  len (addn (at_ aabb1 0) x1) (addn (at_ aabb2 3) x2) &&
  len (addn (at_ aabb1 1) y1) (addn (at_ aabb2 4) y2) &&
  len (addn (at_ aabb1 2) z1) (addn (at_ aabb2 5) z2) &&
  gen (addn (at_ aabb1 3) x1) (addn (at_ aabb2 0) x2) &&
  gen (addn (at_ aabb1 4) y1) (addn (at_ aabb2 1) y2) &&
  gen (addn (at_ aabb1 5) z1) (addn (at_ aabb2 2) z2).

(** [checkAabbIntersection]: 3D when both boxes have six entries and both
    positions carry a third coordinate, otherwise the 2D test on the
    boxes converted by [aabb2D]. [None] is the arity error of [aabb2D]. *)
Definition checkAabbIntersection (aabb1 aabb2 : list Q) (p1 p2 : list Q) : option bool :=
  if (length aabb1 =? 6)%nat && (length aabb2 =? 6)%nat &&
     bool_decide (is_Some (at_ p1 2)) && bool_decide (is_Some (at_ p2 2))
  then Some (checkAabbIntersection3D aabb1 aabb2 p1 p2)
  else
    a1 ← aabb2D aabb1;
    a2 ← aabb2D aabb2;
    Some (checkAabbIntersection2D a1 a2 p1 p2).

(** [mod (n, m) { return ((n % m) + m) % m }], for [m] other than zero. *)
Definition mod_ (n m : Q) : Q := rem (rem n m + m) m.

(** [lerp] *)
Definition lerp (a b t : Q) : Q := (1 - t) * a + t * b.

(** [clamp] *)
Definition clamp (n min max : Q) : Q :=
  if Qlt_bool min max then Qmin (Qmax n min) max else Qmin (Qmax n max) min.

(** [range (start, end, iter)]. [None] is the [RangeError] of [new Array]:
    the length is negative, exceeds [2^32 - 1], or is not a number because
    [iter] is zero. A length in [(-1, 0]] is rounded up to zero. *)
Definition range (start end_ iter : Q) : option (list Q) :=
  let n := Qceiling ((end_ - start) / iter) in
  if Qeq_bool iter 0 || (n <? 0)%Z || (4294967295 <? n)%Z then None
  else Some ((λ i : nat, start + inject_Z (Z.of_nat i) * iter) <$> seq 0 (Z.to_nat n)).

(** One turn of the loop of [randomGenerator]: the value yielded and the
    new [currentSeed]. The [%] of BigInt truncates towards zero. *)
Definition randomGenerator (currentSeed : Z) : Q * Z :=
  let s := Z.rem (1664525 * currentSeed + 1013904223) 4294967296 in
  (inject_Z s / 4294967296, s).

(** A call [(low, high)] of the function returned by [randomizer], on the
    state of its generator. *)
Definition randomizer (currentSeed : Z) (low high : Q) : Q * Z :=
  let r := randomGenerator currentSeed in
  (r.1 * (high - low) + low, r.2).

Section Random.

Context {G A : Type}.

(** The argument [rand]: a call without arguments returns a number and
    moves the source of randomness to its next state. *)
Variable rand : G → Q * G.

(** [choose (elements, rand)]; [None] is [undefined]. *)
Definition choose (elements : list A) (g : G) : option A * G :=
  let r := rand g in
  let value := r.1 * inject_Z (Z.of_nat (length elements)) in
  let i := Z.min (Qfloor value) (Z.of_nat (length elements) - 1) in
  (if (i <? 0)%Z then None else elements !! Z.to_nat i, r.2).

(** The loop of [shuffle], from [currentIndex] down. [None]: an index
    outside the array, where the swap would store [undefined] and
    lengthen the array. *)
Fixpoint shuffleFrom (currentIndex : nat) (array : list A) (g : G)
    : option (list A * G) :=
  match currentIndex with
  | O => Some (array, g)
  | S currentIndex =>
      let r := rand g in
      let randomIndex := Qfloor (r.1 * inject_Z (Z.of_nat (S currentIndex))) in
      if (randomIndex <? 0)%Z then None
      else
        match array !! Z.to_nat randomIndex, array !! currentIndex with
        | Some x, Some y =>
            shuffleFrom currentIndex
              (<[Z.to_nat randomIndex := y]> (<[currentIndex := x]> array)) r.2
        | _, _ => None
        end
  end.

(** [shuffle (array, rand)] *)
Definition shuffle (array : list A) (g : G) : option (list A * G) :=
  shuffleFrom (length array) array g.

End Random.

(** [map]; a source interval of zero width divides by zero and is outside
    the model. *)
Definition map (n start1 stop1 start2 stop2 : Q) (clampOutput : bool) : Q :=
  let newval := (n - start1) / (stop1 - start1) * (stop2 - start2) + start2 in
  if clampOutput then clamp newval start2 stop2 else newval.

End Utils.

(** ** spatialhash.js *)

Module SpatialHash.

Record t := mk {
  size : Q;
  hash : gmap (Z * Z) (list ref);
  objects : gmap ref (list (Z * Z));
  hitboxes : gmap ref (Q * Q * Q * Q)
}.

(** [constructor (size = 64)] *)
Definition create (size : Q) : t :=
  {| size := size; hash := ∅; objects := ∅; hitboxes := ∅ |}.

(** [cellCoord] *)
Definition cellCoord (s : t) (x y : Q) : Z * Z :=
  (Qfloor (x / size s), Qfloor (y / size s)).

(** The keys visited by the two nested [for] loops of [add] and [query],
    in visiting order. *)
Definition cells (s : t) (x y width height : Q) : list (Z * Z) :=
  let start := cellCoord s x y in
  let end_ := cellCoord s (x + width) (y + height) in
  cx ← seqZ start.1 (end_.1 - start.1 + 1);
  cy ← seqZ start.2 (end_.2 - start.2 + 1);
  [(cx, cy)].

(** The body of the inner loop of [add]. *)
Definition add_cell (object : ref) (s : t) (key : Z * Z) : t :=
  let hash1 :=
    match hash s !! key with
    | None => <[key := []]> (hash s)
    | Some _ => hash s
    end in
  let hash2 := alter (λ l, l ++ [object]) key hash1 in
  let objects1 :=
    match objects s !! object with
    | None => <[object := []]> (objects s)
    | Some _ => objects s
    end in
  let objects2 := alter (λ l, l ++ [key]) object objects1 in
  {| size := size s; hash := hash2; objects := objects2; hitboxes := hitboxes s |}.

(** [add] *)
Definition add (s : t) (object : ref) (x y width height : Q) : t :=
  let s1 := {| size := size s; hash := hash s; objects := objects s;
               hitboxes := <[object := (x, y, width, height)]> (hitboxes s) |} in
  foldl (add_cell object) s1 (cells s x y width height).

(** The body of the loop of [remove], on the cell table. Reading
    [this.hash[key]] of a missing key and calling [splice] on it throws. *)
Definition remove_cell (object : ref) (h : gmap (Z * Z) (list ref)) (key : Z * Z)
  : option (gmap (Z * Z) (list ref)) :=
  match h !! key with
  | None => None
  | Some l =>
      let l' := splice1 l (indexOf l object) in
      if (length l' =? 0)%nat then Some (delete key h) else Some (<[key := l']> h)
  end.

(** [remove] *)
Definition remove (s : t) (object : ref) : outcome t :=
  match objects s !! object with
  | None => Returned s [NotInSpatialHash object]
  | Some keys =>
      match foldl (λ acc key, h ← acc; remove_cell object h key) (Some (hash s)) keys with
      | None => Threw
      | Some hash' =>
          Returned {| size := size s; hash := hash';
                      objects := delete object (objects s);
                      hitboxes := delete object (hitboxes s) |} []
      end
  end.

(** [getHitbox] *)
Definition getHitbox (s : t) (object : ref) : option (Q * Q * Q * Q) :=
  hitboxes s !! object.

(** [update]: [remove] then [add]. *)
Definition update (s : t) (object : ref) (x y width height : Q) : outcome t :=
  match remove s object with
  | Threw => Threw
  | Returned s' log => Returned (add s' object x y width height) log
  end.

(** [query] *)
Definition query (s : t) (x y width height : Q) : list ref :=
  c ← cells s x y width height; default [] (hash s !! c).

End SpatialHash.

(** ** thing.js *)

Module Thing.

Record ContactDirections := mkContact {
  left : bool;
  right : bool;
  up : bool;
  down : bool
}.

(** A timer object [{ time, start, action }]. The action is the index of
    a user callback, or [None] when it is not a function. *)
Record Timer := mkTimer {
  time : Q;
  start : Q;
  action : option nat
}.

(** The simulated fields of a Thing. [timers] is the private [#timers]
    dictionary in insertion order; it maps a name to the address of a
    timer object in [timerObjects], so that the entries snapshotted by
    [updateTimers] alias the live objects as they do in the source. *)
Record t := mk {
  depth : Q;
  position : list Q;
  velocity : list Q;
  aabb : list Q;
  contactDirections : ContactDirections;
  isOverlapEnabled : bool;
  isSolid : bool;
  timerObjects : gmap nat Timer;
  timers : list (string * nat);
  isPersistent : bool;
  isDead : bool;
  isPaused : bool
}.

Definition with_position (p : list Q) (me : t) : t :=
  mk (depth me) p (velocity me) (aabb me) (contactDirections me)
     (isOverlapEnabled me) (isSolid me) (timerObjects me) (timers me)
     (isPersistent me) (isDead me) (isPaused me).

Definition with_velocity (v : list Q) (me : t) : t :=
  mk (depth me) (position me) v (aabb me) (contactDirections me)
     (isOverlapEnabled me) (isSolid me) (timerObjects me) (timers me)
     (isPersistent me) (isDead me) (isPaused me).

Definition with_contactDirections (c : ContactDirections) (me : t) : t :=
  mk (depth me) (position me) (velocity me) (aabb me) c
     (isOverlapEnabled me) (isSolid me) (timerObjects me) (timers me)
     (isPersistent me) (isDead me) (isPaused me).

Definition with_timers (objs : gmap nat Timer) (reg : list (string * nat)) (me : t) : t :=
  mk (depth me) (position me) (velocity me) (aabb me) (contactDirections me)
     (isOverlapEnabled me) (isSolid me) objs reg
     (isPersistent me) (isDead me) (isPaused me).

Definition with_isDead (b : bool) (me : t) : t :=
  mk (depth me) (position me) (velocity me) (aabb me) (contactDirections me)
     (isOverlapEnabled me) (isSolid me) (timerObjects me) (timers me)
     (isPersistent me) b (isPaused me).

(** *** Timers *)

(** [this.#timers[name]]: the address bound to [name]. *)
Fixpoint binding (name : string) (reg : list (string * nat)) : option nat :=
  match reg with
  | [] => None
  | (n, a) :: reg => if bool_decide (n = name) then Some a else binding name reg
  end.

(** [this.#timers[name] = value]: an existing key keeps its place. *)
Fixpoint bind (name : string) (a : nat) (reg : list (string * nat)) : list (string * nat) :=
  match reg with
  | [] => [(name, a)]
  | (n, b) :: reg =>
      if bool_decide (n = name) then (n, a) :: reg else (n, b) :: bind name a reg
  end.

(** [delete this.#timers[name]] *)
Definition unbind (name : string) (reg : list (string * nat)) : list (string * nat) :=
  filter (λ e, e.1 ≠ name) reg.

Definition timer (me : t) (name : string) : option Timer :=
  a ← binding name (timers me); timerObjects me !! a.

(** [setTimer (time, action, name)]; the name is always given, the default
    [crypto.randomUUID()] is left to the caller. *)
Definition setTimer (me : t) (time : Q) (action : option nat) (name : string) : t :=
  let a := fresh (dom (timerObjects me)) in
  with_timers (<[a := mkTimer time time action]> (timerObjects me))
              (bind name a (timers me)) me.

(** [getTimerAction] *)
Definition getTimerAction (me : t) (name : string) : option nat :=
  match timer me name with
  | None => None
  | Some value => action value
  end.

(** [isTimerActive] *)
Definition isTimerActive (me : t) (name : string) : bool :=
  bool_decide (is_Some (binding name (timers me))).

(** [getTimerFrames] *)
Definition getTimerFrames (me : t) (name : string) : Q :=
  match timer me name with
  | None => 0
  | Some value => start value - time value
  end.

(** [getTimer] *)
Definition getTimer (me : t) (name : string) : Q :=
  match timer me name with
  | None => 0
  | Some value => 1 - time value / start value
  end.

(** [cancelTimer] *)
Definition cancelTimer (me : t) (name : string) : t * bool :=
  match timer me name with
  | Some _ => (with_timers (timerObjects me) (unbind name (timers me)) me, true)
  | None => (me, false)
  end.

Section UserCode.

  (** The user callbacks: [call f heap] is the store after running the
      callback of index [f]. *)
Variable call : nat → gmap ref t → gmap ref t.

  (** The body of the loop of [updateTimers] for one snapshotted entry
      [[name, value]]. [None]: a reference has left the store. *)
Definition tick (this : ref) (acc : option (gmap ref t)) (entry : string * nat)
    : option (gmap ref t) :=
    heap ← acc;
    me ← heap !! this;
    value ← timerObjects me !! entry.2;
    let value' := mkTimer (time value - 1) (start value) (action value) in
    let objs := <[entry.2 := value']> (timerObjects me) in
    if Qle_bool (time value') 0 then
      let heap' := <[this := with_timers objs (unbind entry.1 (timers me)) me]> heap in
      match action value' with
      | Some f => Some (call f heap')
      | None => Some heap'
      end
    else Some (<[this := with_timers objs (timers me) me]> heap).

  (** [updateTimers]: the loop runs over [Object.entries], a snapshot
      of the dictionary taken before the first iteration. *)
Definition updateTimers (this : ref) (heap : gmap ref t) : option (gmap ref t) :=
    me ← heap !! this;
    foldl (tick this) (Some heap) (timers me).

End UserCode.

(** *** Overlap and collision *)

(** [Array.prototype.filter] with a predicate that may throw. *)
Fixpoint filter_opt {A} (f : A → option bool) (l : list A) : option (list A) :=
  match l with
  | [] => Some []
  | x :: l =>
      b ← f x;
      r ← filter_opt f l;
      Some (if b : bool then x :: r else r)
  end.

(** The array [[x, y, z]] built by [isOverlapping]; an undefined [z]
    reads like a missing third entry. *)
Definition point (x y : Q) (z : option Q) : list Q :=
  [x; y] ++ option_list z.

(** [isOverlapping (thing, x, y, z)]. [None]: the arity error of
    [aabb2D], or a reference that is not in the store. *)
Definition isOverlapping (heap : gmap ref t) (this thing : ref)
    (x y : Q) (z : option Q) : option bool :=
  me ← heap !! this;
  other ← heap !! thing;
  if bool_decide (thing = this) then Some false
  else if negb (isOverlapEnabled other) then Some false
  else if isDead other then Some false
  else Utils.checkAabbIntersection (aabb me) (aabb other) (point x y z) (position other).

(** [game.getThingsNearXywh] applied to the box of [getFirstOverlap] and
    [getAllOverlaps]. A missing [aabb] entry makes an argument [NaN], and
    then neither loop of [query] runs. *)
Definition near (sh : SpatialHash.t) (me : t) (x y : Q) : list ref :=
  match aabb me !! 0%nat, aabb me !! 1%nat, aabb me !! 2%nat, aabb me !! 3%nat with
  | Some a0, Some a1, Some a2, Some a3 =>
      SpatialHash.query sh (x + a0) (y + a1) (a2 - a0) (a3 - a1)
  | _, _, _, _ => []
  end.

(** [getAllOverlaps] *)
Definition getAllOverlaps (heap : gmap ref t) (sh : SpatialHash.t) (this : ref)
    (x y : Q) (z : option Q) : option (list ref) :=
  me ← heap !! this;
  filter_opt (λ thing, isOverlapping heap this thing x y z) (near sh me x y).

(** [Array.prototype.find] with a predicate that may throw: the search
    stops at the first match. *)
Fixpoint find_opt {A} (f : A → option bool) (l : list A) : option (option A) :=
  match l with
  | [] => Some None
  | x :: l =>
      b ← f x;
      if b : bool then Some (Some x) else find_opt f l
  end.

(** [getFirstOverlap]; [Some None] is the [undefined] of a search without
    a match. *)
Definition getFirstOverlap (heap : gmap ref t) (sh : SpatialHash.t) (this : ref)
    (x y : Q) (z : option Q) : option (option ref) :=
  me ← heap !! this;
  find_opt (λ thing, isOverlapping heap this thing x y z) (near sh me x y).

(** [checkCollision] *)
Definition checkCollision (heap : gmap ref t) (sh : SpatialHash.t) (this : ref)
    (x y : Q) (z : option Q) : option bool :=
  overlaps ← getAllOverlaps heap sh this x y z;
  Some (existsb (λ thing, from_option isSolid false (heap !! thing)) overlaps).

(** *** Movement *)

Definition movementPushback : Q := 1 # 10000.

(** [a[i] = v]; writing one past the end extends the array, writing
    further would leave a hole and is outside the model. *)
Definition store (a : list Q) (i : nat) (v : Q) : option (list Q) :=
  if (i <? length a)%nat then Some (<[i := v]> a)
  else if (i =? length a)%nat then Some (a ++ [v])
  else None.

(** The first [while] loop of [move]. [None]: out of fuel, an exception,
    or a missing coordinate (a [NaN] would be stored). *)
Fixpoint sweepX (fuel : nat) (sh : SpatialHash.t) (this : ref) (stepSize dx : Q)
    (heap : gmap ref t) {struct fuel} : option (gmap ref t) :=
  if (round (dx * 1000) =? 0)%Z then Some heap
  else
    match fuel with
    | O => None
    | S fuel =>
        me ← heap !! this;
        px ← position me !! 0%nat;
        py ← position me !! 1%nat;
        let step := Utils.sign dx * Qmin (Qabs dx) stepSize in
        hit ← checkCollision heap sh this (px + step) py (position me !! 2%nat);
        if hit : bool then
          v ← store (velocity me) 0 0;
          p ← store (position me) 0
                (inject_Z (round px) - Utils.sign dx * movementPushback);
          let c := contactDirections me in
          let c := if Qlt_bool 0 (Utils.sign dx)
                   then mkContact (left c) true (up c) (down c) else c in
          let c := if Qlt_bool (Utils.sign dx) 0
                   then mkContact true (right c) (up c) (down c) else c in
          Some (<[this := with_contactDirections c
                            (with_position p (with_velocity v me))]> heap)
        else
          p ← store (position me) 0 (px + step);
          sweepX fuel sh this stepSize (dx - step)
                 (<[this := with_position p me]> heap)
    end.

(** The second [while] loop of [move]. *)
Fixpoint sweepY (fuel : nat) (sh : SpatialHash.t) (this : ref) (stepSize dy : Q)
    (heap : gmap ref t) {struct fuel} : option (gmap ref t) :=
  if (round (dy * 1000) =? 0)%Z then Some heap
  else
    match fuel with
    | O => None
    | S fuel =>
        me ← heap !! this;
        px ← position me !! 0%nat;
        py ← position me !! 1%nat;
        let step := Utils.sign dy * Qmin (Qabs dy) stepSize in
        hit ← checkCollision heap sh this px (py + step) (position me !! 2%nat);
        if hit : bool then
          v ← store (velocity me) 1 0;
          p ← store (position me) 1
                (inject_Z (round py) - Utils.sign dy * movementPushback);
          let c := contactDirections me in
          let c := if Qlt_bool 0 (Utils.sign dy)
                   then mkContact (left c) (right c) (up c) true else c in
          let c := if Qlt_bool (Utils.sign dy) 0
                   then mkContact (left c) (right c) true (down c) else c in
          Some (<[this := with_contactDirections c
                            (with_position p (with_velocity v me))]> heap)
        else
          p ← store (position me) 1 (py + step);
          sweepY fuel sh this stepSize (dy - step)
                 (<[this := with_position p me]> heap)
    end.

(** [move (dx, dy, stepSize)] *)
Definition move (fuel : nat) (sh : SpatialHash.t) (this : ref) (dx dy stepSize : Q)
    (heap : gmap ref t) : option (gmap ref t) :=
  me ← heap !! this;
  let cleared := with_contactDirections (mkContact false false false false) me in
  heap ← sweepX fuel sh this stepSize dx (<[this := cleared]> heap);
  sweepY fuel sh this stepSize dy heap.

End Thing.

(** ** scene.js *)

Module Scene.

(** The entity containers of a Scene. The cameras and the screen shakes
    are not modelled; the screen-shake loop that closes [update] touches
    neither entities nor these containers. The key of [layers] is the
    rounded depth. *)
Record t := mk {
  things : list ref;
  layers : gmap Z (list ref);
  layerOrder : list Z;
  depthMemory : gmap ref Z;
  spatialHash : SpatialHash.t;
  namedThings : gmap string ref
}.

(** [new Scene()] *)
Definition create : t :=
  mk [] ∅ [] ∅ (SpatialHash.create 64) ∅.

(** The methods of a Thing that application code overrides. Each acts on
    the store of Things, so it can change any Thing, itself included. *)
Record Hooks := mkHooks {
  updateThing : ref → gmap ref Thing.t → gmap ref Thing.t;
  onDeath : ref → gmap ref Thing.t → gmap ref Thing.t
}.

(** [...u.aabbToXywh(u.aabb2D(thing.aabb), thing.position)]. [None]: the
    arity error of [aabb2D], or a missing coordinate. *)
Definition hitbox (T : Thing.t) : option (Q * Q * Q * Q) :=
  a ← Utils.aabb2D (Thing.aabb T);
  l ← Utils.aabbToXywh a (Thing.position T);
  match l with
  | [Some x; Some y; Some w; Some h] => Some (x, y, w, h)
  | _ => None
  end.

(** [Object.keys(this.layers).map(Number).sort((a, b) => a - b)] *)
Definition sortedKeys (layers : gmap Z (list ref)) : list Z :=
  merge_sort Z.le (map_to_list layers).*1.

(** [updateDepth (thing)]. When the Thing has no remembered depth,
    [previousDepth] is [NaN]: the bucket of that key is created empty,
    spliced, found empty and deleted again, which leaves [layers] as it
    was. *)
Definition updateDepth (sc : t) (thing : ref) (T : Thing.t) : t :=
  let depth := round (Thing.depth T) in
  let push (layers : gmap Z (list ref)) :=
    <[depth := default [] (layers !! depth) ++ [thing]]> layers in
  match depthMemory sc !! thing with
  | Some previousDepth =>
      if (previousDepth =? depth)%Z then sc
      else
        let bucket := default [] (layers sc !! previousDepth) in
        let bucket := splice1 bucket (indexOf bucket thing) in
        let layers1 :=
          if (length bucket =? 0)%nat then delete previousDepth (layers sc)
          else <[previousDepth := bucket]> (layers sc) in
        let layers2 := push layers1 in
        mk (things sc) layers2 (sortedKeys layers2)
           (<[thing := depth]> (depthMemory sc)) (spatialHash sc) (namedThings sc)
  | None =>
      let layers2 := push (layers sc) in
      mk (things sc) layers2 (sortedKeys layers2)
         (<[thing := depth]> (depthMemory sc)) (spatialHash sc) (namedThings sc)
  end.

(** [addThing (thing)] *)
Definition addThing (sc : t) (heap : gmap ref Thing.t) (thing : ref) : option t :=
  T ← heap !! thing;
  hb ← hitbox T;
  let sh := SpatialHash.add (spatialHash sc) thing hb.1.1.1 hb.1.1.2 hb.1.2 hb.2 in
  Some (updateDepth
          (mk (things sc ++ [thing]) (layers sc) (layerOrder sc) (depthMemory sc)
              sh (namedThings sc))
          thing T).

(** The branch of [update] for a Thing that is dead. *)
Definition bury (sc : t) (i : nat) (thing : ref) : option t :=
  let key := default 0%Z (depthMemory sc !! thing) in
  let layers' :=
    match layers sc !! key with
    | Some layer => <[key := splice1 layer (indexOf layer thing)]> (layers sc)
    | None => layers sc
    end in
  match SpatialHash.remove (spatialHash sc) thing with
  | Threw => None
  | Returned sh _ =>
      Some (mk (delete i (things sc)) layers' (layerOrder sc)
               (delete thing (depthMemory sc)) sh (namedThings sc))
  end.

(** The branch of [update] for a Thing that is alive. [None]: an
    exception ([getHitbox] gave [undefined], the arity error of [aabb2D],
    a throw of the spatial hash) or a missing coordinate. *)
Definition refresh (sc : t) (thing : ref) (T : Thing.t) : option t :=
  let sc :=
    match depthMemory sc !! thing with
    | Some d => if Qeq_bool (inject_Z d) (Thing.depth T) then sc else updateDepth sc thing T
    | None => updateDepth sc thing T
    end in
  last ← SpatialHash.getHitbox (spatialHash sc) thing;
  x ← Utils.addn (Thing.position T !! 0%nat) (Thing.aabb T !! 0%nat);
  y ← Utils.addn (Thing.position T !! 1%nat) (Thing.aabb T !! 1%nat);
  if negb (Qeq_bool last.1.1.1 x) || negb (Qeq_bool last.1.1.2 y) then
    hb ← hitbox T;
    match SpatialHash.update (spatialHash sc) thing hb.1.1.1 hb.1.1.2 hb.1.2 hb.2 with
    | Threw => None
    | Returned sh _ =>
        Some (mk (things sc) (layers sc) (layerOrder sc) (depthMemory sc) sh
                 (namedThings sc))
    end
  else Some sc.

Section Update.

Variable hooks : Hooks.

(** The [while (i < this.things.length)] loop of [update]. The hooks do
    not reach [things], so the loop ends within [things.length] iterations;
    [None] also covers a run out of [fuel]. *)
Fixpoint pass (fuel : nat) (i : nat) (sc : t) (heap : gmap ref Thing.t) {struct fuel}
    : option (t * gmap ref Thing.t) :=
  match things sc !! i with
  | None => Some (sc, heap)
  | Some thing =>
      match fuel with
      | O => None
      | S fuel =>
          T ← heap !! thing;
          let heap :=
            if negb (Thing.isDead T) && negb (Thing.isPaused T)
            then updateThing hooks thing heap else heap in
          T ← heap !! thing;
          if Thing.isDead T then
            let heap := onDeath hooks thing heap in
            sc ← bury sc i thing;
            pass fuel i sc heap
          else
            sc ← refresh sc thing T;
            pass fuel (S i) sc heap
      end
  end.

(** The loop over [namedThings] of [update]. *)
Definition prune (heap : gmap ref Thing.t) (named : gmap string ref) : gmap string ref :=
  filter (λ e, from_option Thing.isDead false (heap !! e.2) = false) named.

(** [update ()] *)
Definition update (sc : t) (heap : gmap ref Thing.t) : option (t * gmap ref Thing.t) :=
  r ← pass (length (things sc)) 0 sc heap;
  Some (mk (things r.1) (layers r.1) (layerOrder r.1) (depthMemory r.1)
           (spatialHash r.1) (prune r.2 (namedThings r.1)), r.2).

End Update.

(** The three passes of [draw] over the layers. *)
Inductive phase := PreDraw | Draw | PostDraw.

(** The Things visited by the nested loops
    [for (const layer of this.layerOrder) for (const thing of this.layers[layer])],
    in visiting order. [None]: [layerOrder] names a layer that [layers]
    does not have, and iterating it throws. *)
Definition sweep (sc : t) : option (list ref) :=
  mjoin <$> mapM (λ key, layers sc !! key) (layerOrder sc).

(** [draw ()]: the calls of [preDraw], [draw] and [postDraw], in order.
    The canvas is not modelled, and the three methods are taken not to
    reach the containers of the scene. *)
Definition draw (sc : t) : option (list (phase * ref)) :=
  visited ← sweep sc;
  Some (((λ thing, (PreDraw, thing)) <$> visited) ++
        ((λ thing, (Draw, thing)) <$> visited) ++
        ((λ thing, (PostDraw, thing)) <$> visited)).

End Scene.

(** ** game.js: the frame scheduler *)

Module Game.

Record Mouse := mkMouse {
  position : Q * Q;
  delta : Q * Q;
  rawDelta : Q * Q;
  scrollDelta : Q * Q;
  leftButton : bool;
  leftClick : bool;
  middleButton : bool;
  middleClick : bool;
  rightButton : bool;
  rightClick : bool
}.

(** [getThingsNearXywh], on the current scene. *)
Definition getThingsNearXywh (scene : Scene.t) (x y w h : Q) : list ref :=
  SpatialHash.query (Scene.spatialHash scene) x y w h.

(** [getThingsNear (x, y, r)] *)
Definition getThingsNear (scene : Scene.t) (x y r : Q) : list ref :=
  SpatialHash.query (Scene.spatialHash scene) (x - r) (y - r) (2 * r) (2 * r).

(** [getThingsInAabb (aabb, position)]. [None]: the arity error of
    [aabb2D], or a reference that is not in the store. A missing
    coordinate makes an argument of the query [NaN], and then the loops of
    [query] do not run. *)
Definition getThingsInAabb (scene : Scene.t) (heap : gmap ref Thing.t)
    (aabb position : list Q) : option (list ref) :=
  a ← Utils.aabb2D aabb;
  box ← Utils.aabbToXywh a position;
  let candidates :=
    match box with
    | [Some x; Some y; Some w; Some h] => getThingsNearXywh scene x y w h
    | _ => []
    end in
  Thing.filter_opt
    (λ thing,
       other ← heap !! thing;
       Utils.checkAabbIntersection aabb (Thing.aabb other) position (Thing.position other))
    candidates.

(** [mouse.reset] *)
Definition reset (m : Mouse) : Mouse :=
  mkMouse (0, 0) (0, 0) (0, 0) (0, 0) false false false false false false.

(** The module variables that have no setter: application code cannot
    assign them. [hasScene] tells whether [scene] is defined; [drawCount]
    is an observer, it counts the calls of [Scene.draw]. *)
Record Private := mkPrivate {
  accumulator : Q;
  previousFrameTime : option Q;
  startGameTime : option Q;
  gameTime : Q;
  isFocused : bool;
  frameCount : Z;
  hasScene : bool;
  lastScene : option nat;
  drawCount : nat
}.

(** What application code can reach: the module variables that have a
    setter ([setScene], [setUpdateSpeed], [setImpactFrames],
    [setFramerateUncapped], [setWidth], [setHeight]), the exported input
    objects, the 2D canvas, the focus of the document, and the rest of the
    world (scene contents, sounds, the 3D canvas), of type [World]. A scene
    initialisation function is named by its index. *)
Record Public (World : Type) := mkPublic {
  nextScene : option nat;
  updateSpeed : Q;
  impactFrameCount : Q;
  isFramerateUncapped : bool;
  width : Q;
  height : Q;
  canvasWidth : Q;
  canvasHeight : Q;
  documentHasFocus : bool;
  keysDown : gset string;
  lastKeysDown : gset string;
  keysPressed : gset string;
  mouse : Mouse;
  world : World
}.
Arguments mkPublic {World}.
Arguments nextScene {World}.
Arguments updateSpeed {World}.
Arguments impactFrameCount {World}.
Arguments isFramerateUncapped {World}.
Arguments width {World}.
Arguments height {World}.
Arguments canvasWidth {World}.
Arguments canvasHeight {World}.
Arguments documentHasFocus {World}.
Arguments keysDown {World}.
Arguments lastKeysDown {World}.
Arguments keysPressed {World}.
Arguments mouse {World}.
Arguments world {World}.

Section Scheduler.

Context {World : Type}.

(** Collaborators and application code. Each sees the private variables
    (through the getters) and may change what is public. *)
Record Hooks := mkHooks {
  (** [nextScene()] on the fresh [Scene] *)
  initScene : nat → Private → Public World → Public World;
  (** [scene.onUnload()] and the carrying over of persistent things *)
  unloadScene : Private → Public World → Public World;
  (** [clearScreen()] and [scene.update()] *)
  updateScene : Private → Public World → Public World;
  (** [scene.draw()] *)
  drawScene : Private → Public World → Public World;
  (** [soundmanager.update()] *)
  updateSounds : World → World;
  (** the sound loops of [loseFocus] and [gainFocus] *)
  pauseSounds : World → World;
  resumeSounds : World → World;
  (** the gamepad poll *)
  pollGamepads : World → World;
  (** the 3D canvas and viewport part of [handleCanvasResize] *)
  resizeCanvas3D : World → World;
  restoreCanvas3D : World → World;
  (** [getCamera3D().setUniforms()] when a 3D canvas exists *)
  setUniforms : World → World
}.

Variable hooks : Hooks.

Record State := mkState {
  priv : Private;
  pub : Public World
}.

Definition with_accumulator (a : Q) (p : Private) : Private :=
  mkPrivate a (previousFrameTime p) (startGameTime p) (gameTime p) (isFocused p)
    (frameCount p) (hasScene p) (lastScene p) (drawCount p).

Definition with_world (w : World) (u : Public World) : Public World :=
  mkPublic (nextScene u) (updateSpeed u) (impactFrameCount u) (isFramerateUncapped u)
    (width u) (height u) (canvasWidth u) (canvasHeight u) (documentHasFocus u)
    (keysDown u) (lastKeysDown u) (keysPressed u) (mouse u) w.

Definition with_mouse (m : Mouse) (u : Public World) : Public World :=
  mkPublic (nextScene u) (updateSpeed u) (impactFrameCount u) (isFramerateUncapped u)
    (width u) (height u) (canvasWidth u) (canvasHeight u) (documentHasFocus u)
    (keysDown u) (lastKeysDown u) (keysPressed u) m (world u).

Definition with_keys (down last pressed : gset string) (u : Public World) : Public World :=
  mkPublic (nextScene u) (updateSpeed u) (impactFrameCount u) (isFramerateUncapped u)
    (width u) (height u) (canvasWidth u) (canvasHeight u) (documentHasFocus u)
    down last pressed (mouse u) (world u).

(** [loseFocus] *)
Definition loseFocus (s : State) : State :=
  let u := pub s in
  mkState (priv s)
    (with_mouse (reset (mouse u))
       (with_world (pauseSounds hooks (world u))
          (with_keys ∅ (lastKeysDown u) (keysPressed u) u))).

(** [gainFocus] *)
Definition gainFocus (s : State) : State :=
  let u := pub s in
  mkState (with_accumulator (99 # 100) (priv s))
    (with_mouse (reset (mouse u)) (with_world (resumeSounds hooks (world u)) u)).

(** [handleTabbingInAndOut] *)
Definition handleTabbingInAndOut (s : State) : State :=
  let focused := documentHasFocus (pub s) in
  let s := if negb focused && isFocused (priv s) then loseFocus s else s in
  let s := if focused && negb (isFocused (priv s)) then gainFocus s else s in
  let p := priv s in
  mkState (mkPrivate (accumulator p) (previousFrameTime p) (startGameTime p) (gameTime p)
             focused (frameCount p) (hasScene p) (lastScene p) (drawCount p))
          (pub s).

(** [handleSceneChange] *)
Definition handleSceneChange (s : State) : State :=
  match nextScene (pub s) with
  | None => s
  | Some init =>
      let p := priv s in
      let u := if hasScene p then unloadScene hooks p (pub s) else pub s in
      let p := mkPrivate (accumulator p) (previousFrameTime p) (startGameTime p) (gameTime p)
                 (isFocused p) (frameCount p) true (lastScene p) (drawCount p) in
      let u := initScene hooks init p u in
      let u := with_world (setUniforms hooks (world u)) u in
      (* lastScene = nextScene; nextScene = null; accumulator = 0.99 *)
      mkState
        (mkPrivate (99 # 100) (previousFrameTime p) (startGameTime p) (gameTime p)
           (isFocused p) (frameCount p) true (nextScene u) (drawCount p))
        (mkPublic None (updateSpeed u) (impactFrameCount u) (isFramerateUncapped u)
           (width u) (height u) (canvasWidth u) (canvasHeight u) (documentHasFocus u)
           (keysDown u) (lastKeysDown u) (keysPressed u) (mouse u) (world u))
  end.

(** [handleCanvasResize] *)
Definition handleCanvasResize (s : State) : State :=
  let u := pub s in
  if negb (Qeq_bool (width u) (canvasWidth u)) || negb (Qeq_bool (height u) (canvasHeight u))
  then
    mkState (with_accumulator (99 # 100) (priv s))
      (mkPublic (nextScene u) (updateSpeed u) (impactFrameCount u) (isFramerateUncapped u)
         (width u) (height u) (width u) (height u) (documentHasFocus u)
         (keysDown u) (lastKeysDown u) (keysPressed u) (mouse u)
         (resizeCanvas3D hooks (world u)))
  else mkState (priv s) (with_world (restoreCanvas3D hooks (world u)) u).

(** [updateHandler]; the result [false] stands for the [undefined] of the
    early return. *)
Definition updateHandler (s : State) : State * bool :=
  let s := handleCanvasResize s in
  let s := handleTabbingInAndOut s in
  let s := handleSceneChange s in
  if negb (isFocused (priv s)) then (s, false)
  else
    let u := pub s in
    let u := with_keys (keysDown u) (lastKeysDown u) (keysDown u ∖ lastKeysDown u) u in
    let u := with_world (pollGamepads hooks (world u)) u in
    let u := if hasScene (priv s) then updateScene hooks (priv s) u else u in
    let u := with_world (updateSounds hooks (world u)) u in
    (mkState (priv s) u, true).

(** [draw] *)
Definition draw (s : State) : State :=
  if hasScene (priv s) then
    let p := priv s in
    mkState (mkPrivate (accumulator p) (previousFrameTime p) (startGameTime p) (gameTime p)
               (isFocused p) (frameCount p) (hasScene p) (lastScene p) (S (drawCount p)))
            (drawScene hooks p (pub s))
  else s.

(** The first part of [frame]: the elapsed time, in steps, goes to the
    impact-frame countdown or to the accumulator. *)
Definition advance (frameTime : Q) (s : State) : State :=
  let p := priv s in
  let u := pub s in
  let delta :=
    match previousFrameTime p with
    | None => 0
    | Some previous => (frameTime - previous) / 1000
    end in
  let delta := delta * 60 in
  let delta := delta * updateSpeed u in
  let start_ :=
    match startGameTime p with
    | Some t => if Qeq_bool t 0 then frameTime else t
    | None => frameTime
    end in
  if Qlt_bool 0 (impactFrameCount u) then
    mkState (mkPrivate (accumulator p) (Some frameTime) (Some start_) (gameTime p)
               (isFocused p) (frameCount p) (hasScene p) (lastScene p) (drawCount p))
            (mkPublic (nextScene u) (updateSpeed u) (impactFrameCount u - delta)
               (isFramerateUncapped u) (width u) (height u) (canvasWidth u)
               (canvasHeight u) (documentHasFocus u) (keysDown u) (lastKeysDown u)
               (keysPressed u) (mouse u) (world u))
  else
    mkState (mkPrivate (accumulator p + delta) (Some frameTime) (Some start_) (gameTime p)
               (isFocused p) (frameCount p) (hasScene p) (lastScene p) (drawCount p))
            u.

(** The [while (accumulator >= 1 && times < 5)] loop of [frame]; [budget]
    is [5 - times]. It returns the state, [rerender] and [times]. *)
Fixpoint drain (budget : nat) (frameTime : Q) (s : State) (rerender : bool) (times : nat)
    : State * bool * nat :=
  match budget with
  | O => (s, rerender, times)
  | S budget =>
      if Qle_bool 1 (accumulator (priv s)) then
        let '(s, updated) := updateHandler s in
        let p := priv s in
        let s := mkState
          (mkPrivate (accumulator p - 1) (previousFrameTime p) (startGameTime p) frameTime
             (isFocused p) (frameCount p) (hasScene p) (lastScene p) (drawCount p))
          (pub s) in
        drain budget frameTime s (updated || rerender) (S times)
      else (s, rerender, times)
  end.

(** [accumulator %= 1] *)
Definition reduce (s : State) : State :=
  mkState (with_accumulator (rem1 (accumulator (priv s))) (priv s)) (pub s).

(** The [if (rerender || isFramerateUncapped)] block of [frame]. *)
Definition render (rerender : bool) (s : State) : State :=
  if rerender || isFramerateUncapped (pub s) then
    let s := if documentHasFocus (pub s) then draw s else s in
    let p := priv s in
    let u := pub s in
    let m := mouse u in
    mkState
      (mkPrivate (accumulator p) (previousFrameTime p) (startGameTime p) (gameTime p)
         (isFocused p) (frameCount p + 1) (hasScene p) (lastScene p) (drawCount p))
      (with_mouse (mkMouse (position m) (delta m) (0, 0) (scrollDelta m)
                     (leftButton m) (leftClick m) (middleButton m) (middleClick m)
                     (rightButton m) (rightClick m)) u)
  else s.

(** The [if (rerender)] block of [frame]. *)
Definition latch (rerender : bool) (s : State) : State :=
  if rerender then
    let u := pub s in
    let m := mouse u in
    mkState (priv s)
      (with_mouse (mkMouse (position m) (0, 0) (rawDelta m) (0, 0)
                     (leftButton m) false (middleButton m) false
                     (rightButton m) false)
         (with_keys (keysDown u) (keysDown u) (keysPressed u) u))
  else s.

(** The state after the loop of [frame] and before [accumulator %= 1],
    with [rerender] and [times]. *)
Definition drained (frameTime : Q) (s : State) : State * bool * nat :=
  drain 5 frameTime (advance frameTime s) false 0.

(** [frame (frameTime)]; the closing [requestAnimationFrame(frame)] hands
    the next callback to the browser and changes no state. *)
Definition frame (frameTime : Q) (s : State) : State :=
  let '(s, rerender, times) := drained frameTime s in
  latch rerender (render rerender (reduce s)).

(** [getInterpolation] *)
Definition getInterpolation (s : State) : Q :=
  if isFramerateUncapped (pub s)
  then Utils.clamp (rem1 (accumulator (priv s))) 0 1
  else 1.

End Scheduler.

End Game.

(* ================================================================== *)
(** * Vocabulary of the statements *)

(** The number of occurrences of [x] in [l]. *)
Definition count `{EqDecision A} (x : A) (l : list A) : nat :=
  length (filter (λ y, y = x) l).

Module HashSpec.
Import SpatialHash.

  (** A rectangle [(x, y, width, height)]. *)
Abbreviation rect := (Q * Q * Q * Q)%type.

  (** [this.hash[key] ?? []] *)
Definition bucket (s : t) (key : Z * Z) : list ref := default [] (hash s !! key).

  (** [this.objects.get(object) ?? []] *)
Definition keys_of (s : t) (object : ref) : list (Z * Z) :=
    default [] (objects s !! object).

  (** The same reading of a cell table that is not yet part of a hash. *)
Definition view (h : gmap (Z * Z) (list ref)) (c : Z * Z) : list ref :=
    default [] (h !! c).

Definition cells_of (s : t) (r : rect) : list (Z * Z) :=
    cells s r.1.1.1 r.1.1.2 r.1.2 r.2.

  (** The cells covered by the hitbox stored for [object], if any. *)
Definition stored_cells (s : t) (object : ref) : list (Z * Z) :=
    match hitboxes s !! object with
    | Some r => cells_of s r
    | None => []
    end.

  (** Width and height are not negative. *)
Definition proper (r : rect) : Prop := 0 <= r.1.2 ∧ 0 <= r.2.

  (** Two rectangles share a point; touching edges and corners count. *)
Definition intersects (r q : rect) : Prop :=
    r.1.1.1 <= q.1.1.1 + q.1.2 ∧ q.1.1.1 <= r.1.1.1 + r.1.2 ∧
    r.1.1.2 <= q.1.1.2 + q.2 ∧ q.1.1.2 <= r.1.1.2 + r.2.

  (** A sequence of [add] calls. *)
Definition add_all (s : t) (adds : list (ref * rect)) : t :=
    foldl (λ s a, add s a.1 a.2.1.1.1 a.2.1.1.2 a.2.1.2 a.2.2) s adds.

  (** [object] sits in every cell that the rectangle [r] covers. *)
Definition registered (s : t) (object : ref) (r : rect) : Prop :=
    ∀ c, c ∈ cells_of s r → object ∈ bucket s c.

  (** The states reached when [add] is only called on an object that the
      hash does not track (its documented precondition); [update] is a
      [remove] followed by such an [add]. *)
Inductive guarded (sz : Q) : t → Prop :=
    | guarded_create : guarded sz (create sz)
    | guarded_add s object x y w h :
        guarded sz s → objects s !! object = None →
        guarded sz (add s object x y w h)
    | guarded_remove s object s' log :
        guarded sz s → remove s object = Returned s' log →
        guarded sz s'.

  (** Every bucket and every key list agrees with the stored hitboxes. *)
Definition consistent (s : t) : Prop :=
    ∀ object,
      keys_of s object = stored_cells s object ∧
      ∀ c, count object (bucket s c) = count c (stored_cells s object).

  (** A call of one of the three mutating methods. *)
Inductive op :=
    | Add (object : ref) (x y width height : Q)
    | Remove (object : ref)
    | Update (object : ref) (x y width height : Q).

Definition perform (s : t) (p : op) : outcome t :=
    match p with
    | Add object x y w h => Returned (add s object x y w h) []
    | Remove object => remove s object
    | Update object x y w h => update s object x y w h
    end.

  (** A sequence of calls; the logs are concatenated, and an exception
      ends the run. *)
Fixpoint run (s : t) (ops : list op) : outcome t :=
    match ops with
    | [] => Returned s []
    | p :: ops =>
        match perform s p with
        | Threw => Threw
        | Returned s' log =>
            match run s' ops with
            | Threw => Threw
            | Returned s'' log' => Returned s'' (log ++ log')
            end
        end
    end.

  (** Every [Add] of the sequence is made on an object that the hash does
      not track at that moment. *)
Fixpoint disciplined (s : t) (ops : list op) : Prop :=
    match ops with
    | [] => True
    | p :: ops =>
        match p with
        | Add object _ _ _ _ => objects s !! object = None
        | _ => True
        end ∧
        match perform s p with
        | Threw => True
        | Returned s' _ => disciplined s' ops
        end
    end.

  (** The two indexes mirror each other: an object sits in a bucket as
      often as the key of the bucket is in the key list of the object. *)
Definition linked (s : t) : Prop :=
    ∀ object c, count object (bucket s c) = count c (keys_of s object).

End HashSpec.

Module ThingSpec.
Import Thing.

(** Two closed intervals share a point. *)
Definition meets (lo1 hi1 lo2 hi2 : Q) : Prop := lo1 <= hi2 ∧ lo2 <= hi1.

(** Two closed intervals end where the other starts. *)
Definition abuts (lo1 hi1 lo2 hi2 : Q) : Prop := hi1 == lo2 ∨ hi2 == lo1.

(** The extent along each axis of a four-entry box placed at [p]. *)
Definition intervals2 (aabb p : list Q) : option (list (Q * Q)) :=
  match aabb, p with
  | [a0; a1; a2; a3], x :: y :: _ => Some [(a0 + x, a2 + x); (a1 + y, a3 + y)]
  | _, _ => None
  end.

(** The extent along each axis of a six-entry box placed at [p]. *)
Definition intervals3 (aabb p : list Q) : option (list (Q * Q)) :=
  match aabb, p with
  | [a0; a1; a2; a3; a4; a5], x :: y :: z :: _ =>
      Some [(a0 + x, a3 + x); (a1 + y, a4 + y); (a2 + z, a5 + z)]
  | _, _ => None
  end.

(** The two boxes the engine compares, in world coordinates: in three
    dimensions when both boxes have six entries and both positions have a
    third coordinate, otherwise the two-dimensional boxes of [aabb2D]. *)
Definition world_boxes (aabb1 aabb2 p1 p2 : list Q)
  : option (list (Q * Q) * list (Q * Q)) :=
  if (length aabb1 =? 6)%nat && (length aabb2 =? 6)%nat &&
     bool_decide (is_Some (p1 !! 2%nat)) && bool_decide (is_Some (p2 !! 2%nat))
  then
    b1 ← intervals3 aabb1 p1; b2 ← intervals3 aabb2 p2; Some (b1, b2)
  else
    c1 ← Utils.aabb2D aabb1; c2 ← Utils.aabb2D aabb2;
    b1 ← intervals2 c1 p1; b2 ← intervals2 c2 p2; Some (b1, b2).

(** The boxes share a point along every axis. *)
Definition overlap (b1 b2 : list (Q * Q)) : Prop :=
  Forall2 (λ i j, meets i.1 i.2 j.1 j.2) b1 b2.

(** The boxes touch: they share a point, and along some axis they share
    only an end point, so that the overlap has no area (no volume). *)
Definition touching (b1 b2 : list (Q * Q)) : Prop :=
  overlap b1 b2 ∧
  ∃ n i j, b1 !! n = Some i ∧ b2 !! n = Some j ∧ abuts i.1 i.2 j.1 j.2.

(** The arities [aabb2D] accepts. *)
Definition valid_arity (aabb : list Q) : Prop :=
  length aabb = 4%nat ∨ length aabb = 6%nat.

(** Every reference the spatial hash can return is a Thing of the store
    with a bounding box of valid arity. *)
Definition sound (heap : gmap ref t) (sh : SpatialHash.t) : Prop :=
  ∀ c thing, thing ∈ HashSpec.bucket sh c →
    ∃ other, heap !! thing = Some other ∧ valid_arity (aabb other).

Definition noContact : ContactDirections := mkContact false false false false.

End ThingSpec.

Module MoveSpec.
Import Thing.

(** The two Things agree on every field that [move] does not assign. *)
Definition same_body (me me' : t) : Prop :=
  depth me' = depth me ∧ aabb me' = aabb me ∧
  isOverlapEnabled me' = isOverlapEnabled me ∧ isSolid me' = isSolid me ∧
  timerObjects me' = timerObjects me ∧ timers me' = timers me ∧
  isPersistent me' = isPersistent me ∧ isDead me' = isDead me ∧
  isPaused me' = isPaused me.

(** No Thing of the store is solid. *)
Definition no_solid (heap : gmap ref t) : Prop :=
  ∀ y T, heap !! y = Some T → isSolid T = false.

(** The Thing [thing] counts as overlapping [this] placed at [(x, y, z)]:
    it is another Thing, its overlap is enabled, it is not dead, and the
    boxes intersect. *)
Definition overlaps (heap : gmap ref t) (this thing : ref) (x y : Q) (z : option Q)
    : Prop :=
  thing ≠ this ∧
  ∃ me other, heap !! this = Some me ∧ heap !! thing = Some other ∧
    isOverlapEnabled other = true ∧ isDead other = false ∧
    Utils.checkAabbIntersection (aabb me) (aabb other) (point x y z) (position other)
      = Some true.

End MoveSpec.

Module TimerSpec.
Import Thing.

(** The timer dictionary of [this] and the objects it refers to. *)
Definition timer_state (heap : gmap ref t) (this : ref)
  : option (gmap nat Timer * list (string * nat)) :=
  (λ me, (timerObjects me, timers me)) <$> heap !! this.

(** The dictionary has one entry per name, no timer object is bound twice,
    and every bound object exists. *)
Definition wf_timers (me : t) : Prop :=
  NoDup (timers me).*1 ∧ NoDup (timers me).*2 ∧
  ∀ e, e ∈ timers me → is_Some (timerObjects me !! e.2).

(** [k] simulation steps' worth of [updateTimers]. *)
Fixpoint ticks (call : nat → gmap ref t → gmap ref t) (this : ref) (k : nat)
    (heap : gmap ref t) : option (gmap ref t) :=
  match k with
  | O => Some heap
  | S k => heap' ← updateTimers call this heap; ticks call this k heap'
  end.

(** The invariant of the loop of [updateTimers] over the snapshot [snap]:
    the dictionary is what is left of the snapshot, every snapshotted
    object still exists, and the timer [name], held at address [a] with
    initial duration [d] and action [act], has [time_] frames left. *)
Definition pass_inv (this : ref) (snap : list (string * nat)) (name : string)
    (a : nat) (d : Q) (act : option nat) (time_ : Q) (heap : gmap ref t) : Prop :=
  ∃ me, heap !! this = Some me ∧
    sublist (timers me) snap ∧
    (∀ e, e ∈ snap → is_Some (timerObjects me !! e.2)) ∧
    binding name (timers me) = Some a ∧
    ∃ o, timerObjects me !! a = Some o ∧ start o = d ∧ action o = act ∧
         time o == time_.

(** The invariant of the loop of [updateTimers] once the timer [name] has
    left the dictionary. *)
Definition gone_inv (this : ref) (snap : list (string * nat)) (name : string)
    (heap : gmap ref t) : Prop :=
  ∃ me, heap !! this = Some me ∧
    sublist (timers me) snap ∧
    (∀ e, e ∈ snap → is_Some (timerObjects me !! e.2)) ∧
    binding name (timers me) = None.

End TimerSpec.

Module SchedulerSpec.
Import Game.

Section Vocabulary.
Context {World : Type} (hooks : Hooks (World := World)).

(** The number of simulation steps drained by one callback. *)
Definition steps_drained (frameTime : Q) (s : State) : nat :=
  (drained hooks frameTime s).2.

(** Whether some drained step ran its update ([rerender]). *)
Definition rerendered (frameTime : Q) (s : State) : bool :=
  (drained hooks frameTime s).1.2.

(** The state in which [frame] decides whether to render. *)
Definition before_render (frameTime : Q) (s : State) : State :=
  reduce (drained hooks frameTime s).1.1.

(** Nothing asks for a reset of the accumulator: the canvas has the
    configured size, no scene swap is pending, and the document has
    focus. *)
Definition calm (u : Public World) : Prop :=
  nextScene u = None ∧
  Qeq_bool (width u) (canvasWidth u) = true ∧
  Qeq_bool (height u) (canvasHeight u) = true ∧
  documentHasFocus u = true.

(** The scene update keeps things calm. *)
Definition quiet_update : Prop :=
  ∀ p u, calm u → calm (updateScene hooks p u).

End Vocabulary.

(** Hooks that do nothing, and a world without content. *)
Definition idle : Hooks (World := unit) :=
  mkHooks (λ _ _ u, u) (λ _ u, u) (λ _ u, u) (λ _ u, u)
          (λ w, w) (λ w, w) (λ w, w) (λ w, w) (λ w, w) (λ w, w) (λ w, w).

Definition still : Mouse :=
  mkMouse (0, 0) (0, 0) (0, 0) (0, 0) false false false false false false.

End SchedulerSpec.

Module SceneSpec.
Import Scene.

(** [this.layers[key] ?? []] *)
Definition layer (sc : t) (key : Z) : list ref := default [] (layers sc !! key).

(** A Thing the scene can register: a bounding box of valid arity and a
    position with both coordinates. *)
Definition thing_ok (T : Thing.t) : Prop :=
  ThingSpec.valid_arity (Thing.aabb T) ∧ (2 ≤ length (Thing.position T))%nat.

Definition dead (heap : gmap ref Thing.t) (x : ref) : Prop :=
  ∃ T, heap !! x = Some T ∧ Thing.isDead T = true.

(** A hook keeps every well-shaped Thing of the store well-shaped. *)
Definition keeps_shape (f : ref → gmap ref Thing.t → gmap ref Thing.t) : Prop :=
  ∀ x heap y T, heap !! y = Some T → thing_ok T →
    ∃ T', f x heap !! y = Some T' ∧ thing_ok T'.

(** A hook never revives a dead Thing. *)
Definition never_revives (f : ref → gmap ref Thing.t → gmap ref Thing.t) : Prop :=
  ∀ x heap y T, heap !! y = Some T → Thing.isDead T = true →
    ∃ T', f x heap !! y = Some T' ∧ Thing.isDead T' = true.

(** A hook changes no Thing but the one it is called on. *)
Definition keeps_others (f : ref → gmap ref Thing.t → gmap ref Thing.t) : Prop :=
  ∀ x heap y, y ≠ x → f x heap !! y = heap !! y.

(** The update of [t] sets its [isDead] flag. *)
Definition dies_in_update (hooks : Hooks) (t : ref) : Prop :=
  ∀ heap T, heap !! t = Some T →
    ∃ T', updateThing hooks t heap !! t = Some T' ∧ Thing.isDead T' = true.

(** The store after the optional [thing.update()] of [update]. *)
Definition updated (hooks : Hooks) (x : ref) (T : Thing.t) (heap : gmap ref Thing.t)
  : gmap ref Thing.t :=
  if negb (Thing.isDead T) && negb (Thing.isPaused T)
  then updateThing hooks x heap else heap.

(** The containers of the scene agree: every entity of the list is listed
    once, is tracked by the spatial hash, remembers its depth and sits
    once in the layer of that depth; nothing else sits in a layer or is
    tracked. *)
Definition wf (sc : t) : Prop :=
  NoDup (things sc) ∧
  HashSpec.consistent (spatialHash sc) ∧
  (∀ x, x ∈ things sc → is_Some (SpatialHash.hitboxes (spatialHash sc) !! x)) ∧
  (∀ x, is_Some (SpatialHash.objects (spatialHash sc) !! x) → x ∈ things sc) ∧
  (∀ x, x ∈ things sc → is_Some (depthMemory sc !! x)) ∧
  (∀ x k, count x (layer sc k) =
          if decide (x ∈ things sc ∧ depthMemory sc !! x = Some k) then 1%nat else 0%nat).

(** Every entity of the list is a well-shaped Thing of the store. *)
Definition shaped (sc : t) (heap : gmap ref Thing.t) : Prop :=
  ∀ x, x ∈ things sc → ∃ T, heap !! x = Some T ∧ thing_ok T.

(** The entity is in none of the containers. *)
Definition absent (sc : t) (x : ref) : Prop :=
  (x ∉ things sc) ∧
  (∀ c, x ∉ HashSpec.bucket (spatialHash sc) c) ∧
  (∀ k, x ∉ layer sc k).

(** [layerOrder] is the ascending list of the keys of [layers]. *)
Definition ordered (sc : t) : Prop := layerOrder sc = sortedKeys (layers sc).

(** [x] is remembered at a depth that is not above the depth of [y]. *)
Definition below (sc : t) (x y : ref) : Prop :=
  ∃ dx dy, depthMemory sc !! x = Some dx ∧ depthMemory sc !! y = Some dy ∧ (dx ≤ dy)%Z.

End SceneSpec.

(* ================================================================== *)
(** * Properties *)

(** ** Counting *)

Section Count.
Context `{EqDecision A}.
Implicit Types (x y : A) (l : list A).

Lemma count_nil x : count x [] = 0%nat.
Proof. reflexivity. Qed.

Lemma count_cons x y l :
  count x (y :: l) = ((if decide (y = x) then 1 else 0) + count x l)%nat.
Proof. unfold count. rewrite filter_cons. by destruct (decide (y = x)). Qed.

Lemma count_app x l1 l2 : count x (l1 ++ l2) = (count x l1 + count x l2)%nat.
Proof. unfold count. by rewrite filter_app, length_app. Qed.

Lemma count_pos x l : (0 < count x l)%nat ↔ x ∈ l.
Proof.
  unfold count. split.
  - intros Hlen. destruct (filter (λ y, y = x) l) as [|z k] eqn:E; [simpl in Hlen; lia|].
    assert (Hz : z ∈ filter (λ y, y = x) l) by (rewrite E; left).
    apply list_elem_of_filter in Hz as [-> ?]. done.
  - intros Hin. assert (Hx : x ∈ filter (λ y, y = x) l)
      by (apply list_elem_of_filter; done).
    destruct (filter (λ y, y = x) l); [inversion Hx | simpl; lia].
Qed.

Lemma count_zero x l : count x l = 0%nat ↔ x ∉ l.
Proof. rewrite <- count_pos. lia. Qed.

Lemma count_NoDup x l : NoDup l → count x l = if decide (x ∈ l) then 1%nat else 0%nat.
Proof.
  induction 1 as [|y l Hy Hnd IH]; [done|].
  rewrite count_cons, IH.
  destruct (decide (y = x)) as [->|Hne], (decide (x ∈ l)) as [Hl|Hl];
    destruct (decide (_ ∈ _ :: l)) as [Hc|Hc]; try done.
  - exfalso. apply Hc. left.
  - exfalso. apply Hc. by right.
  - apply elem_of_cons in Hc as [?|?]; congruence.
Qed.

Lemma count_bind {B} (f : B → list A) x (k : list B) :
  count x (k ≫= f) = foldr (λ b n, (count x (f b) + n)%nat) 0%nat k.
Proof.
  induction k as [|b k IH]; [done|].
  change ((b :: k) ≫= f) with (f b ++ (k ≫= f)).
  by rewrite count_app, IH.
Qed.

End Count.

Lemma splice_indexOf_count (l : list ref) (x y : ref) :
x ∈ l →
count y (splice1 l (indexOf l x)) = (count y l - (if decide (x = y) then 1 else 0))%nat.
Proof.
intros Hin. unfold indexOf.
destruct (list_find (λ z, z = x) l) as [[i z]|] eqn:E.
- apply list_find_Some in E as (Hi & -> & _).
  assert (Hlt : (i < length l)%nat) by (by eapply lookup_lt_Some).
  unfold splice1.
  replace (Z.of_nat i <? 0)%Z with false by (symmetry; apply Z.ltb_ge; lia).
  rewrite Z.min_l by lia. rewrite Nat2Z.id.
  rewrite delete_take_drop.
  assert (Hl : count y l = count y (take i l ++ x :: drop (S i) l))
    by (by rewrite take_drop_middle).
  rewrite Hl, !count_app, count_cons.
  destruct (decide (x = y)); lia.
- apply list_find_None in E. rewrite Forall_forall in E.
  exfalso. by apply (E x).
Qed.

Example query_after_add :
SpatialHash.query (SpatialHash.add (SpatialHash.create 64) 7%nat 0 0 100 10) 70 5 1 1 = [7%nat].
Proof. vm_compute. reflexivity. Qed.

(** ** Spatial hash *)

Section SpatialHashFacts.
Import SpatialHash HashSpec.
Implicit Types (s : t) (o : ref) (c : Z * Z) (r q : rect).

Lemma elem_of_cells s x y w h c :
  c ∈ cells s x y w h ↔
    (Qfloor (x / size s) ≤ c.1 ≤ Qfloor ((x + w) / size s))%Z ∧
    (Qfloor (y / size s) ≤ c.2 ≤ Qfloor ((y + h) / size s))%Z.
Proof.
  unfold cells, cellCoord. simpl. rewrite list_elem_of_bind. split.
  - intros (cx & Hc & Hcx). apply list_elem_of_bind in Hc as (cy & Hc & Hcy).
    apply list_elem_of_singleton in Hc as ->.
    apply elem_of_seqZ in Hcx, Hcy. simpl. lia.
  - intros [Hx Hy]. exists c.1. split; [|apply elem_of_seqZ; lia].
    apply list_elem_of_bind. exists c.2. split; [|apply elem_of_seqZ; lia].
    destruct c. apply list_elem_of_singleton. done.
Qed.

Lemma NoDup_cells s x y w h : NoDup (cells s x y w h).
Proof.
  unfold cells. apply NoDup_bind; [| |apply NoDup_seqZ].
  - intros x1 x2 c _ _ H1 H2.
    apply list_elem_of_bind in H1 as (y1 & H1 & _).
    apply list_elem_of_bind in H2 as (y2 & H2 & _).
    apply list_elem_of_singleton in H1, H2. congruence.
  - intros cx _. apply NoDup_bind; [| |apply NoDup_seqZ].
    + intros y1 y2 c _ _ H1 H2. apply list_elem_of_singleton in H1, H2. congruence.
    + intros cy _. apply NoDup_singleton.
Qed.

Lemma cells_size s s' x y w h :
  size s = size s' → cells s x y w h = cells s' x y w h.
Proof. unfold cells, cellCoord. by intros ->. Qed.

(** *** One iteration of the loops of [add] *)

Lemma bucket_add_cell o s k c :
  bucket (add_cell o s k) c = bucket s c ++ (if decide (c = k) then [o] else []).
Proof.
  unfold bucket, add_cell. simpl. rewrite lookup_alter.
  destruct (decide (k = c)) as [->|Hne].
  - rewrite decide_True by done.
    destruct (hash s !! c) as [l|] eqn:E; simpl.
    + by rewrite E.
    + by rewrite lookup_insert_eq.
  - rewrite decide_False by done. rewrite app_nil_r.
    destruct (hash s !! k); [done|]. by rewrite lookup_insert_ne.
Qed.

Lemma keys_add_cell o s k o' :
  keys_of (add_cell o s k) o' = keys_of s o' ++ (if decide (o' = o) then [k] else []).
Proof.
  unfold keys_of, add_cell. simpl. rewrite lookup_alter.
  destruct (decide (o = o')) as [->|Hne].
  - rewrite decide_True by done.
    destruct (objects s !! o') as [l|] eqn:E; simpl.
    + by rewrite E.
    + by rewrite lookup_insert_eq.
  - rewrite decide_False by done. rewrite app_nil_r.
    destruct (objects s !! o); [done|]. by rewrite lookup_insert_ne.
Qed.

Lemma objects_add_cell_ne o s k o' :
  o' ≠ o → objects (add_cell o s k) !! o' = objects s !! o'.
Proof.
  intros Hne. unfold add_cell. simpl. rewrite lookup_alter_ne by done.
  destruct (objects s !! o); [done|]. by rewrite lookup_insert_ne.
Qed.

Lemma fold_add_cell o ks : ∀ s,
  size (foldl (add_cell o) s ks) = size s ∧
  hitboxes (foldl (add_cell o) s ks) = hitboxes s ∧
  (∀ o', o' ≠ o → objects (foldl (add_cell o) s ks) !! o' = objects s !! o') ∧
  (∀ o', keys_of (foldl (add_cell o) s ks) o' =
         keys_of s o' ++ (if decide (o' = o) then ks else [])) ∧
  (∀ o' c, count o' (bucket (foldl (add_cell o) s ks) c) =
           (count o' (bucket s c) + (if decide (o' = o) then count c ks else 0))%nat).
Proof.
  induction ks as [|k ks IH]; intros s; simpl.
  - repeat split; try done.
    + intros o'. destruct (decide (o' = o)); by rewrite app_nil_r.
    + intros o' c. destruct (decide (o' = o)); rewrite ?count_nil; lia.
  - destruct (IH (add_cell o s k)) as (Hs & Hh & Ho & Hk & Hb).
    repeat split.
    + by rewrite Hs.
    + by rewrite Hh.
    + intros o' Hne. rewrite Ho by done. by apply objects_add_cell_ne.
    + intros o'. rewrite Hk, keys_add_cell.
      destruct (decide (o' = o)); by rewrite <- app_assoc.
    + intros o' c. rewrite Hb, bucket_add_cell, count_app, count_cons.
      destruct (decide (o' = o)) as [->|Hne].
      * destruct (decide (c = k)) as [->|Hck].
        -- rewrite count_cons, !decide_True by done. rewrite count_nil. lia.
        -- rewrite count_nil. rewrite decide_False by done. lia.
      * destruct (decide (c = k)); [|rewrite count_nil; lia].
        rewrite count_cons, count_nil, decide_False by done. lia.
Qed.

(** *** [add] *)

Lemma size_add s o x y w h : size (add s o x y w h) = size s.
Proof. unfold add. by destruct (fold_add_cell o (cells s x y w h)
  {| size := size s; hash := hash s; objects := objects s;
     hitboxes := <[o := (x, y, w, h)]> (hitboxes s) |}) as (-> & _). Qed.

Lemma hitboxes_add s o x y w h :
  hitboxes (add s o x y w h) = <[o := (x, y, w, h)]> (hitboxes s).
Proof. unfold add. by destruct (fold_add_cell o (cells s x y w h)
  {| size := size s; hash := hash s; objects := objects s;
     hitboxes := <[o := (x, y, w, h)]> (hitboxes s) |}) as (_ & -> & _). Qed.

Lemma objects_add_ne s o x y w h o' :
  o' ≠ o → objects (add s o x y w h) !! o' = objects s !! o'.
Proof. intros Hne. unfold add. destruct (fold_add_cell o (cells s x y w h)
  {| size := size s; hash := hash s; objects := objects s;
     hitboxes := <[o := (x, y, w, h)]> (hitboxes s) |}) as (_ & _ & Ho & _).
  by rewrite Ho. Qed.

Lemma keys_add s o x y w h o' :
  keys_of (add s o x y w h) o' =
  keys_of s o' ++ (if decide (o' = o) then cells s x y w h else []).
Proof. unfold add. destruct (fold_add_cell o (cells s x y w h)
  {| size := size s; hash := hash s; objects := objects s;
     hitboxes := <[o := (x, y, w, h)]> (hitboxes s) |}) as (_ & _ & _ & Hk & _).
  by rewrite Hk. Qed.

Lemma count_bucket_add s o x y w h o' c :
  count o' (bucket (add s o x y w h) c) =
  (count o' (bucket s c) +
   (if decide (o' = o) then count c (cells s x y w h) else 0))%nat.
Proof. unfold add. destruct (fold_add_cell o (cells s x y w h)
  {| size := size s; hash := hash s; objects := objects s;
     hitboxes := <[o := (x, y, w, h)]> (hitboxes s) |}) as (_ & _ & _ & _ & Hb).
  by rewrite Hb. Qed.

Lemma bucket_add_mono s o x y w h o' c :
  o' ∈ bucket s c → o' ∈ bucket (add s o x y w h) c.
Proof. rewrite <- !count_pos, count_bucket_add. lia. Qed.

Lemma registered_add s o x y w h :
  registered (add s o x y w h) o (x, y, w, h).
Proof.
  intros c Hc. unfold cells_of in Hc. simpl in Hc.
  rewrite (cells_size _ s) in Hc by apply size_add.
  apply count_pos. rewrite count_bucket_add, decide_True by done.
  apply count_pos in Hc. lia.
Qed.

Lemma registered_add_mono s o x y w h o' r :
  registered s o' r → registered (add s o x y w h) o' r.
Proof.
  intros Hreg c Hc. apply bucket_add_mono, Hreg.
  unfold cells_of in *. by rewrite (cells_size _ (add s o x y w h)) by (by rewrite size_add).
Qed.

(** *** [remove] *)

Lemma remove_untracked s o :
  objects s !! o = None → remove s o = Returned s [NotInSpatialHash o].
Proof. intros E. unfold remove. by rewrite E. Qed.

Lemma remove_cell_view o h k :
  o ∈ view h k →
  ∃ h', remove_cell o h k = Some h' ∧
    ∀ o' c, count o' (view h' c) =
      (count o' (view h c)
       - (if decide (c = k) then if decide (o = o') then 1 else 0 else 0))%nat.
Proof.
  unfold view, remove_cell. intros Hin.
  destruct (h !! k) as [l|] eqn:E; simpl in Hin; [|by inversion Hin].
  destruct (length (splice1 l (indexOf l o)) =? 0)%nat eqn:Elen.
  - eexists; split; [done|]. intros o' c. rewrite lookup_delete.
    destruct (decide (k = c)) as [->|Hne].
    + rewrite decide_True, E by done. simpl.
      apply Nat.eqb_eq, nil_length_inv in Elen.
      rewrite <- (splice_indexOf_count l o o' Hin), Elen. done.
    + rewrite decide_False by done. lia.
  - eexists; split; [done|]. intros o' c. rewrite lookup_insert.
    destruct (decide (k = c)) as [->|Hne].
    + rewrite decide_True, E by done. simpl. by apply splice_indexOf_count.
    + rewrite decide_False by done. lia.
Qed.

Lemma remove_fold o ks : ∀ h,
  (∀ c, (count c ks ≤ count o (view h c))%nat) →
  ∃ h', foldl (λ acc key, h ← acc; remove_cell o h key) (Some h) ks = Some h' ∧
    ∀ o' c, count o' (view h' c) =
      (count o' (view h c) - (if decide (o = o') then count c ks else 0))%nat.
Proof.
  induction ks as [|k ks IH]; intros h Hle; simpl.
  - exists h. split; [done|]. intros o' c.
    destruct (decide (o = o')); rewrite ?count_nil; lia.
  - assert (Hin : o ∈ view h k).
    { apply count_pos. specialize (Hle k). rewrite count_cons, decide_True in Hle by done. lia. }
    destruct (remove_cell_view o h k Hin) as (h1 & -> & H1).
    destruct (IH h1) as (h' & -> & H').
    { intros c. rewrite H1. specialize (Hle c). rewrite count_cons in Hle.
      rewrite (decide_True (P := o = o)) by done.
      destruct (decide (k = c)) as [->|Hne].
      - rewrite decide_True by done. lia.
      - rewrite decide_False by done. lia. }
    exists h'. split; [done|]. intros o' c. rewrite H', H1, count_cons.
    destruct (decide (o = o')), (decide (c = k)) as [->|Hne].
    + rewrite decide_True by done. lia.
    + rewrite decide_False by done. lia.
    + lia.
    + lia.
Qed.

Lemma remove_tracked s o ks :
  objects s !! o = Some ks →
  (∀ c, count o (bucket s c) = count c ks) →
  ∃ s', remove s o = Returned s' [] ∧
    size s' = size s ∧
    hitboxes s' = delete o (hitboxes s) ∧
    objects s' = delete o (objects s) ∧
    ∀ o' c, count o' (bucket s' c) =
      if decide (o = o') then 0%nat else count o' (bucket s c).
Proof.
  intros E Hc. unfold remove. rewrite E.
  destruct (remove_fold o ks (hash s)) as (h' & -> & H').
  { intros c. change (view (hash s) c) with (bucket s c). rewrite Hc. lia. }
  eexists. split; [done|]. repeat split. intros o' c.
  specialize (H' o' c). specialize (Hc c). unfold view in H'. unfold bucket in *.
  simpl. rewrite H'.
  destruct (decide (o = o')) as [<-|]; [rewrite Hc|]; lia.
Qed.

(** *** The invariant of guarded use *)

Lemma stored_cells_other s s' o :
  size s' = size s → hitboxes s' !! o = hitboxes s !! o →
  stored_cells s' o = stored_cells s o.
Proof.
  intros Hs Hh. unfold stored_cells, cells_of. rewrite Hh.
  destruct (hitboxes s !! o); [|done]. by apply cells_size.
Qed.

Lemma consistent_create sz : consistent (create sz).
Proof. intros o. split; [done|]. intros c. done. Qed.

Lemma consistent_add s o x y w h :
  consistent s → objects s !! o = None → consistent (add s o x y w h).
Proof.
  intros Hc Ho o'. destruct (Hc o') as [Hk Hb].
  destruct (decide (o' = o)) as [->|Hne].
  - assert (Hks : keys_of s o = []) by (unfold keys_of; by rewrite Ho).
    assert (Hst : stored_cells (add s o x y w h) o = cells s x y w h).
    { unfold stored_cells. rewrite hitboxes_add, lookup_insert_eq.
      unfold cells_of. simpl. apply cells_size, size_add. }
    rewrite Hst. split.
    + rewrite keys_add, decide_True, Hks by done. done.
    + intros c. rewrite count_bucket_add, decide_True, Hb, <- Hk, Hks by done. done.
  - assert (Hst : stored_cells (add s o x y w h) o' = stored_cells s o').
    { apply stored_cells_other; [apply size_add|].
      rewrite hitboxes_add. by rewrite lookup_insert_ne. }
    rewrite Hst. split.
    + rewrite keys_add, decide_False, app_nil_r by done. done.
    + intros c. rewrite count_bucket_add, decide_False by done. rewrite Hb. lia.
Qed.

Lemma consistent_remove s o s' log :
  consistent s → remove s o = Returned s' log → consistent s'.
Proof.
  intros Hc Hr. destruct (objects s !! o) as [ks|] eqn:E.
  - destruct (Hc o) as [Hk Hb].
    assert (Hks : keys_of s o = ks) by (unfold keys_of; by rewrite E).
    destruct (remove_tracked s o ks E) as (s1 & Hr1 & Hs & Hh & Ho & Hcount).
    { intros c. rewrite Hb, <- Hk, Hks. done. }
    rewrite Hr in Hr1. injection Hr1 as -> ->. intros o'.
    destruct (decide (o' = o)) as [->|Hne].
    + assert (Hst : stored_cells s1 o = []).
      { unfold stored_cells. by rewrite Hh, lookup_delete_eq. }
      rewrite Hst. split.
      * unfold keys_of. by rewrite Ho, lookup_delete_eq.
      * intros c. rewrite Hcount, decide_True by done. done.
    + destruct (Hc o') as [Hk' Hb'].
      assert (Hst : stored_cells s1 o' = stored_cells s o').
      { apply stored_cells_other; [done|]. rewrite Hh. by rewrite lookup_delete_ne. }
      rewrite Hst. split.
      * unfold keys_of. rewrite Ho, lookup_delete_ne by done. apply Hk'.
      * intros c. rewrite Hcount, decide_False by done. apply Hb'.
  - rewrite remove_untracked in Hr by done. by injection Hr as <- _.
Qed.

Lemma guarded_consistent sz s : guarded sz s → consistent s ∧ size s = sz.
Proof.
  induction 1 as [|s o x y w h _ [IH Hs] Ho|s o s' log _ [IH Hs] Hr].
  - split; [apply consistent_create | done].
  - split; [by apply consistent_add | by rewrite size_add].
  - split; [by eapply consistent_remove|].
    destruct (objects s !! o) as [ks|] eqn:E.
    + destruct (IH o) as [Hk Hb].
      destruct (remove_tracked s o ks E) as (s1 & Hr1 & Hs1 & _).
      { intros c. rewrite Hb, <- Hk. unfold keys_of. by rewrite E. }
      rewrite Hr in Hr1. injection Hr1 as -> _. congruence.
    + rewrite remove_untracked in Hr by done. by injection Hr as <- _.
Qed.

(** [remove] never throws on a state reached by guarded use. *)
Lemma guarded_remove_returns sz s o :
  guarded sz s → ∃ s' log, remove s o = Returned s' log.
Proof.
  intros [Hc _]%guarded_consistent. destruct (objects s !! o) as [ks|] eqn:E.
  - destruct (Hc o) as [Hk Hb].
    destruct (remove_tracked s o ks E) as (s1 & Hr1 & _); [|by eauto].
    intros c. rewrite Hb, <- Hk. unfold keys_of. by rewrite E.
  - rewrite remove_untracked by done. eauto.
Qed.

(** *** [query] *)

Lemma count_query s o x y w h :
  count o (query s x y w h) =
  foldr (λ c n, (count o (bucket s c) + n)%nat) 0%nat (cells s x y w h).
Proof. unfold query. apply count_bind. Qed.

Lemma elem_of_query s o x y w h :
  o ∈ query s x y w h ↔ ∃ c, c ∈ cells s x y w h ∧ o ∈ bucket s c.
Proof.
  unfold query. rewrite list_elem_of_bind. split.
  - intros (c & ? & ?). by exists c.
  - intros (c & ? & ?). by exists c.
Qed.

Lemma cell_mono sz a b :
  0 < sz → a <= b → (Qfloor (a / sz) ≤ Qfloor (b / sz))%Z.
Proof.
  intros Hs Hab. apply Qfloor_resp_le. unfold Qdiv.
  apply Qmult_le_compat_r; [done|]. apply Qinv_le_0_compat. lra.
Qed.

(** Two rectangles that share a point share a grid cell. *)
Lemma intersects_common_cell s r q :
  0 < size s → proper r → proper q → intersects r q →
  ∃ c, c ∈ cells_of s r ∧ c ∈ cells_of s q.
Proof.
  destruct r as [[[x y] w] h], q as [[[qx qy] qw] qh].
  unfold proper, intersects, cells_of. simpl.
  intros Hs [Hw Hh] [Hqw Hqh] (H1 & H2 & H3 & H4).
  exists (Z.max (Qfloor (x / size s)) (Qfloor (qx / size s)),
          Z.max (Qfloor (y / size s)) (Qfloor (qy / size s))).
  assert (Hx : x <= x + w) by lra.
  assert (Hy : y <= y + h) by lra.
  assert (Hqx : qx <= qx + qw) by lra.
  assert (Hqy : qy <= qy + qh) by lra.
  pose proof (cell_mono (size s) x (x + w) Hs Hx).
  pose proof (cell_mono (size s) y (y + h) Hs Hy).
  pose proof (cell_mono (size s) qx (qx + qw) Hs Hqx).
  pose proof (cell_mono (size s) qy (qy + qh) Hs Hqy).
  pose proof (cell_mono (size s) x (qx + qw) Hs H1).
  pose proof (cell_mono (size s) qx (x + w) Hs H2).
  pose proof (cell_mono (size s) y (qy + qh) Hs H3).
  pose proof (cell_mono (size s) qy (y + h) Hs H4).
  split; apply elem_of_cells; cbn [fst snd]; lia.
Qed.

Lemma query_registered s o r qx qy qw qh :
  0 < size s → proper r → proper (qx, qy, qw, qh) →
  intersects r (qx, qy, qw, qh) → registered s o r →
  o ∈ query s qx qy qw qh.
Proof.
  intros Hs Hr Hq Hi Hreg.
  destruct (intersects_common_cell s r _ Hs Hr Hq Hi) as (c & Hcr & Hcq).
  apply elem_of_query. exists c. split; [done|]. by apply Hreg.
Qed.

(** *** Sequences of [add] *)

Lemma registered_add_all adds : ∀ s o r,
  registered s o r → registered (add_all s adds) o r.
Proof.
  induction adds as [|a adds IH]; intros s o r Hreg; [done|].
  simpl. apply IH. by apply registered_add_mono.
Qed.

Lemma add_all_spec adds : ∀ s0,
  size (add_all s0 adds) = size s0 ∧
  (∀ o r, (o, r) ∈ adds → registered (add_all s0 adds) o r) ∧
  (∀ o c, o ∈ bucket (add_all s0 adds) c →
     o ∈ bucket s0 c ∨ ∃ r, (o, r) ∈ adds ∧ c ∈ cells_of s0 r).
Proof.
  induction adds as [|a adds IH]; intros s0.
  - repeat split; [by intros ?? ?%elem_of_nil | by left].
  - destruct a as [o' [[[x y] w] h]]. simpl.
    destruct (IH (add s0 o' x y w h)) as (Hs & Hreg & Hsrc).
    rewrite size_add in Hs. repeat split; [done| |].
    + intros o r [Heq|Hin]%elem_of_cons.
      * injection Heq as -> ->. apply registered_add_all, registered_add.
      * by apply Hreg.
    + intros o c Hin. destruct (Hsrc o c Hin) as [Hb|(r & Hr & Hc)].
      * apply count_pos in Hb. rewrite count_bucket_add in Hb.
        destruct (decide (o = o')) as [->|Hne].
        -- destruct (decide (o' ∈ bucket s0 c)) as [?|Hnot]; [by left|].
           apply count_zero in Hnot. right. exists (x, y, w, h). split; [left|].
           unfold cells_of. simpl. apply count_pos. lia.
        -- left. apply count_pos. lia.
      * right. exists r. split; [by right|].
        unfold cells_of in *. by rewrite (cells_size s0 (add s0 o' x y w h))
          by (by rewrite size_add).
Qed.

(** *** Double counting *)

Lemma sum_count_swap (l1 l2 : list (Z * Z)) :
  foldr (λ c n, (count c l2 + n)%nat) 0%nat l1 =
  foldr (λ d n, (count d l1 + n)%nat) 0%nat l2.
Proof.
  revert l2. induction l1 as [|a l1 IH]; intros l2; simpl.
  - induction l2 as [|b l2 IH2]; [done|]. simpl. by rewrite <- IH2.
  - rewrite IH. clear IH. induction l2 as [|b l2 IH2]; [done|].
    simpl. rewrite !count_cons, <- IH2.
    destruct (decide (a = b)), (decide (b = a)); try congruence; lia.
Qed.

Lemma sum_count_filter (l1 l2 : list (Z * Z)) :
  NoDup l2 →
  foldr (λ d n, (count d l2 + n)%nat) 0%nat l1 = length (filter (λ d, d ∈ l2) l1).
Proof.
  intros Hnd. induction l1 as [|a l1 IH]; [done|].
  simpl. rewrite IH, filter_cons, (count_NoDup _ _ Hnd).
  by destruct (decide (a ∈ l2)).
Qed.

End SpatialHashFacts.

(** C2 (amended). After any sequence of [add] calls on a fresh hash whose
    cell size is positive: a query over a rectangle that intersects a
    rectangle [r] added for [o] returns a list containing [o]; and a query
    none of whose covering cells is covered by an added rectangle returns
    the empty list. *)
Theorem spatial_hash_coverage (sz : Q) (adds : list (ref * HashSpec.rect)) :
  0 < sz →
  (∀ o r qx qy qw qh,
     (o, r) ∈ adds → HashSpec.proper r → HashSpec.proper (qx, qy, qw, qh) →
     HashSpec.intersects r (qx, qy, qw, qh) →
     o ∈ SpatialHash.query (HashSpec.add_all (SpatialHash.create sz) adds) qx qy qw qh) ∧
  (∀ qx qy qw qh,
     (∀ o r c, (o, r) ∈ adds →
        c ∈ HashSpec.cells_of (SpatialHash.create sz) r →
        c ∉ SpatialHash.cells (SpatialHash.create sz) qx qy qw qh) →
     SpatialHash.query (HashSpec.add_all (SpatialHash.create sz) adds) qx qy qw qh = []).
Proof.
  intros Hsz.
  destruct (add_all_spec adds (SpatialHash.create sz)) as (Hs & Hreg & Hsrc).
  split.
  - intros o r qx qy qw qh Hin Hr Hq Hi.
    apply (query_registered _ o r); try done; [by rewrite Hs | by apply Hreg].
  - intros qx qy qw qh Hfar.
    destruct (SpatialHash.query _ qx qy qw qh) as [|o l] eqn:E; [done|].
    assert (Hin : o ∈ SpatialHash.query
              (HashSpec.add_all (SpatialHash.create sz) adds) qx qy qw qh)
      by (rewrite E; left).
    apply elem_of_query in Hin as (c & Hc & Hb).
    destruct (Hsrc o c Hb) as [Hempty|(r & Hr & Hcr)].
    + by apply elem_of_nil in Hempty.
    + exfalso. apply (Hfar o r c Hr Hcr).
      by rewrite (cells_size _ (HashSpec.add_all (SpatialHash.create sz) adds)).
Qed.

Lemma spatial_hash_coverage_witness :
  7%nat ∈ SpatialHash.query
    (HashSpec.add_all (SpatialHash.create 64) [(7%nat, (0, 0, 100, 10))]) 90 5 20 20.
Proof.
  apply (proj1 (spatial_hash_coverage 64 [(7%nat, (0, 0, 100, 10))] ltac:(reflexivity))
           7%nat (0, 0, 100, 10)).
  - left.
  - split; simpl; lra.
  - split; simpl; lra.
  - unfold HashSpec.intersects; simpl; lra.
Defined.

(** C2, as stated, fails: the rectangle queried is disjoint from the only
    rectangle added, yet the query returns the entity, because both lie in
    grid cell (0, 0). *)
Lemma spatial_hash_disjoint_query_counterexample :
  ¬ HashSpec.intersects (0, 0, 10, 10) (20, 20, 5, 5) ∧
  SpatialHash.query
    (HashSpec.add_all (SpatialHash.create 64) [(7%nat, (0, 0, 10, 10))]) 20 20 5 5
  = [7%nat].
Proof.
  split.
  - unfold HashSpec.intersects. simpl. lra.
  - vm_compute. reflexivity.
Qed.





(** ** Bounding boxes *)

Section ThingFacts.
Import Thing ThingSpec.

Lemma len_Some a b : Utils.len (Some a) (Some b) = true ↔ a <= b.
Proof. apply Qle_bool_iff. Qed.

Lemma checkAabbIntersection2D_spec a0 a1 a2 a3 b0 b1 b2 b3 x1 y1 r1 x2 y2 r2 :
  Utils.checkAabbIntersection2D [a0; a1; a2; a3] [b0; b1; b2; b3]
    (x1 :: y1 :: r1) (x2 :: y2 :: r2) = true ↔
  meets (a0 + x1) (a2 + x1) (b0 + x2) (b2 + x2) ∧
  meets (a1 + y1) (a3 + y1) (b1 + y2) (b3 + y2).
Proof.
  unfold Utils.checkAabbIntersection2D, Utils.gen, meets. simpl.
  rewrite !andb_true_iff, !Qle_bool_iff. tauto.
Qed.

Lemma checkAabbIntersection_2D a0 a1 a2 a3 b0 b1 b2 b3 p1 p2 :
  Utils.checkAabbIntersection [a0; a1; a2; a3] [b0; b1; b2; b3] p1 p2 =
  Some (Utils.checkAabbIntersection2D [a0; a1; a2; a3] [b0; b1; b2; b3] p1 p2).
Proof. reflexivity. Qed.

Lemma checkAabbIntersection_is_Some a1 a2 p1 p2 :
  valid_arity a1 → valid_arity a2 →
  is_Some (Utils.checkAabbIntersection a1 a2 p1 p2).
Proof.
  assert (H2D : ∀ a, valid_arity a → is_Some (Utils.aabb2D a)).
  { intros a [H|H]; unfold Utils.aabb2D; rewrite H; simpl; [by eexists|].
    do 7 (destruct a as [|? a]; try discriminate). by eexists. }
  intros H1 H2. unfold Utils.checkAabbIntersection.
  destruct (_ && _); [by eexists|].
  destruct (H2D a1 H1) as [b1 ->], (H2D a2 H2) as [b2 ->]. by eexists.
Qed.

Lemma filter_opt_spec {A} (f : A → option bool) (l : list A) :
  (∀ x, x ∈ l → is_Some (f x)) →
  ∃ r, filter_opt f l = Some r ∧ ∀ x, x ∈ r ↔ x ∈ l ∧ f x = Some true.
Proof.
  induction l as [|a l IH]; intros Hall.
  - exists []. split; [done|]. intros x. split; [by intros ?%elem_of_nil|].
    by intros [?%elem_of_nil _].
  - destruct IH as (r & Hr & Hspec); [intros x Hx; apply Hall; by right|].
    destruct (Hall a) as [b Hb]; [left|]. simpl. rewrite Hb, Hr. simpl.
    destruct b.
    + eexists. split; [done|]. intros x. rewrite !elem_of_cons, Hspec.
      split; [intros [->|[? ?]]; auto | intros [[->|?] ?]; auto].
    + eexists. split; [done|]. intros x. rewrite elem_of_cons, Hspec.
      split; [intros [? ?]; auto | intros [[->|?] ?]; [congruence | auto]].
Qed.

Lemma near_sound heap sh me x y thing :
  sound heap sh → thing ∈ near sh me x y →
  ∃ other, heap !! thing = Some other ∧ valid_arity (aabb other).
Proof.
  intros Hs Hin. unfold near in Hin.
  destruct (aabb me !! 0%nat), (aabb me !! 1%nat), (aabb me !! 2%nat), (aabb me !! 3%nat);
    try (by apply elem_of_nil in Hin).
  apply elem_of_query in Hin as (c & _ & Hb). by apply (Hs c).
Qed.

Lemma isOverlapping_is_Some heap sh this me x y z thing :
  sound heap sh → heap !! this = Some me → valid_arity (aabb me) →
  thing ∈ near sh me x y → is_Some (isOverlapping heap this thing x y z).
Proof.
  intros Hs Hme Hv Hin.
  destruct (near_sound heap sh me x y thing Hs Hin) as (other & Ho & Hvo).
  unfold isOverlapping. rewrite Hme, Ho. simpl.
  destruct (bool_decide _); [by eexists|].
  destruct (negb _); [by eexists|].
  destruct (isDead other); [by eexists|].
  by apply checkAabbIntersection_is_Some.
Qed.

(** A solid Thing among the candidates that overlaps makes
    [checkCollision] answer [true]. *)
Lemma checkCollision_hit heap sh this me thing other x y z :
  sound heap sh → heap !! this = Some me → valid_arity (aabb me) →
  thing ∈ near sh me x y → isOverlapping heap this thing x y z = Some true →
  heap !! thing = Some other → isSolid other = true →
  checkCollision heap sh this x y z = Some true.
Proof.
  intros Hs Hme Hv Hin Hov Ho Hsolid. unfold checkCollision, getAllOverlaps.
  rewrite Hme. simpl.
  destruct (filter_opt_spec (λ th, isOverlapping heap this th x y z) (near sh me x y))
    as (r & -> & Hr).
  { intros th Hth. by eapply isOverlapping_is_Some. }
  simpl. f_equal. apply existsb_exists. exists thing. split.
  - apply list_elem_of_In, Hr. done.
  - by rewrite Ho.
Qed.

Lemma isOverlapping_2D heap this thing me other x y z a0 a1 a2 a3 b0 b1 b2 b3 bx by_ rest :
  heap !! this = Some me → heap !! thing = Some other → thing ≠ this →
  isOverlapEnabled other = true → isDead other = false →
  aabb me = [a0; a1; a2; a3] → aabb other = [b0; b1; b2; b3] →
  position other = bx :: by_ :: rest →
  isOverlapping heap this thing x y z =
  Some (Utils.checkAabbIntersection2D [a0; a1; a2; a3] [b0; b1; b2; b3]
          (point x y z) (bx :: by_ :: rest)).
Proof.
  intros Hme Ho Hne Hen Hd Ha Hb Hp. unfold isOverlapping.
  rewrite Hme, Ho. simpl. rewrite bool_decide_false by done.
  rewrite Hen, Hd, Ha, Hb, Hp. done.
Qed.

End ThingFacts.

Section Boundary.
Import Thing ThingSpec.

Lemma world_boxes_valid a1 a2 p1 p2 boxes :
  world_boxes a1 a2 p1 p2 = Some boxes → valid_arity a1 ∧ valid_arity a2.
Proof.
  assert (H2D : ∀ a c, Utils.aabb2D a = Some c → valid_arity a).
  { intros a c. unfold Utils.aabb2D, valid_arity.
    destruct (Nat.eqb_spec (length a) 6); [by right|].
    destruct (Nat.eqb_spec (length a) 4); [by left | done]. }
  unfold world_boxes.
  destruct (Nat.eqb_spec (length a1) 6) as [H1|_], (Nat.eqb_spec (length a2) 6) as [H2|_];
    simpl.
  - intros _. split; by right.
  - destruct (Utils.aabb2D a1) eqn:E1; [|done]. simpl.
    destruct (Utils.aabb2D a2) eqn:E2; [|done]. eauto.
  - destruct (Utils.aabb2D a1) eqn:E1; [|done]. simpl.
    destruct (Utils.aabb2D a2) eqn:E2; [|done]. eauto.
  - destruct (Utils.aabb2D a1) eqn:E1; [|done]. simpl.
    destruct (Utils.aabb2D a2) eqn:E2; [|done]. eauto.
Qed.

Lemma checkAabbIntersection2D_overlap c1 c2 p1 p2 b1 b2 :
  intervals2 c1 p1 = Some b1 → intervals2 c2 p2 = Some b2 → overlap b1 b2 →
  Utils.checkAabbIntersection2D c1 c2 p1 p2 = true.
Proof.
  intros H1 H2 Hov. unfold intervals2 in *.
  destruct c1 as [|a0 [|a1 [|a2 [|a3 [|]]]]]; try discriminate.
  destruct p1 as [|x1 [|y1 r1]]; try discriminate.
  destruct c2 as [|c0 [|c1 [|c2 [|c3 [|]]]]]; try discriminate.
  destruct p2 as [|x2 [|y2 r2]]; try discriminate.
  injection H1 as <-. injection H2 as <-.
  apply Forall2_cons in Hov as [Hx Hov]. apply Forall2_cons in Hov as [Hy _].
  apply checkAabbIntersection2D_spec. done.
Qed.

Lemma checkAabbIntersection3D_overlap a1 a2 p1 p2 b1 b2 :
  intervals3 a1 p1 = Some b1 → intervals3 a2 p2 = Some b2 → overlap b1 b2 →
  Utils.checkAabbIntersection3D a1 a2 p1 p2 = true.
Proof.
  intros H1 H2 Hov. unfold intervals3 in *.
  destruct a1 as [|a0 [|a1 [|a2' [|a3 [|a4 [|a5 [|]]]]]]]; try discriminate.
  destruct p1 as [|x1 [|y1 [|z1 r1]]]; try discriminate.
  destruct a2 as [|c0 [|c1 [|c2 [|c3 [|c4 [|c5 [|]]]]]]]; try discriminate.
  destruct p2 as [|x2 [|y2 [|z2 r2]]]; try discriminate.
  injection H1 as <-. injection H2 as <-.
  apply Forall2_cons in Hov as [[Hx1 Hx2] Hov].
  apply Forall2_cons in Hov as [[Hy1 Hy2] Hov].
  apply Forall2_cons in Hov as [[Hz1 Hz2] _].
  unfold Utils.checkAabbIntersection3D, Utils.gen. simpl in *.
  rewrite !andb_true_iff, !Qle_bool_iff. tauto.
Qed.

(** The test of the engine answers [true] as soon as the two boxes share a
    point along every axis. *)
Lemma checkAabbIntersection_overlap a1 a2 p1 p2 boxes :
  world_boxes a1 a2 p1 p2 = Some boxes → overlap boxes.1 boxes.2 →
  Utils.checkAabbIntersection a1 a2 p1 p2 = Some true.
Proof.
  unfold world_boxes, Utils.checkAabbIntersection, Utils.at_.
  destruct (_ && _).
  - destruct (intervals3 a1 p1) as [b1|] eqn:E1; [|done]. simpl.
    destruct (intervals3 a2 p2) as [b2|] eqn:E2; [|done]. simpl.
    intros [= <-] Hov. f_equal. by eapply checkAabbIntersection3D_overlap.
  - destruct (Utils.aabb2D a1) as [c1|]; [|done]. simpl.
    destruct (Utils.aabb2D a2) as [c2|]; [|done]. simpl.
    destruct (intervals2 c1 p1) as [b1|] eqn:E1; [|done]. simpl.
    destruct (intervals2 c2 p2) as [b2|] eqn:E2; [|done]. simpl.
    intros [= <-] Hov. f_equal. by eapply checkAabbIntersection2D_overlap.
Qed.

End Boundary.



(** Two three-dimensional boxes that share only a corner point. *)
Example touching_corner_in_space :
  let a := Thing.mk 0 [0; 0; 0] [0; 0] [-8; -8; -8; 8; 8; 8] ThingSpec.noContact
             true false ∅ [] false false false in
  let b := Thing.mk 0 [16; 16; 16] [0; 0] [-8; -8; -8; 8; 8; 8] ThingSpec.noContact
             true true ∅ [] false false false in
  Thing.isOverlapping {[ 1%nat := a; 2%nat := b ]} 1%nat 2%nat 0 0 (Some 0) = Some true ∧
  Thing.isOverlapping {[ 1%nat := a; 2%nat := b ]} 1%nat 2%nat 0 0 (Some (-1)) = Some false.
Proof. split; vm_compute; reflexivity. Qed.

(** ** Movement *)

Section MoveFacts.
Import Thing ThingSpec.

Lemma sweepX_done fuel sh this stepSize dx heap :
  round (dx * 1000) = 0%Z → sweepX fuel sh this stepSize dx heap = Some heap.
Proof. intros H. destruct fuel; simpl; by rewrite H. Qed.

Lemma sweepY_done fuel sh this stepSize dy heap :
  round (dy * 1000) = 0%Z → sweepY fuel sh this stepSize dy heap = Some heap.
Proof. intros H. destruct fuel; simpl; by rewrite H. Qed.

Lemma store_0 (a : list Q) (v : Q) :
  ∃ a', store a 0 v = Some a' ∧ a' !! 0%nat = Some v.
Proof. destruct a as [|x a]; by eexists. Qed.

Lemma sound_insert heap sh this me me' :
  sound heap sh → heap !! this = Some me → aabb me' = aabb me →
  sound (<[this := me']> heap) sh.
Proof.
  intros Hs Hme Ha c thing Hin. destruct (Hs c thing Hin) as (other & Ho & Hv).
  destruct (decide (thing = this)) as [->|Hne].
  - exists me'. rewrite lookup_insert_eq. split; [done|]. rewrite Ha. congruence.
  - exists other. by rewrite lookup_insert_ne.
Qed.

Lemma sweepX_blocked fuel sh this stepSize dx heap me px py rest v :
  round (dx * 1000) ≠ 0%Z →
  heap !! this = Some me → position me = px :: py :: rest →
  checkCollision heap sh this (px + Utils.sign dx * Qmin (Qabs dx) stepSize) py
    (rest !! 0%nat) = Some true →
  store (velocity me) 0 0 = Some v →
  sweepX (S fuel) sh this stepSize dx heap =
  Some (<[this :=
          with_contactDirections
            (let c := contactDirections me in
             let c := if Qlt_bool 0 (Utils.sign dx)
                      then mkContact (left c) true (up c) (down c) else c in
             if Qlt_bool (Utils.sign dx) 0
             then mkContact true (right c) (up c) (down c) else c)
            (with_position
               ((inject_Z (round px) - Utils.sign dx * movementPushback) :: py :: rest)
               (with_velocity v me))]> heap).
Proof.
  intros Hdx Hme Hp Hhit Hv. simpl.
  destruct (Z.eqb_spec (round (dx * 1000)) 0) as [?|_]; [done|].
  rewrite Hme. simpl. rewrite Hp. simpl. rewrite Hhit. simpl. rewrite Hv. simpl. done.
Qed.

Lemma move_unfold fuel sh this dx dy stepSize heap me :
  heap !! this = Some me →
  move fuel sh this dx dy stepSize heap =
  (heap ← sweepX fuel sh this stepSize dx
            (<[this := with_contactDirections noContact me]> heap);
   sweepY fuel sh this stepSize dy heap).
Proof. intros Hme. unfold move. by rewrite Hme. Qed.

Lemma sound_create heap sz : sound heap (SpatialHash.create sz).
Proof. intros c thing Hin. by apply elem_of_nil in Hin. Qed.

Lemma sound_add heap s o x y w h other :
  sound heap s → heap !! o = Some other → valid_arity (aabb other) →
  sound heap (SpatialHash.add s o x y w h).
Proof.
  intros Hs Ho Hv c thing Hin. apply count_pos in Hin.
  rewrite count_bucket_add in Hin.
  destruct (decide (thing = o)) as [->|Hne]; [by exists other|].
  apply (Hs c). apply count_pos. lia.
Qed.

End MoveFacts.

(** C5 (amended). [move(0, 0)] leaves the position and the velocity of the
    entity as they were, leaves every other entity untouched, and leaves
    all four contact flags false; so the call changes nothing exactly when
    no contact flag was set before it. *)
Theorem move_zero_displacement (fuel : nat) (sh : SpatialHash.t) (this : ref)
    (stepSize : Q) (heap : gmap ref Thing.t) (me : Thing.t) :
  heap !! this = Some me →
  ∃ me',
    Thing.move fuel sh this 0 0 stepSize heap = Some (<[this := me']> heap) ∧
    Thing.position me' = Thing.position me ∧
    Thing.velocity me' = Thing.velocity me ∧
    Thing.contactDirections me' = ThingSpec.noContact ∧
    (Thing.contactDirections me = ThingSpec.noContact →
     Thing.move fuel sh this 0 0 stepSize heap = Some heap).
Proof.
  intros Hme.
  assert (Hmove : Thing.move fuel sh this 0 0 stepSize heap =
            Some (<[this := Thing.with_contactDirections ThingSpec.noContact me]> heap)).
  { unfold Thing.move. rewrite Hme. simpl.
    rewrite sweepX_done by reflexivity. simpl. by rewrite sweepY_done. }
  exists (Thing.with_contactDirections ThingSpec.noContact me).
  repeat split; try done.
  intros Hc. rewrite Hmove. f_equal. apply insert_id. rewrite Hme. f_equal.
  destruct me. simpl in Hc. by rewrite Hc.
Qed.

Lemma move_zero_displacement_witness :
  let me := Thing.mk 0 [3; 4] [1; 2] [-8; -8; 8; 8] ThingSpec.noContact
              true false ∅ [] false false false in
  Thing.move 0 (SpatialHash.create 64) 1%nat 0 0 1 {[ 1%nat := me ]} =
  Some {[ 1%nat := me ]}.
Proof.
  intros me.
  destruct (move_zero_displacement 0 (SpatialHash.create 64) 1%nat 1
              {[ 1%nat := me ]} me) as (me' & _ & _ & _ & _ & H).
  - reflexivity.
  - apply H. reflexivity.
Defined.

(** C5, as stated, fails: an entity whose [right] contact flag is set has
    it cleared by [move(0, 0)]. *)
Lemma move_zero_clears_contacts_counterexample :
  let me := Thing.mk 0 [3; 4] [1; 2] [-8; -8; 8; 8]
              (Thing.mkContact false true false false)
              true false ∅ [] false false false in
  Thing.right (Thing.contactDirections me) = true ∧
  (heap ← Thing.move 5 (SpatialHash.create 64) 1%nat 0 0 1 {[ 1%nat := me ]};
   me' ← heap !! 1%nat;
   Some (Thing.right (Thing.contactDirections me'))) = Some false.
Proof. split; reflexivity. Qed.

Section MoveResolution.
Import Thing ThingSpec HashSpec.


End MoveResolution.



(** ** Timers *)

Section TimerFacts.
Import Thing TimerSpec.
Implicit Types (reg snap todo : list (string * nat)) (name n : string) (a : nat).

Lemma binding_elem name reg a : binding name reg = Some a → (name, a) ∈ reg.
Proof.
  induction reg as [|[n b] reg IH]; [done|]. simpl.
  case_bool_decide as Hn.
  - intros [= ->]. subst n. left.
  - intros H. right. by apply IH.
Qed.

Lemma binding_unbind_ne name n reg :
  n ≠ name → binding name (unbind n reg) = binding name reg.
Proof.
  intros Hne. unfold unbind. induction reg as [|[n' b] reg IH]; [done|].
  rewrite filter_cons. simpl. destruct (decide (n' ≠ n)) as [Hn|Hn]; simpl.
  - by rewrite IH.
  - apply dec_stable in Hn. subst n'. by rewrite bool_decide_false.
Qed.

Lemma binding_bind name a reg : binding name (bind name a reg) = Some a.
Proof.
  induction reg as [|[n b] reg IH]; simpl.
  - by rewrite bool_decide_true.
  - case_bool_decide as Hn; simpl.
    + by rewrite bool_decide_true.
    + by rewrite bool_decide_false.
Qed.

Lemma elem_of_bind_inv name a reg e :
  e ∈ bind name a reg → e = (name, a) ∨ e ∈ reg.
Proof.
  induction reg as [|[n b] reg IH]; simpl.
  - intros ->%list_elem_of_singleton. by left.
  - case_bool_decide as Hn.
    + intros [->|?]%elem_of_cons; [subst n; by left | right; by right].
    + intros [->|?]%elem_of_cons; [right; left|].
      destruct (IH H); [by left | right; by right].
Qed.

Lemma bind_names name a reg :
  NoDup reg.*1 → NoDup (bind name a reg).*1.
Proof.
  induction reg as [|[n b] reg IH]; simpl.
  - intros _. apply NoDup_singleton.
  - case_bool_decide as Hn; [done|]. simpl.
    intros [Hnot Hnd]%NoDup_cons. apply NoDup_cons. split; [|by apply IH].
    intros (e & He1 & [->|He]%elem_of_bind_inv)%list_elem_of_fmap; simpl in *.
    + done.
    + apply Hnot. rewrite He1. by apply list_elem_of_fmap_2.
Qed.

Lemma bind_addresses name a reg :
  a ∉ reg.*2 → NoDup reg.*2 → NoDup (bind name a reg).*2.
Proof.
  induction reg as [|[n b] reg IH]; simpl.
  - intros _ _. apply NoDup_singleton.
  - intros [Hab Ha]%not_elem_of_cons [Hnot Hnd]%NoDup_cons.
    case_bool_decide as Hn; simpl.
    + apply NoDup_cons. done.
    + apply NoDup_cons. split; [|by apply IH].
      intros (e & He1 & [->|He]%elem_of_bind_inv)%list_elem_of_fmap; simpl in *.
      * done.
      * apply Hnot. rewrite He1. by apply list_elem_of_fmap_2.
Qed.

Lemma same_address reg e e' :
  NoDup reg.*2 → e ∈ reg → e' ∈ reg → e.2 = e'.2 → e = e'.
Proof.
  induction reg as [|x reg IH]; [by intros _ ?%elem_of_nil|].
  simpl. intros [Hnot Hnd]%NoDup_cons [->|He]%elem_of_cons [->|He']%elem_of_cons Heq.
  - done.
  - exfalso. apply Hnot. rewrite Heq. by apply list_elem_of_fmap_2.
  - exfalso. apply Hnot. rewrite <- Heq. by apply list_elem_of_fmap_2.
  - by apply IH.
Qed.

Lemma same_name reg e e' :
  NoDup reg.*1 → e ∈ reg → e' ∈ reg → e.1 = e'.1 → e = e'.
Proof.
  induction reg as [|x reg IH]; [by intros _ ?%elem_of_nil|].
  simpl. intros [Hnot Hnd]%NoDup_cons [->|He]%elem_of_cons [->|He']%elem_of_cons Heq.
  - done.
  - exfalso. apply Hnot. rewrite Heq. by apply list_elem_of_fmap_2.
  - exfalso. apply Hnot. rewrite <- Heq. by apply list_elem_of_fmap_2.
  - by apply IH.
Qed.

Lemma wf_setTimer me d act name :
  wf_timers me →
  wf_timers (setTimer me d act name) ∧
  ∃ a, binding name (timers (setTimer me d act name)) = Some a ∧
       timerObjects (setTimer me d act name) !! a = Some (mkTimer d d act).
Proof.
  intros (Hn & Ha & Hb). unfold setTimer.
  set (a := fresh (dom (timerObjects me))).
  assert (Hfresh : timerObjects me !! a = None)
    by (apply not_elem_of_dom, is_fresh).
  assert (Hnot : a ∉ (timers me).*2).
  { intros (e & -> & He)%list_elem_of_fmap. destruct (Hb e He) as [? Hs]. congruence. }
  split; [split; [|split]|]; simpl.
  - by apply bind_names.
  - by apply bind_addresses.
  - intros e [->|He]%elem_of_bind_inv; simpl.
    + rewrite lookup_insert_eq. by eexists.
    + destruct (Hb e He) as [o Ho]. exists o.
      rewrite lookup_insert_ne; [done|]. intros Heq. rewrite <- Heq in Ho. congruence.
  - exists a. split; [apply binding_bind | apply lookup_insert_eq].
Qed.

Section Pass.
Variable call : nat → gmap ref t → gmap ref t.
Variable this : ref.
Hypothesis call_keeps_timers :
  ∀ f heap, timer_state (call f heap) this = timer_state heap this.

Variables (snap : list (string * nat)) (name : string) (a : nat) (d : Q) (act : option nat).
Hypothesis snap_names : NoDup snap.*1.
Hypothesis snap_addresses : NoDup snap.*2.
Hypothesis snap_ours : (name, a) ∈ snap.

Local Abbreviation pass_inv := (TimerSpec.pass_inv this snap name a d act).

Lemma pass_inv_call f time_ heap : pass_inv time_ heap → pass_inv time_ (call f heap).
Proof.
  unfold TimerSpec.pass_inv. intros (me & Hme & Hrest). specialize (call_keeps_timers f heap).
  unfold timer_state in call_keeps_timers. rewrite Hme in call_keeps_timers.
  destruct (call f heap !! this) as [me'|] eqn:E; [|done].
  simpl in call_keeps_timers. injection call_keeps_timers as Ho Hr.
  exists me'. rewrite Ho, Hr. done.
Qed.

Lemma tick_other time_ heap e :
  e ∈ snap → e ≠ (name, a) → pass_inv time_ heap →
  ∃ heap', tick call this (Some heap) e = Some heap' ∧ pass_inv time_ heap'.
Proof.
  intros He Hne (me & Hme & Hsub & Hbound & Hbind & o & Ho & Hstart & Hact & Htime).
  assert (Haddr : e.2 ≠ a).
  { intros Heq. apply Hne. by apply (same_address snap). }
  assert (Hname : e.1 ≠ name).
  { intros Heq. apply Hne. by apply (same_name snap). }
  destruct (Hbound e He) as [value Hvalue].
  unfold tick. simpl. rewrite Hme. simpl. rewrite Hvalue. simpl.
  assert (Hkeep : ∀ reg, sublist reg snap → binding name reg = Some a →
            pass_inv time_ (<[this := with_timers
              (<[e.2 := mkTimer (time value - 1) (start value) (action value)]>
                 (timerObjects me)) reg me]> heap)).
  { intros reg Hreg Hb. eexists. split; [apply lookup_insert_eq|]. simpl.
    split; [done|]. split; [|split; [done|]].
    - intros e' He'. destruct (decide (e.2 = e'.2)) as [<-|?].
      + rewrite lookup_insert_eq. by eexists.
      + rewrite lookup_insert_ne by done. by apply Hbound.
    - exists o. by rewrite lookup_insert_ne. }
  destruct (Qle_bool (time value - 1) 0).
  - assert (Hinv := Hkeep (unbind e.1 (timers me))
      ltac:(etrans; [apply sublist_filter | done])
      ltac:(by rewrite binding_unbind_ne)).
    destruct (action value) as [f|]; eexists; (split; [done|]); [by apply pass_inv_call | done].
  - eexists. split; [done|]. by apply Hkeep.
Qed.

Lemma tick_ours time_ heap :
  1 < time_ → pass_inv time_ heap →
  ∃ heap', tick call this (Some heap) (name, a) = Some heap' ∧ pass_inv (time_ - 1) heap'.
Proof.
  intros Hlt (me & Hme & Hsub & Hbound & Hbind & o & Ho & Hstart & Hact & Htime).
  unfold tick. simpl. rewrite Hme. simpl. rewrite Ho. simpl.
  assert (Hle : Qle_bool (time o - 1) 0 = false).
  { apply not_true_is_false. rewrite Qle_bool_iff. lra. }
  rewrite Hle. eexists. split; [done|].
  eexists. split; [apply lookup_insert_eq|]. simpl.
  split; [done|]. split; [|split; [done|]].
  - intros e' He'. destruct (decide (a = e'.2)) as [<-|?].
    + rewrite lookup_insert_eq. by eexists.
    + rewrite lookup_insert_ne by done. by apply Hbound.
  - eexists. rewrite lookup_insert_eq. split; [done|]. simpl.
    split; [done|]. split; [done|]. lra.
Qed.

Lemma pass_fold todo : ∀ time_ heap,
  (∀ e, e ∈ todo → e ∈ snap) → NoDup todo.*2 →
  ((name, a) ∈ todo → 1 < time_) →
  pass_inv time_ heap →
  ∃ heap', foldl (tick call this) (Some heap) todo = Some heap' ∧
    pass_inv (if decide ((name, a) ∈ todo) then time_ - 1 else time_) heap'.
Proof.
  induction todo as [|e todo IH]; intros time_ heap Hin Hnd Hlt Hinv.
  - exists heap. split; [done|]. rewrite decide_False; [done|]. apply not_elem_of_nil.
  - simpl in Hnd. apply NoDup_cons in Hnd as [Hnot Hnd].
    assert (Hin' : ∀ e', e' ∈ todo → e' ∈ snap) by (intros e' ?; apply Hin; by right).
    destruct (decide (e = (name, a))) as [->|Hne].
    + assert (Hgone : (name, a) ∉ todo).
      { intros Hc. apply Hnot. by apply (list_elem_of_fmap_2 snd) in Hc. }
      destruct (tick_ours time_ heap) as (heap1 & Hstep & Hinv1);
        [apply Hlt; left | done |].
      destruct (IH (time_ - 1) heap1 Hin' Hnd ltac:(done) Hinv1) as (heap' & Hfold & Hinv').
      exists heap'. cbn [foldl]. rewrite Hstep. split; [done|].
      rewrite decide_True by left. by rewrite decide_False in Hinv'.
    + destruct (tick_other time_ heap e) as (heap1 & Hstep & Hinv1);
        [apply Hin; left | done | done |].
      destruct (IH time_ heap1 Hin' Hnd) as (heap' & Hfold & Hinv'); [|done|].
      { intros Hc. apply Hlt. by right. }
      exists heap'. cbn [foldl]. rewrite Hstep. split; [done|].
      destruct (decide ((name, a) ∈ todo)) as [Hc|Hc].
      * rewrite decide_True by (by right). done.
      * rewrite decide_False; [done|]. intros [?|?]%elem_of_cons; congruence.
Qed.

End Pass.

Lemma updateTimers_pass call this heap me name a o t :
  (∀ f heap, timer_state (call f heap) this = timer_state heap this) →
  heap !! this = Some me → wf_timers me →
  binding name (timers me) = Some a → timerObjects me !! a = Some o →
  time o == t → 1 < t →
  ∃ heap' me' o',
    updateTimers call this heap = Some heap' ∧ heap' !! this = Some me' ∧
    wf_timers me' ∧ binding name (timers me') = Some a ∧
    timerObjects me' !! a = Some o' ∧ start o' = start o ∧ time o' == t - 1.
Proof.
  intros Hcall Hme (Hn & Ha & Hb) Hbind Ho Htime Hlt.
  assert (Hours : (name, a) ∈ timers me) by (by apply binding_elem).
  destruct (pass_fold call this Hcall (timers me) name a (start o) (action o)
              Hn Ha Hours (timers me) t heap) as (heap' & Hfold & Hinv); try done.
  { exists me. split; [done|]. split; [done|]. split; [done|]. split; [done|].
    by exists o. }
  rewrite decide_True in Hinv by done.
  destruct Hinv as (me' & Hme' & Hsub & Hbound & Hbind' & o' & Ho' & Hs' & _ & Ht').
  exists heap', me', o'. unfold updateTimers. rewrite Hme. simpl.
  repeat split; try done.
  - eapply sublist_NoDup; [exact Hn|]. by apply fmap_sublist.
  - eapply sublist_NoDup; [exact Ha|]. by apply fmap_sublist.
  - intros e He. apply Hbound. by eapply elem_of_sublist.
Qed.

Lemma ticks_elapsed call this name a k : ∀ heap me o t,
  (∀ f heap, timer_state (call f heap) this = timer_state heap this) →
  heap !! this = Some me → wf_timers me →
  binding name (timers me) = Some a → timerObjects me !! a = Some o →
  time o == t → inject_Z (Z.of_nat k) < t →
  ∃ heap' me' o',
    ticks call this k heap = Some heap' ∧ heap' !! this = Some me' ∧
    binding name (timers me') = Some a ∧
    timerObjects me' !! a = Some o' ∧ start o' = start o ∧
    time o' == t - inject_Z (Z.of_nat k).
Proof.
  induction k as [|k IH]; intros heap me o t Hcall Hme Hwf Hbind Ho Htime Hlt.
  - exists heap, me, o. repeat split; try done.
    change (inject_Z (Z.of_nat 0)) with 0. lra.
  - rewrite Nat2Z.inj_succ, <- Z.add_1_r, inject_Z_plus in Hlt.
    assert (Hk : 0 <= inject_Z (Z.of_nat k)).
    { change 0 with (inject_Z 0). rewrite <- Zle_Qle. lia. }
    destruct (updateTimers_pass call this heap me name a o t)
      as (heap1 & me1 & o1 & Hpass & Hme1 & Hwf1 & Hbind1 & Ho1 & Hs1 & Ht1); try done.
    { change (inject_Z 1) with 1 in Hlt. lra. }
    destruct (IH heap1 me1 o1 (t - 1)) as (heap' & me' & o' & Hticks & Hme' & Hb' & Ho' & Hs' & Ht');
      try done.
    { change (inject_Z 1) with 1 in Hlt. lra. }
    exists heap', me', o'. simpl. rewrite Hpass. simpl.
    repeat split; try done; [congruence|].
    rewrite Nat2Z.inj_succ, <- Z.add_1_r, inject_Z_plus.
    change (inject_Z 1) with 1. lra.
Qed.

End TimerFacts.




(** ** The frame scheduler *)

Section SchedulerFacts.
Import Game SchedulerSpec.
Context {World : Type} (hooks : Hooks (World := World)).
Implicit Types (s : State (World := World)).

Lemma rem1_bounds x : -(1 # 100) <= x → -(1 # 100) <= rem1 x ∧ rem1 x < 1.
Proof.
  intros Hx. unfold rem1, trunc. destruct (Qle_bool 0 x) eqn:E.
  - apply Qle_bool_iff in E.
    pose proof (Qfloor_le x). pose proof (Qlt_floor x) as Hlt.
    rewrite inject_Z_plus in Hlt. change (inject_Z 1) with 1 in Hlt. lra.
  - assert (Hneg : x < 0).
    { apply Qnot_le_lt. intros Hc. apply Qle_bool_iff in Hc. congruence. }
    assert (Hc : Qceiling x = 0%Z).
    { unfold Qceiling.
      assert (Hf : Qfloor (- x) = 0%Z); [|by rewrite Hf].
      pose proof (Qfloor_le (- x)) as H1. pose proof (Qlt_floor (- x)) as H2.
      assert (H3 : inject_Z (Qfloor (- x)) < inject_Z 1)
        by (change (inject_Z 1) with 1; lra).
      assert (H4 : inject_Z (-1) < inject_Z (Qfloor (- x)))
        by (rewrite inject_Z_plus in H2; change (inject_Z 1) with 1 in H2;
            change (inject_Z (-1)) with (-1); lra).
      rewrite <- Zlt_Qlt in H3, H4. lia. }
    rewrite Hc. change (inject_Z 0) with 0. lra.
Qed.

Lemma rem1_nonneg x : 0 <= x → 0 <= rem1 x.
Proof.
  intros Hx. unfold rem1, trunc.
  assert (E : Qle_bool 0 x = true) by (by apply Qle_bool_iff).
  rewrite E. pose proof (Qfloor_le x). lra.
Qed.

(** *** What [updateHandler] does to the private variables *)

Lemma handleCanvasResize_priv s :
  drawCount (priv (handleCanvasResize hooks s)) = drawCount (priv s) ∧
  isFocused (priv (handleCanvasResize hooks s)) = isFocused (priv s) ∧
  (accumulator (priv (handleCanvasResize hooks s)) = accumulator (priv s) ∨
   accumulator (priv (handleCanvasResize hooks s)) = 99 # 100).
Proof. unfold handleCanvasResize. destruct (_ || _); simpl; auto. Qed.

Lemma handleTabbingInAndOut_priv s :
  drawCount (priv (handleTabbingInAndOut hooks s)) = drawCount (priv s) ∧
  isFocused (priv (handleTabbingInAndOut hooks s)) = documentHasFocus (pub s) ∧
  (accumulator (priv (handleTabbingInAndOut hooks s)) = accumulator (priv s) ∨
   accumulator (priv (handleTabbingInAndOut hooks s)) = 99 # 100).
Proof.
  unfold handleTabbingInAndOut.
  destruct (documentHasFocus (pub s)) eqn:Ed, (isFocused (priv s)) eqn:Ef; simpl;
    rewrite ?Ed, ?Ef; simpl; rewrite ?Ef; simpl; auto.
Qed.

Lemma handleSceneChange_priv s :
  drawCount (priv (handleSceneChange hooks s)) = drawCount (priv s) ∧
  isFocused (priv (handleSceneChange hooks s)) = isFocused (priv s) ∧
  (accumulator (priv (handleSceneChange hooks s)) = accumulator (priv s) ∨
   accumulator (priv (handleSceneChange hooks s)) = 99 # 100).
Proof. unfold handleSceneChange. destruct (nextScene (pub s)); simpl; auto. Qed.

Lemma updateHandler_priv s :
  drawCount (priv (updateHandler hooks s).1) = drawCount (priv s) ∧
  (accumulator (priv (updateHandler hooks s).1) = accumulator (priv s) ∨
   accumulator (priv (updateHandler hooks s).1) = 99 # 100).
Proof.
  unfold updateHandler.
  destruct (handleCanvasResize_priv s) as (Hd1 & _ & Ha1).
  destruct (handleTabbingInAndOut_priv (handleCanvasResize hooks s)) as (Hd2 & _ & Ha2).
  destruct (handleSceneChange_priv
              (handleTabbingInAndOut hooks (handleCanvasResize hooks s))) as (Hd3 & _ & Ha3).
  set (s3 := handleSceneChange hooks _) in *.
  assert (Hacc : accumulator (priv s3) = accumulator (priv s) ∨
                 accumulator (priv s3) = 99 # 100).
  { destruct Ha3 as [->|]; [|by right]. destruct Ha2 as [->|]; [|by right]. done. }
  destruct (negb (isFocused (priv s3))); simpl; split; try done; congruence.
Qed.

(** *** The loop *)

Lemma drain_spec budget frameTime : ∀ s rerender times,
  let r := drain hooks budget frameTime s rerender times in
  (times ≤ r.2 ≤ times + budget)%nat ∧
  drawCount (priv r.1.1) = drawCount (priv s) ∧
  (-(1 # 100) <= accumulator (priv s) → -(1 # 100) <= accumulator (priv r.1.1)) ∧
  (r.1.2 = true → rerender = true ∨ (times < r.2)%nat) ∧
  (r.2 = times → r.1.1 = s).
Proof.
  induction budget as [|budget IH]; intros s rerender times; simpl.
  - repeat split; auto; lia.
  - destruct (Qle_bool 1 (accumulator (priv s))) eqn:E; simpl;
      [|repeat split; auto; lia].
    destruct (updateHandler hooks s) as [s1 updated] eqn:Eu.
    destruct (updateHandler_priv s) as (Hd & Ha). rewrite Eu in Hd, Ha. simpl in Hd, Ha.
    match goal with |- context [drain hooks budget frameTime ?s' ?r' ?t'] =>
      destruct (IH s' r' t') as (Ht & Hdraw & Hacc & Hre & _) end.
    simpl in *. split; [lia|]. split; [congruence|]. split; [|split].
    + intros Hlow. apply Hacc. apply Qle_bool_iff in E.
      destruct Ha as [->| ->]; [lra|]. vm_compute. discriminate.
    + intros Hr. right. lia.
    + intros Hr. lia.
Qed.

Lemma render_priv rerender s :
  accumulator (priv (render hooks rerender s)) = accumulator (priv s) ∧
  drawCount (priv (render hooks rerender s)) =
    (drawCount (priv s) +
     (if (rerender || isFramerateUncapped (pub s)) && documentHasFocus (pub s)
         && hasScene (priv s) then 1 else 0))%nat ∧
  ((rerender || isFramerateUncapped (pub s)) = true →
   rawDelta (mouse (pub (render hooks rerender s))) = (0, 0)).
Proof.
  unfold render, draw.
  destruct (rerender || isFramerateUncapped (pub s)); simpl; [|split; [done|split; [lia|done]]].
  destruct (documentHasFocus (pub s)); simpl; [|split; [done|split; [lia|done]]].
  destruct (hasScene (priv s)); simpl; split; try done; split; try done; lia.
Qed.

Lemma latch_priv rerender s :
  priv (latch rerender s) = priv s ∧
  rawDelta (mouse (pub (latch rerender s))) = rawDelta (mouse (pub s)).
Proof. unfold latch. by destruct rerender. Qed.

Lemma frame_unfold frameTime s :
  frame hooks frameTime s =
  latch (rerendered hooks frameTime s)
    (render hooks (rerendered hooks frameTime s) (before_render hooks frameTime s)).
Proof.
  unfold frame, rerendered, before_render.
  by destruct (drained hooks frameTime s) as [[s1 r] t].
Qed.

(** *** A callback in which nothing resets the accumulator *)

Lemma handleCanvasResize_calm s :
  calm (pub s) →
  handleCanvasResize hooks s =
  mkState (priv s) (with_world (restoreCanvas3D hooks (world (pub s))) (pub s)).
Proof.
  intros (_ & Hw & Hh & _). unfold handleCanvasResize. by rewrite Hw, Hh.
Qed.

Lemma handleTabbingInAndOut_focused s :
  documentHasFocus (pub s) = true → isFocused (priv s) = true →
  pub (handleTabbingInAndOut hooks s) = pub s ∧
  accumulator (priv (handleTabbingInAndOut hooks s)) = accumulator (priv s) ∧
  isFocused (priv (handleTabbingInAndOut hooks s)) = true ∧
  hasScene (priv (handleTabbingInAndOut hooks s)) = hasScene (priv s).
Proof.
  intros Hf Hfoc. unfold handleTabbingInAndOut. rewrite Hf, Hfoc. cbn [negb andb].
  rewrite Hfoc. cbn [negb andb priv pub accumulator isFocused hasScene]. done.
Qed.

Lemma handleSceneChange_none s :
  nextScene (pub s) = None → handleSceneChange hooks s = s.
Proof. intros Hn. unfold handleSceneChange. by rewrite Hn. Qed.

Lemma calm_with_world w (u : Public World) : calm u → calm (with_world w u).
Proof. intros H. exact H. Qed.

Lemma calm_with_keys down last pressed (u : Public World) :
  calm u → calm (with_keys down last pressed u).
Proof. intros H. exact H. Qed.

Lemma updateHandler_calm s :
  quiet_update hooks → calm (pub s) → isFocused (priv s) = true →
  (updateHandler hooks s).2 = true ∧
  accumulator (priv (updateHandler hooks s).1) = accumulator (priv s) ∧
  isFocused (priv (updateHandler hooks s).1) = true ∧
  calm (pub (updateHandler hooks s).1).
Proof.
  intros Hquiet Hcalm Hfoc. unfold updateHandler.
  rewrite (handleCanvasResize_calm s Hcalm).
  set (s1 := mkState (priv s) _).
  assert (Hc1 : calm (pub s1)) by (by apply calm_with_world).
  destruct (handleTabbingInAndOut_focused s1) as (Hp2 & Ha2 & Hf2 & _);
    [by destruct Hc1 as (_ & _ & _ & ?) | done |].
  set (s2 := handleTabbingInAndOut hooks s1) in *.
  assert (Hc2 : calm (pub s2)) by (by rewrite Hp2).
  rewrite (handleSceneChange_none s2) by (by destruct Hc2).
  rewrite Hf2. cbn [negb fst snd priv pub].
  split; [done|]. split; [done|]. split; [done|].
  apply calm_with_world.
  destruct (hasScene (priv s2)); [apply Hquiet|];
    by apply calm_with_world, calm_with_keys.
Qed.

Lemma drain_calm budget frameTime : ∀ s rerender times,
  quiet_update hooks → calm (pub s) → isFocused (priv s) = true →
  inject_Z (Z.of_nat budget) <= accumulator (priv s) →
  (drain hooks budget frameTime s rerender times).2 = (times + budget)%nat ∧
  accumulator (priv (drain hooks budget frameTime s rerender times).1.1) ==
    accumulator (priv s) - inject_Z (Z.of_nat budget).
Proof.
  induction budget as [|budget IH]; intros s rerender times Hquiet Hcalm Hfoc Hacc.
  - simpl. split; [lia|]. change (inject_Z (Z.of_nat 0)) with 0. lra.
  - rewrite Nat2Z.inj_succ, <- Z.add_1_r, inject_Z_plus in *.
    change (inject_Z 1) with 1 in *.
    assert (Hk : 0 <= inject_Z (Z.of_nat budget)).
    { change 0 with (inject_Z 0). rewrite <- Zle_Qle. lia. }
    simpl. assert (E : Qle_bool 1 (accumulator (priv s)) = true)
      by (apply Qle_bool_iff; lra).
    rewrite E.
    destruct (updateHandler_calm s Hquiet Hcalm Hfoc) as (_ & Ha & Hf & Hc).
    destruct (updateHandler hooks s) as [s1 updated]. simpl in *.
    match goal with |- context [drain hooks budget frameTime ?s' ?r' ?t'] =>
      destruct (IH s' r' t') as (Ht & Hres); try done end.
    { simpl. rewrite Ha. lra. }
    split; [lia|]. rewrite Hres. simpl. rewrite Ha. lra.
Qed.

Lemma advance_spec frameTime previous s :
  previousFrameTime (priv s) = Some previous →
  (frameTime - previous) / 1000 * 60 == 10 →
  updateSpeed (pub s) == 1 →
  ¬ 0 < impactFrameCount (pub s) →
  accumulator (priv (advance frameTime s)) == accumulator (priv s) + 10 ∧
  pub (advance frameTime s) = pub s ∧
  isFocused (priv (advance frameTime s)) = isFocused (priv s) ∧
  drawCount (priv (advance frameTime s)) = drawCount (priv s).
Proof.
  intros Hp Hd Hu Hi. unfold advance. rewrite Hp.
  assert (E : Qlt_bool 0 (impactFrameCount (pub s)) = false).
  { unfold Qlt_bool. apply negb_false_iff, Qle_bool_iff. by apply Qnot_lt_le. }
  rewrite E. simpl. repeat split. rewrite Hd, Hu. lra.
Qed.

Lemma advance_drawCount frameTime s :
  drawCount (priv (advance frameTime s)) = drawCount (priv s).
Proof. unfold advance. by destruct (Qlt_bool _ _). Qed.

End SchedulerFacts.







(** ** Scene update *)

#[local] Set Warnings "-clear-no-such-hyp".

Ltac split_decide :=
  repeat match goal with
         | |- context [decide ?P] => destruct (decide P)
         | H : context [decide ?P] |- _ => destruct (decide P)
         end.

Section SceneFacts.
Import Scene SceneSpec.

Lemma delete_lookup_NoDup (l : list ref) (i : nat) (x : ref) :
  NoDup l → l !! i = Some x →
  NoDup (delete i l) ∧ (∀ y, y ∈ delete i l ↔ y ∈ l ∧ y ≠ x) ∧
  take i (delete i l) = take i l.
Proof.
  intros Hnd Hi. rewrite delete_take_drop.
  assert (Hlen : (i < length l)%nat) by (by eapply lookup_lt_Some).
  pose proof (take_drop_middle l i x Hi) as Hl.
  rewrite <- Hl in Hnd.
  apply NoDup_app in Hnd as (H1 & H2 & H3).
  apply NoDup_cons in H3 as [H3 H4].
  split; [|split].
  - apply NoDup_app. split; [done|]. split; [|done].
    intros y Hy Hy'. apply (H2 y Hy). by right.
  - intros y. split.
    + intros [Hy|Hy]%elem_of_app.
      * split; [rewrite <- Hl; apply elem_of_app; by left|].
        intros ->. apply (H2 x Hy). left.
      * split; [rewrite <- Hl; apply elem_of_app; right; by right|].
        intros ->. done.
    + intros [Hy Hne]. rewrite <- Hl in Hy.
      apply elem_of_app in Hy as [Hy|Hy]; [apply elem_of_app; by left|].
      apply elem_of_cons in Hy as [->|Hy]; [done|]. apply elem_of_app. by right.
  - rewrite take_app_le by (rewrite length_take; lia).
    rewrite take_take. f_equal. lia.
Qed.

Lemma view_insert (m : gmap Z (list ref)) k l k' :
  default [] (<[k := l]> m !! k') = if decide (k = k') then l else default [] (m !! k').
Proof. rewrite lookup_insert. by destruct (decide (k = k')). Qed.

Lemma view_delete (m : gmap Z (list ref)) k k' :
  default [] (delete k m !! k') = if decide (k = k') then [] else default [] (m !! k').
Proof. rewrite lookup_delete. by destruct (decide (k = k')). Qed.

(** *** [remove] on a consistent hash *)

Lemma remove_consistent (s : SpatialHash.t) (x : ref) :
  HashSpec.consistent s →
  ∃ s' log, SpatialHash.remove s x = Returned s' log ∧
    HashSpec.consistent s' ∧
    SpatialHash.objects s' = delete x (SpatialHash.objects s) ∧
    (∀ y, y ≠ x → SpatialHash.hitboxes s' !! y = SpatialHash.hitboxes s !! y).
Proof.
  intros Hc. destruct (SpatialHash.objects s !! x) as [ks|] eqn:E.
  - destruct (Hc x) as [Hk Hb].
    destruct (remove_tracked s x ks E) as (s' & Hr & _ & Hh & Ho & _).
    { intros c. rewrite Hb, <- Hk. unfold HashSpec.keys_of. by rewrite E. }
    exists s', []. split; [done|]. split; [by eapply consistent_remove|].
    split; [done|]. intros y Hne. rewrite Hh. by rewrite lookup_delete_ne.
  - exists s, [NotInSpatialHash x]. split; [by apply remove_untracked|].
    split; [done|]. split; [|done]. symmetry. by apply delete_id.
Qed.

(** *** [updateDepth] *)

Lemma updateDepth_wf sc x T :
  wf sc → x ∈ things sc →
  wf (updateDepth sc x T) ∧ things (updateDepth sc x T) = things sc ∧
  spatialHash (updateDepth sc x T) = spatialHash sc.
Proof.
  intros Hwf Hx. pose proof Hwf as (Hnd & Hc & Hh & Ho & Hd & Hl).
  destruct (Hd x Hx) as [d Hdx]. unfold updateDepth. rewrite Hdx.
  destruct (Z.eqb_spec d (round (Thing.depth T))) as [Heq|Hne].
  { split; [exact Hwf | split; reflexivity]. }
  set (k := round (Thing.depth T)) in *.
  split; [|split; reflexivity].
  split; [exact Hnd|]. split; [exact Hc|]. split; [exact Hh|]. split; [exact Ho|].
  split.
  - intros y Hy. simpl. rewrite lookup_insert.
    destruct (decide (x = y)); [by eexists | by apply Hd].
  - intros y k'. unfold layer. simpl.
    assert (Hin : x ∈ default [] (layers sc !! d)).
    { apply count_pos. fold (layer sc d). rewrite Hl, decide_True by done. lia. }
    set (old := default [] (layers sc !! d)) in *.
    assert (Hview : ∀ k'', default []
              ((if (length (splice1 old (indexOf old x)) =? 0)%nat
                then delete d (layers sc)
                else <[d := splice1 old (indexOf old x)]> (layers sc)) !! k'') =
              if decide (d = k'') then splice1 old (indexOf old x)
              else default [] (layers sc !! k'')).
    { intros k''. destruct (length _ =? 0)%nat eqn:El.
      - rewrite view_delete. destruct (decide (d = k'')); [|done].
        apply Nat.eqb_eq, nil_length_inv in El. by rewrite El.
      - apply view_insert. }
    rewrite view_insert, !Hview, lookup_insert.
    pose proof (Hl y k') as Hyk. pose proof (Hl y d) as Hyd.
    unfold layer in Hyk, Hyd. fold old in Hyd.
    pose proof (splice_indexOf_count old x y Hin) as Hsp.
    pose proof (Hl y k) as Hykk. unfold layer in Hykk.
    destruct (decide (k = k')) as [<-|Hkk'].
    + rewrite count_app, count_cons, count_nil.
      rewrite (decide_False (P := d = k)) by done. rewrite Hykk.
      destruct (decide (x = y)) as [<-|Hxy]; split_decide; naive_solver lia.
    + destruct (decide (d = k')) as [<-|Hdk'].
      * rewrite Hsp, Hyd.
        destruct (decide (x = y)) as [<-|Hxy]; split_decide; naive_solver lia.
      * rewrite Hyk.
        destruct (decide (x = y)) as [<-|Hxy]; split_decide; naive_solver lia.
Qed.

(** *** Absence *)

Lemma wf_absent sc x : wf sc → x ∉ things sc → absent sc x.
Proof.
  intros (Hnd & Hc & Hh & Ho & Hd & Hl) Hx. split; [done|]. split.
  - intros c. apply count_zero. destruct (Hc x) as [Hk Hb]. rewrite Hb, <- Hk.
    unfold HashSpec.keys_of.
    destruct (SpatialHash.objects (spatialHash sc) !! x) eqn:E; [|done].
    exfalso. apply Hx, Ho. by eexists.
  - intros k. apply count_zero. rewrite Hl. rewrite decide_False; [done|]. tauto.
Qed.

(** *** The two branches of the loop *)

Lemma bury_wf sc i x :
  wf sc → things sc !! i = Some x →
  ∃ sc', bury sc i x = Some sc' ∧ wf sc' ∧ things sc' = delete i (things sc).
Proof.
  intros (Hnd & Hc & Hh & Ho & Hd & Hl) Hi.
  assert (Hx : x ∈ things sc) by (by eapply list_elem_of_lookup_2).
  destruct (delete_lookup_NoDup (things sc) i x Hnd Hi) as (Hnd' & Hin' & _).
  destruct (Hd x Hx) as [d Hdx].
  destruct (remove_consistent (spatialHash sc) x Hc) as (sh & log & Hr & Hc' & Ho' & Hh').
  unfold bury. rewrite Hr, Hdx. simpl.
  eexists. split; [done|]. split; [|done].
  split; [exact Hnd'|]. split; [exact Hc'|]. simpl. split; [|split; [|split]].
  - intros y [Hy Hne]%Hin'. rewrite Hh' by done. by apply Hh.
  - intros y Hy. rewrite Ho' in Hy. apply Hin'.
    destruct (decide (y = x)) as [->|Hne].
    + rewrite lookup_delete_eq in Hy. by destruct Hy.
    + rewrite lookup_delete_ne in Hy by done. split; [by apply Ho | done].
  - intros y [Hy Hne]%Hin'. rewrite lookup_delete_ne by done. by apply Hd.
  - intros y k. unfold layer. simpl.
    assert (Hcx : count x (layer sc d) = 1%nat) by (rewrite Hl, decide_True; done).
    unfold layer in Hcx.
    destruct (layers sc !! d) as [old|] eqn:El; [|simpl in Hcx; discriminate Hcx].
    simpl in Hcx. assert (Hold : x ∈ old) by (apply count_pos; lia).
    rewrite view_insert.
    pose proof (splice_indexOf_count old x y Hold) as Hsp.
    pose proof (Hl y k) as Hyk. pose proof (Hl y d) as Hyd.
    unfold layer in Hyk, Hyd. rewrite El in Hyd. simpl in Hyd.
    specialize (Hin' y).
    destruct (decide (y = x)) as [->|Hne].
    + rewrite lookup_delete_eq.
      destruct (decide (d = k)) as [<-|?]; [rewrite Hsp, Hcx|rewrite Hyk];
        split_decide; naive_solver lia.
    + rewrite lookup_delete_ne by done.
      destruct (decide (d = k)) as [<-|?]; [rewrite Hsp, Hyd|rewrite Hyk];
        split_decide; naive_solver lia.
Qed.

Lemma hitbox_ok T : thing_ok T → is_Some (hitbox T).
Proof.
  intros [Ha Hp]. unfold hitbox.
  destruct (Thing.position T) as [|p0 [|p1 rest]]; simpl in Hp; try lia.
  destruct Ha as [Ha|Ha].
  - destruct (Thing.aabb T) as [|a0 [|a1 [|a2 [|a3 [|]]]]]; try discriminate.
    by eexists.
  - destruct (Thing.aabb T) as [|a0 [|a1 [|a2 [|a3 [|a4 [|a5 [|]]]]]]]; try discriminate.
    by eexists.
Qed.

Lemma refresh_wf sc x T :
  wf sc → x ∈ things sc → thing_ok T →
  ∃ sc', refresh sc x T = Some sc' ∧ wf sc' ∧ things sc' = things sc.
Proof.
  intros Hwf Hx Hok. unfold refresh.
  set (sc1 := match depthMemory sc !! x with
              | Some d => if Qeq_bool (inject_Z d) (Thing.depth T) then sc
                          else updateDepth sc x T
              | None => updateDepth sc x T
              end).
  assert (H1 : wf sc1 ∧ things sc1 = things sc ∧ spatialHash sc1 = spatialHash sc).
  { unfold sc1. destruct (depthMemory sc !! x) as [d|];
      [destruct (Qeq_bool _ _)|]; try (by apply updateDepth_wf). done. }
  destruct H1 as (Hwf1 & Ht1 & Hs1). clearbody sc1.
  pose proof Hwf1 as (Hnd & Hc & Hh & Ho & Hd & Hl).
  assert (Hx1 : x ∈ things sc1) by (by rewrite Ht1).
  destruct (Hh x Hx1) as [last Hlast]. unfold SpatialHash.getHitbox. rewrite Hlast. simpl.
  destruct Hok as [Ha Hp].
  assert (Hxy : ∃ vx vy,
            Utils.addn (Thing.position T !! 0%nat) (Thing.aabb T !! 0%nat) = Some vx ∧
            Utils.addn (Thing.position T !! 1%nat) (Thing.aabb T !! 1%nat) = Some vy).
  { destruct (Thing.position T) as [|p0 [|p1 rest]]; simpl in Hp; try lia.
    destruct Ha as [Ha|Ha];
      destruct (Thing.aabb T) as [|a0 [|a1 ?]]; try discriminate; by eexists _, _. }
  destruct Hxy as (vx & vy & -> & ->). simpl.
  destruct (_ || _); [|by exists sc1].
  destruct (hitbox_ok T) as [hb ->]; [done|]. simpl.
  destruct (remove_consistent (spatialHash sc1) x Hc) as (sh & log & Hr & Hc' & Ho' & Hh').
  unfold SpatialHash.update. rewrite Hr.
  eexists. split; [done|]. split; [|exact Ht1].
  assert (Hnone : SpatialHash.objects sh !! x = None)
    by (rewrite Ho'; apply lookup_delete_eq).
  split; [exact Hnd|]. split; [by apply consistent_add|].
  split; [|split; [|split; [exact Hd|]]].
  - intros y Hy. simpl. rewrite hitboxes_add, lookup_insert.
    destruct (decide (x = y)); [by eexists|]. rewrite Hh' by done. by apply Hh.
  - intros y Hy. simpl in Hy. destruct (decide (y = x)) as [->|Hne]; [done|].
    rewrite objects_add_ne, Ho', lookup_delete_ne in Hy by done. by apply Ho.
  - intros y k. apply (Hl y k).
Qed.

Lemma addThing_wf sc heap x T :
  wf sc → x ∉ things sc → depthMemory sc !! x = None →
  heap !! x = Some T → thing_ok T →
  ∃ sc', addThing sc heap x = Some sc' ∧ wf sc' ∧
    things sc' = things sc ++ [x] ∧
    depthMemory sc' = <[x := round (Thing.depth T)]> (depthMemory sc).
Proof.
  intros (Hnd & Hc & Hh & Ho & Hd & Hl) Hx Hdx HT Hok.
  unfold addThing. rewrite HT. simpl.
  destruct (hitbox_ok T Hok) as [hb ->]. simpl.
  unfold updateDepth. simpl. rewrite Hdx.
  eexists. split; [done|]. split; [|done].
  assert (Hnone : SpatialHash.objects (spatialHash sc) !! x = None).
  { destruct (SpatialHash.objects (spatialHash sc) !! x) eqn:E; [|done].
    exfalso. apply Hx, Ho. by eexists. }
  split; [|split; [by apply consistent_add|]]; simpl.
  { apply NoDup_app. split; [done|]. split; [|apply NoDup_singleton].
    intros y Hy ->%list_elem_of_singleton. done. }
  split; [|split; [|split]].
  - intros y Hy. rewrite hitboxes_add, lookup_insert.
    destruct (decide (x = y)) as [|Hne]; [by eexists|].
    apply Hh. apply elem_of_app in Hy as [?|?%list_elem_of_singleton]; congruence.
  - intros y Hy. apply elem_of_app.
    destruct (decide (y = x)) as [->|Hne]; [right; left|].
    left. rewrite objects_add_ne in Hy by done. by apply Ho.
  - intros y Hy. rewrite lookup_insert.
    destruct (decide (x = y)) as [|Hne]; [by eexists|].
    apply Hd. apply elem_of_app in Hy as [?|?%list_elem_of_singleton]; congruence.
  - intros y k. unfold layer. simpl. rewrite view_insert, lookup_insert.
    pose proof (Hl y k) as Hyk. unfold layer in Hyk.
    assert (Hin : y ∈ things sc ++ [x] ↔ y ∈ things sc ∨ y = x).
    { rewrite elem_of_app, list_elem_of_singleton. tauto. }
    destruct (decide (round (Thing.depth T) = k)) as [<-|Hk].
    + rewrite count_app, count_cons, count_nil, Hyk.
      destruct (decide (x = y)) as [<-|Hne]; split_decide; naive_solver lia.
    + rewrite Hyk.
      destruct (decide (x = y)) as [<-|Hne]; split_decide; naive_solver lia.
Qed.

Lemma wf_create : wf create.
Proof.
  split; [apply NoDup_nil_2|]. split; [apply consistent_create|].
  split; [by intros x ?%elem_of_nil|]. split; [by intros x [? ?]|].
  split; [by intros x ?%elem_of_nil|].
  intros x k. destruct (decide _) as [[?%elem_of_nil _]|]; done.
Qed.

(** *** The loop *)

Lemma hook_shaped f x sc heap :
  keeps_shape f → shaped sc heap → shaped sc (f x heap).
Proof.
  intros Hf Hs y Hy. destruct (Hs y Hy) as (T & HT & Hok).
  destruct (Hf x heap y T HT Hok) as (T' & ? & ?). by exists T'.
Qed.

Section Pass.
Variables (hooks : Hooks) (t : ref).
Hypothesis update_shape : keeps_shape (updateThing hooks).
Hypothesis death_shape : keeps_shape (onDeath hooks).

(** [fated heap]: whatever the other entities do, [t] will be found dead
    when the pass reaches its slot. *)
Variable fated : gmap ref Thing.t → Prop.
Hypothesis fated_update : ∀ x heap, x ≠ t → fated heap → fated (updateThing hooks x heap).
Hypothesis fated_death : ∀ x heap, x ≠ t → fated heap → fated (onDeath hooks x heap).
Hypothesis fated_found : ∀ heap T T1,
  fated heap → heap !! t = Some T → updated hooks t T heap !! t = Some T1 →
  Thing.isDead T1 = true.

Lemma pass_removes_fated : ∀ fuel i sc heap,
  wf sc → shaped sc heap →
  (length (things sc) - i ≤ fuel)%nat →
  (t ∈ things sc → fated heap) → t ∉ take i (things sc) →
  ∃ sc' heap', pass hooks fuel i sc heap = Some (sc', heap') ∧
    wf sc' ∧ shaped sc' heap' ∧ t ∉ things sc'.
Proof.
  induction fuel as [|fuel IH]; intros i sc heap Hwf Hsh Hfuel Hfated Hnot.
  - destruct (things sc !! i) as [x|] eqn:Hi.
    { apply lookup_lt_Some in Hi. lia. }
    exists sc, heap. simpl. rewrite Hi.
    split; [done|]. split; [done|]. split; [done|].
    apply lookup_ge_None in Hi. by rewrite take_ge in Hnot.
  - destruct (things sc !! i) as [x|] eqn:Hi; simpl; rewrite Hi.
    2:{ exists sc, heap. split; [done|]. split; [done|]. split; [done|].
        apply lookup_ge_None in Hi. by rewrite take_ge in Hnot. }
    assert (Hx : x ∈ things sc) by (by eapply list_elem_of_lookup_2).
    assert (Hlt : (i < length (things sc))%nat) by (by eapply lookup_lt_Some).
    destruct (Hsh x Hx) as (T & HT & Hok). rewrite HT. simpl.
    fold (updated hooks x T heap).
    assert (Hsh1 : shaped sc (updated hooks x T heap)).
    { unfold updated. destruct (_ && _); [by apply hook_shaped | done]. }
    assert (Hfated1 : x ≠ t → t ∈ things sc → fated (updated hooks x T heap)).
    { intros Hne Ht. unfold updated. destruct (_ && _); [|by apply Hfated].
      apply fated_update; auto. }
    destruct (Hsh1 x Hx) as (T1 & HT1 & Hok1). rewrite HT1. simpl.
    destruct (Thing.isDead T1) eqn:Hd1.
    + destruct (bury_wf sc i x Hwf Hi) as (sc2 & -> & Hwf2 & Ht2). simpl.
      destruct Hwf as (Hnd & _).
      destruct (delete_lookup_NoDup (things sc) i x Hnd Hi) as (_ & Hin2 & Htake).
      assert (Hsub : ∀ y, y ∈ things sc2 → y ∈ things sc ∧ y ≠ x).
      { intros y. rewrite Ht2. apply Hin2. }
      apply IH; try done.
      * intros y Hy.
        apply (hook_shaped (onDeath hooks) x sc _ death_shape Hsh1), Hsub, Hy.
      * rewrite Ht2, length_delete by (by eexists). lia.
      * intros [Ht Hne]%Hsub. apply fated_death; auto.
      * by rewrite Ht2, Htake.
    + destruct (refresh_wf sc x T1 Hwf Hx Hok1) as (sc2 & -> & Hwf2 & Ht2). simpl.
      assert (Hne : x ≠ t).
      { intros ->. rewrite (fated_found heap T T1) in Hd1; auto. discriminate. }
      apply IH; try done.
      * intros y. rewrite Ht2. apply Hsh1.
      * rewrite Ht2. lia.
      * rewrite Ht2. auto.
      * rewrite Ht2, (take_S_r _ _ x Hi). intros [Hc|Hc]%elem_of_app; [done|].
        apply list_elem_of_singleton in Hc. congruence.
Qed.

Lemma update_removes_fated sc heap :
  wf sc → shaped sc heap → (t ∈ things sc → fated heap) →
  ∃ sc' heap', update hooks sc heap = Some (sc', heap') ∧ wf sc' ∧ absent sc' t.
Proof.
  intros Hwf Hsh Hfated.
  destruct (pass_removes_fated (length (things sc)) 0 sc heap)
    as (sc1 & heap1 & Hpass & Hwf1 & _ & Hnot); try done.
  - lia.
  - apply not_elem_of_nil.
  - unfold update. rewrite Hpass. simpl. eexists _, _. split; [done|].
    assert (Hwf' : wf (mk (things sc1) (layers sc1) (layerOrder sc1)
                      (depthMemory sc1) (spatialHash sc1)
                      (prune heap1 (namedThings sc1)))) by exact Hwf1.
    split; [done|]. by apply wf_absent.
Qed.

End Pass.

End SceneFacts.




(** The case the specification describes: an entity killed by a later
    entity of the same pass stays in the list and in the spatial hash for
    the rest of that step, and is removed by the next step. *)
Example killed_after_its_slot_is_removed_next_step :
  let T := Thing.mk 0 [0; 0] [0; 0] [-8; -8; 8; 8] ThingSpec.noContact
             true false ∅ [] false false false in
  let heap : gmap ref Thing.t := {[ 1%nat := T; 2%nat := T ]} in
  let hooks := Scene.mkHooks
    (λ x h, if bool_decide (x = 2%nat) then alter (Thing.with_isDead true) 1%nat h else h)
    (λ _ h, h) in
  (sc ← Scene.addThing Scene.create heap 1%nat;
   sc ← Scene.addThing sc heap 2%nat;
   r1 ← Scene.update hooks sc heap;
   r2 ← Scene.update hooks r1.1 r1.2;
   Some (Scene.things r1.1, Thing.isDead <$> r1.2 !! 1%nat,
         SpatialHash.query (Scene.spatialHash r1.1) 1 1 2 2,
         Scene.things r2.1,
         SpatialHash.query (Scene.spatialHash r2.1) 1 1 2 2))
  = Some ([1%nat; 2%nat], Some true, [1%nat; 2%nat], [2%nat], [2%nat]).
Proof. vm_compute. reflexivity. Qed.

(* ================================================================== *)
(** * Further properties *)

(** ** The spatial hash under arbitrary use *)

Section HashChurn.
Import SpatialHash HashSpec.
Implicit Types (s : t) (o : ref) (c : Z * Z) (r q : rect).

Lemma linked_create sz : linked (create sz).
Proof. intros o c. done. Qed.

Lemma linked_add s o x y w h : linked s → linked (add s o x y w h).
Proof.
  intros H o' c. rewrite count_bucket_add, keys_add, count_app, H.
  destruct (decide (o' = o)); [done|]. rewrite count_nil. lia.
Qed.

Lemma consistent_linked s : consistent s → linked s.
Proof. intros H o c. destruct (H o) as [-> Hb]. apply Hb. Qed.

Lemma linked_remove s o :
  linked s →
  ∃ s', remove s o =
        Returned s' (match objects s !! o with
                     | Some _ => []
                     | None => [NotInSpatialHash o]
                     end) ∧
    linked s' ∧ size s' = size s ∧
    objects s' = delete o (objects s) ∧
    (∀ o', o' ≠ o → hitboxes s' !! o' = hitboxes s !! o') ∧
    (∀ o' c, count o' (bucket s' c) =
             if decide (o = o') then 0%nat else count o' (bucket s c)).
Proof.
  intros Hl. destruct (objects s !! o) as [ks|] eqn:E.
  - assert (Hks : keys_of s o = ks) by (unfold keys_of; by rewrite E).
    destruct (remove_tracked s o ks E) as (s1 & Hr1 & Hs & Hh & Ho & Hcount).
    { intros c. by rewrite Hl, Hks. }
    exists s1. split; [done|]. split; [|split; [done|split; [done|split; [|done]]]].
    + intros o' c. rewrite Hcount. unfold keys_of. rewrite Ho.
      destruct (decide (o = o')) as [<-|Hne].
      * by rewrite lookup_delete_eq.
      * rewrite lookup_delete_ne by done. apply Hl.
    + intros o' Hne. rewrite Hh. by rewrite lookup_delete_ne.
  - exists s. split; [by apply remove_untracked|].
    split; [done|]. split; [done|]. split; [by rewrite delete_id|].
    split; [done|]. intros o' c.
    destruct (decide (o = o')) as [<-|Hne]; [|done].
    rewrite Hl. unfold keys_of. by rewrite E.
Qed.

Lemma linked_perform s p :
  linked s → ∃ s' log, perform s p = Returned s' log ∧ linked s' ∧ size s' = size s.
Proof.
  intros Hl. destruct p as [o x y w h|o|o x y w h]; simpl.
  - eexists _, _. split; [done|]. split; [by apply linked_add | apply size_add].
  - destruct (linked_remove s o Hl) as (s' & Hr & Hl' & Hs & _). by eexists _, _.
  - unfold update. destruct (linked_remove s o Hl) as (s' & -> & Hl' & Hs & _).
    eexists _, _. split; [done|].
    split; [by apply linked_add | by rewrite size_add].
Qed.

Lemma linked_run ops : ∀ s,
  linked s → ∃ s' log, run s ops = Returned s' log ∧ linked s' ∧ size s' = size s.
Proof.
  induction ops as [|p ops IH]; intros s Hl; simpl.
  - by eexists _, _.
  - destruct (linked_perform s p Hl) as (s1 & log1 & -> & Hl1 & Hs1).
    destruct (IH s1 Hl1) as (s2 & log2 & -> & Hl2 & Hs2).
    eexists _, _. split; [done|]. split; [done|]. congruence.
Qed.

Lemma consistent_perform s p s' log :
  consistent s →
  match p with Add o _ _ _ _ => objects s !! o = None | _ => True end →
  perform s p = Returned s' log → consistent s'.
Proof.
  intros Hc Hp Hr. destruct p as [o x y w h|o|o x y w h]; simpl in Hr.
  - injection Hr as <- _. by apply consistent_add.
  - by eapply consistent_remove.
  - unfold update in Hr.
    destruct (linked_remove s o (consistent_linked s Hc)) as (s1 & Hr1 & _ & _ & Ho & _).
    rewrite Hr1 in Hr. injection Hr as <- _.
    apply consistent_add; [by eapply consistent_remove|].
    by rewrite Ho, lookup_delete_eq.
Qed.

Lemma consistent_run ops : ∀ s s' log,
  consistent s → disciplined s ops → run s ops = Returned s' log → consistent s'.
Proof.
  induction ops as [|p ops IH]; intros s s' log Hc Hd Hr; simpl in *.
  - by injection Hr as <- _.
  - destruct Hd as [Hp Hd].
    destruct (perform s p) as [s1 log1|] eqn:E1; [|done].
    destruct (run s1 ops) as [s2 log2|] eqn:E2; [|done].
    injection Hr as <- _. eapply IH; [|done..].
    by eapply consistent_perform.
Qed.

(** *** [add] and [remove] on the buckets themselves *)

Lemma bucket_fold_add_cell o ks : NoDup ks → ∀ s c,
  bucket (foldl (add_cell o) s ks) c =
  bucket s c ++ (if decide (c ∈ ks) then [o] else []).
Proof.
  induction 1 as [|k ks Hk _ IH]; intros s c; cbn [foldl].
  - case_decide as Hc; [by apply elem_of_nil in Hc | by rewrite app_nil_r].
  - rewrite IH, bucket_add_cell, <- app_assoc. f_equal.
    repeat case_decide; subst; try done; exfalso; rewrite ?elem_of_cons in *; naive_solver.
Qed.

Lemma bucket_add s o x y w h c :
  bucket (add s o x y w h) c =
  bucket s c ++ (if decide (c ∈ cells s x y w h) then [o] else []).
Proof. unfold add. rewrite bucket_fold_add_cell by apply NoDup_cells. done. Qed.

Lemma splice_last (l : list ref) (o : ref) :
  o ∉ l → splice1 (l ++ [o]) (indexOf (l ++ [o]) o) = l.
Proof.
  intros Hn. unfold indexOf.
  assert (E : list_find (λ y, y = o) (l ++ [o]) = Some (length l, o)).
  { apply list_find_Some. split; [|split; [done|]].
    - by rewrite lookup_app_r, Nat.sub_diag by lia.
    - intros j y Hj Hlt ->. rewrite lookup_app_l in Hj by done.
      apply Hn. by eapply list_elem_of_lookup_2. }
  rewrite E. unfold splice1. rewrite length_app. simpl.
  replace (Z.of_nat (length l) <? 0)%Z with false by (symmetry; apply Z.ltb_ge; lia).
  replace (Z.to_nat (Z.min (Z.of_nat (length l)) (Z.of_nat (length l + 1))))
    with (length l) by lia.
  rewrite (delete_middle l [] o). apply app_nil_r.
Qed.

Lemma remove_cell_last o (h : gmap (Z * Z) (list ref)) k l :
  h !! k = Some (l ++ [o]) → o ∉ l →
  ∃ h', remove_cell o h k = Some h' ∧ view h' k = l ∧
    ∀ c, c ≠ k → h' !! c = h !! c.
Proof.
  intros E Hn. unfold remove_cell. rewrite E, splice_last by done.
  destruct (length l =? 0)%nat eqn:El.
  - eexists. split; [done|]. unfold view. split.
    + rewrite lookup_delete_eq. simpl. apply Nat.eqb_eq in El.
      symmetry. by apply nil_length_inv.
    + intros c Hc. by rewrite lookup_delete_ne.
  - eexists. split; [done|]. unfold view. split.
    + by rewrite lookup_insert_eq.
    + intros c Hc. by rewrite lookup_insert_ne.
Qed.

Lemma remove_fold_last o (base : Z * Z → list ref) ks :
  NoDup ks → (∀ c, o ∉ base c) → ∀ h,
  (∀ c, c ∈ ks → h !! c = Some (base c ++ [o])) →
  ∃ h', foldl (λ acc key, h ← acc; remove_cell o h key) (Some h) ks = Some h' ∧
    ∀ c, view h' c = if decide (c ∈ ks) then base c else view h c.
Proof.
  intros Hnd Hb. induction Hnd as [|k ks Hk _ IH]; intros h Hin.
  - exists h. split; [done|]. intros c.
    case_decide as Hc; [by apply elem_of_nil in Hc | done].
  - destruct (remove_cell_last o h k (base k)) as (h1 & E1 & Hv & Hother);
      [apply Hin, elem_of_cons; auto | apply Hb |].
    destruct (IH h1) as (h' & E' & H').
    { intros c Hc. rewrite Hother; [apply Hin, elem_of_cons; auto|].
      intros ->. done. }
    exists h'. split.
    { cbn [foldl]. simpl. rewrite E1. exact E'. }
    intros c. rewrite H'.
    repeat case_decide; subst; try done.
    + exfalso. rewrite elem_of_cons in *. naive_solver.
    + destruct (decide (c = k)) as [->|Hne]; [done|].
      exfalso. rewrite elem_of_cons in *. naive_solver.
    + unfold view. rewrite Hother; [done|]. intros ->.
      rewrite elem_of_cons in *. naive_solver.
Qed.

Lemma cells_nonempty s x y w h :
  0 < size s → 0 <= w → 0 <= h → cellCoord s x y ∈ cells s x y w h.
Proof.
  intros Hs Hw Hh. apply elem_of_cells. unfold cellCoord. cbn [fst snd].
  pose proof (cell_mono (size s) x (x + w) Hs ltac:(lra)).
  pose proof (cell_mono (size s) y (y + h) Hs ltac:(lra)). lia.
Qed.

End HashChurn.



(** X2: on a fresh hash of positive cell size, when every add of the
    sequence is made on an object the hash does not track, the run ends
    in a state where the key list of every object is the list of cells
    its stored hitbox covers, and every bucket holds an object exactly
    once per covered cell. *)
Theorem spatial_hash_consistent_under_churn (sz : Q) (ops : list HashSpec.op) :
  0 < sz →
  HashSpec.disciplined (SpatialHash.create sz) ops →
  ∃ s log, HashSpec.run (SpatialHash.create sz) ops = Returned s log ∧
    HashSpec.consistent s.
Proof.
  intros _ Hd.
  destruct (linked_run ops (SpatialHash.create sz) (linked_create sz))
    as (s & log & Hr & _).
  exists s, log. split; [done|].
  eapply consistent_run; [apply consistent_create | done..].
Qed.

Lemma spatial_hash_consistent_under_churn_witness :
  ∃ s log,
    HashSpec.run (SpatialHash.create 64)
      [HashSpec.Add 1%nat 0 0 100 10; HashSpec.Update 1%nat 60 60 10 10;
       HashSpec.Add 2%nat 0 0 10 10; HashSpec.Remove 1%nat;
       HashSpec.Remove 3%nat] = Returned s log ∧
    HashSpec.consistent s.
Proof.
  apply (spatial_hash_consistent_under_churn 64).
  - reflexivity.
  - vm_compute. tauto.
Defined.

(** X3: adding an untracked object with a rectangle of non-negative extent
    and removing it again gives back every bucket, the tracked objects and
    the stored hitboxes as they were, and logs nothing. *)
Theorem add_remove_round_trip (s : SpatialHash.t) (o : ref) (x y w h : Q) :
  HashSpec.linked s →
  SpatialHash.objects s !! o = None → SpatialHash.hitboxes s !! o = None →
  0 < SpatialHash.size s → 0 <= w → 0 <= h →
  ∃ s', SpatialHash.remove (SpatialHash.add s o x y w h) o = Returned s' [] ∧
    SpatialHash.size s' = SpatialHash.size s ∧
    SpatialHash.objects s' = SpatialHash.objects s ∧
    SpatialHash.hitboxes s' = SpatialHash.hitboxes s ∧
    ∀ c, HashSpec.bucket s' c = HashSpec.bucket s c.
Proof.
  intros Hl Ho Hh Hs Hw Hh'.
  pose proof (cells_nonempty s x y w h Hs Hw Hh') as Hne.
  set (s1 := SpatialHash.add s o x y w h).
  assert (Hfree : ∀ c, o ∉ HashSpec.bucket s c).
  { intros c Hin. apply count_pos in Hin. rewrite Hl in Hin.
    unfold HashSpec.keys_of in Hin. rewrite Ho in Hin. simpl in Hin.
    rewrite count_nil in Hin. lia. }
  assert (Hk : HashSpec.keys_of s1 o = SpatialHash.cells s x y w h).
  { unfold s1. rewrite keys_add, decide_True by done.
    unfold HashSpec.keys_of. by rewrite Ho. }
  assert (Eo : SpatialHash.objects s1 !! o = Some (SpatialHash.cells s x y w h)).
  { unfold HashSpec.keys_of in Hk. destruct (SpatialHash.objects s1 !! o) as [ks|].
    - simpl in Hk. by rewrite Hk.
    - simpl in Hk. rewrite <- Hk in Hne. by apply elem_of_nil in Hne. }
  destruct (remove_fold_last o (HashSpec.bucket s) (SpatialHash.cells s x y w h)
              (NoDup_cells _ _ _ _ _) Hfree (SpatialHash.hash s1)) as (h' & Hf & Hv).
  { intros c Hc. pose proof (bucket_add s o x y w h c) as Hb.
    rewrite decide_True in Hb by done. fold s1 in Hb. unfold HashSpec.bucket in Hb.
    destruct (SpatialHash.hash s1 !! c) as [l|]; simpl in Hb.
    - by rewrite Hb.
    - exfalso. destruct (default [] (SpatialHash.hash s !! c)); discriminate. }
  unfold SpatialHash.remove. rewrite Eo, Hf. eexists. split; [done|]. simpl.
  split; [apply size_add|]. split; [|split].
  - apply map_eq. intros o'. destruct (decide (o' = o)) as [->|Hn].
    + by rewrite lookup_delete_eq.
    + rewrite lookup_delete_ne by done. by apply objects_add_ne.
  - unfold s1. rewrite hitboxes_add, delete_insert_eq. by apply delete_id.
  - intros c. specialize (Hv c). unfold HashSpec.view in Hv. unfold HashSpec.bucket at 1.
    simpl. rewrite Hv. destruct (decide (c ∈ SpatialHash.cells s x y w h)); [done|].
    pose proof (bucket_add s o x y w h c) as Hb.
    rewrite decide_False, app_nil_r in Hb by done. exact Hb.
Qed.

Lemma add_remove_round_trip_witness :
  ∃ s', SpatialHash.remove (SpatialHash.add (SpatialHash.create 64) 7%nat 0 0 100 10) 7%nat
        = Returned s' [] ∧
    SpatialHash.size s' = 64 ∧
    SpatialHash.objects s' = ∅ ∧
    SpatialHash.hitboxes s' = ∅ ∧
    ∀ c, HashSpec.bucket s' c = HashSpec.bucket (SpatialHash.create 64) c.
Proof.
  apply (add_remove_round_trip (SpatialHash.create 64) 7%nat 0 0 100 10).
  - intros o c. reflexivity.
  - reflexivity.
  - reflexivity.
  - reflexivity.
  - discriminate.
  - discriminate.
Defined.

Section HashQueries.
Import SpatialHash HashSpec.

Lemma floor_scale (sz a : Q) :
  0 < sz → inject_Z (Qfloor (a / sz)) * sz <= a ∧ a < (inject_Z (Qfloor (a / sz)) + 1) * sz.
Proof.
  intros Hs. pose proof (Qfloor_le (a / sz)) as H1. pose proof (Qlt_floor (a / sz)) as H2.
  rewrite inject_Z_plus in H2. change (inject_Z 1) with 1 in H2.
  assert (E : a == a / sz * sz) by (field; lra).
  set (f := inject_Z (Qfloor (a / sz))) in *. set (d := a / sz) in *.
  split.
  - rewrite E. apply Qmult_le_compat_r; lra.
  - rewrite E at 1. apply Qmult_lt_compat_r; lra.
Qed.

Lemma common_cell_near (sz a b a' b' : Q) (k : Z) :
  0 < sz →
  (Qfloor (a / sz) ≤ k ≤ Qfloor (b / sz))%Z →
  (Qfloor (a' / sz) ≤ k ≤ Qfloor (b' / sz))%Z →
  a < b' + sz.
Proof.
  intros Hs [H1 _] [_ H2].
  destruct (floor_scale sz a Hs) as [_ Ha]. destruct (floor_scale sz b' Hs) as [Hb _].
  assert (Hle : inject_Z (Qfloor (a / sz)) <= inject_Z (Qfloor (b' / sz))).
  { rewrite <- Zle_Qle. lia. }
  set (f := inject_Z (Qfloor (a / sz))) in *. set (g := inject_Z (Qfloor (b' / sz))) in *.
  assert (f * sz <= g * sz) by (apply Qmult_le_compat_r; lra).
  lra.
Qed.

End HashQueries.



(** X5: in a consistent hash with a positive cell size, every object a
    query returns is tracked, its stored hitbox covers one of the cells
    the query visits, and the hitbox lies less than one cell size away
    from the query rectangle along both axes. *)
Theorem query_returns_only_nearby (s : SpatialHash.t) (o : ref) (x y w h : Q) :
  HashSpec.consistent s → 0 < SpatialHash.size s →
  o ∈ SpatialHash.query s x y w h →
  ∃ r c, SpatialHash.getHitbox s o = Some r ∧
    c ∈ HashSpec.cells_of s r ∧ c ∈ SpatialHash.cells s x y w h ∧
    r.1.1.1 < x + w + SpatialHash.size s ∧ x < r.1.1.1 + r.1.2 + SpatialHash.size s ∧
    r.1.1.2 < y + h + SpatialHash.size s ∧ y < r.1.1.2 + r.2 + SpatialHash.size s.
Proof.
  intros Hc Hs Hin. apply elem_of_query in Hin as (c & Hcq & Hb).
  apply count_pos in Hb. destruct (Hc o) as [_ Hcount]. rewrite Hcount in Hb.
  apply count_pos in Hb. unfold HashSpec.stored_cells in Hb.
  unfold SpatialHash.getHitbox.
  destruct (SpatialHash.hitboxes s !! o) as [r|]; [|by apply elem_of_nil in Hb].
  exists r, c. split; [done|]. split; [done|]. split; [done|].
  unfold HashSpec.cells_of in Hb.
  apply elem_of_cells in Hb as [Hx Hy]. apply elem_of_cells in Hcq as [Hqx Hqy].
  split; [|split; [|split]].
  - by eapply common_cell_near.
  - by eapply common_cell_near.
  - by eapply common_cell_near.
  - by eapply common_cell_near.
Qed.

Lemma query_returns_only_nearby_witness :
  ∃ r c, SpatialHash.getHitbox (SpatialHash.add (SpatialHash.create 64) 7%nat 0 0 10 10) 7%nat
         = Some r ∧
    c ∈ HashSpec.cells_of (SpatialHash.add (SpatialHash.create 64) 7%nat 0 0 10 10) r ∧
    c ∈ SpatialHash.cells (SpatialHash.add (SpatialHash.create 64) 7%nat 0 0 10 10) 20 20 5 5 ∧
    r.1.1.1 < 20 + 5 + 64 ∧ 20 < r.1.1.1 + r.1.2 + 64 ∧
    r.1.1.2 < 20 + 5 + 64 ∧ 20 < r.1.1.2 + r.2 + 64.
Proof.
  apply (query_returns_only_nearby
           (SpatialHash.add (SpatialHash.create 64) 7%nat 0 0 10 10) 7%nat 20 20 5 5).
  - apply consistent_add; [apply consistent_create | reflexivity].
  - reflexivity.
  - vm_compute. apply list_elem_of_here.
Defined.

(** X6: once remove has returned, no query returns the object, whatever
    rectangle is asked for; this holds in every state of positive cell
    size whose two indexes mirror each other, so also after add was
    called twice on the object. *)
Theorem removed_object_is_never_returned (s s' : SpatialHash.t) (o : ref)
    (log : list message) (x y w h : Q) :
  0 < SpatialHash.size s →
  HashSpec.linked s → SpatialHash.remove s o = Returned s' log →
  count o (SpatialHash.query s' x y w h) = 0%nat.
Proof.
  intros _ Hl Hr. destruct (linked_remove s o Hl) as (s1 & Hr1 & _ & _ & _ & _ & Hc).
  rewrite Hr in Hr1. injection Hr1 as -> _.
  apply count_zero. intros Hin. apply elem_of_query in Hin as (c & _ & Hb).
  apply count_pos in Hb. rewrite Hc, decide_True in Hb by done. lia.
Qed.

Lemma removed_object_is_never_returned_witness :
  count 7%nat
    (SpatialHash.query
       (match SpatialHash.remove
                (SpatialHash.add (SpatialHash.add (SpatialHash.create 64) 7%nat 0 0 100 10)
                   7%nat 0 0 10 100) 7%nat with
        | Returned s' _ => s'
        | Threw => SpatialHash.create 64
        end) 0 0 200 200) = 0%nat.
Proof.
  apply (removed_object_is_never_returned
           (SpatialHash.add (SpatialHash.add (SpatialHash.create 64) 7%nat 0 0 100 10)
              7%nat 0 0 10 100) _ 7%nat []).
  - reflexivity.
  - apply linked_add, linked_add, linked_create.
  - vm_compute. reflexivity.
Defined.

(** ** Numeric helpers of utils.js *)

Section NumberFacts.

Lemma Qlt_bool_true a b : Qlt_bool a b = true ↔ a < b.
Proof.
  unfold Qlt_bool. rewrite negb_true_iff. split.
  - intros H. apply Qnot_le_lt. intros Hle. apply Qle_bool_iff in Hle. congruence.
  - intros H. destruct (Qle_bool b a) eqn:E; [|done].
    apply Qle_bool_iff in E. lra.
Qed.

Lemma Qlt_bool_false a b : Qlt_bool a b = false ↔ b <= a.
Proof.
  unfold Qlt_bool. rewrite negb_false_iff. apply Qle_bool_iff.
Qed.

Lemma Qfloor_unique (x : Q) (z : Z) :
  inject_Z z <= x → x < inject_Z z + 1 → Qfloor x = z.
Proof.
  intros H1 H2. pose proof (Qfloor_le x) as H3. pose proof (Qlt_floor x) as H4.
  rewrite inject_Z_plus in H4. change (inject_Z 1) with 1 in H4.
  assert (inject_Z z < inject_Z (Qfloor x) + 1) as H5 by lra.
  assert (inject_Z (Qfloor x) < inject_Z z + 1) as H6 by lra.
  change 1 with (inject_Z 1) in H5, H6. rewrite <- inject_Z_plus in H5, H6.
  rewrite <- Zlt_Qlt in H5, H6. lia.
Qed.

Lemma Qceiling_unique (x : Q) (z : Z) :
  inject_Z z - 1 < x → x <= inject_Z z → Qceiling x = z.
Proof.
  intros H1 H2. unfold Qceiling.
  rewrite (Qfloor_unique (- x) (- z)); [lia| |].
  - rewrite inject_Z_opp. lra.
  - rewrite inject_Z_opp. lra.
Qed.

Lemma trunc_floor x : 0 <= x → trunc x = Qfloor x.
Proof. intros H. unfold trunc. apply Qle_bool_iff in H. by rewrite H. Qed.

Lemma trunc_ceiling x : x <= 0 → trunc x = Qceiling x.
Proof.
  intros H. unfold trunc. destruct (Qle_bool 0 x) eqn:E; [|done].
  apply Qle_bool_iff in E. assert (E0 : x == 0) by lra.
  rewrite (Qfloor_comp _ _ E0), (Qceiling_comp _ _ E0). done.
Qed.

(** The fractional part left by [trunc] has the sign of the number. *)
Lemma trunc_bounds x :
  (0 <= x → inject_Z (trunc x) <= x ∧ x < inject_Z (trunc x) + 1) ∧
  (x <= 0 → inject_Z (trunc x) - 1 < x ∧ x <= inject_Z (trunc x)).
Proof.
  split; intros H.
  - rewrite trunc_floor by done. pose proof (Qfloor_le x). pose proof (Qlt_floor x) as H1.
    rewrite inject_Z_plus in H1. change (inject_Z 1) with 1 in H1. lra.
  - rewrite trunc_ceiling by done. pose proof (Qle_ceiling x). pose proof (Qceiling_lt x) as H1.
    unfold Z.sub in H1. rewrite inject_Z_plus, inject_Z_opp in H1.
    change (inject_Z 1) with 1 in H1. lra.
Qed.

End NumberFacts.

(** X7: the intersection test does not depend on the order of the two
    boxes, in two and in three dimensions, the arity error included. *)
Theorem checkAabbIntersection_symmetric (aabb1 aabb2 p1 p2 : list Q) :
  Utils.checkAabbIntersection aabb1 aabb2 p1 p2 =
  Utils.checkAabbIntersection aabb2 aabb1 p2 p1.
Proof.
  unfold Utils.checkAabbIntersection.
  destruct (length aabb1 =? 6)%nat, (length aabb2 =? 6)%nat,
    (bool_decide (is_Some (Utils.at_ p1 2))), (bool_decide (is_Some (Utils.at_ p2 2)));
    simpl.
  1: { f_equal. unfold Utils.checkAabbIntersection3D, Utils.gen.
       repeat match goal with |- context [Utils.len ?a ?b] =>
         let v := fresh "v" in generalize (Utils.len a b); intros v end.
       repeat match goal with v : bool |- _ => destruct v end; reflexivity. }
  all: destruct (Utils.aabb2D aabb1) as [c1|], (Utils.aabb2D aabb2) as [c2|]; simpl;
    try reflexivity; f_equal; unfold Utils.checkAabbIntersection2D, Utils.gen;
    repeat match goal with |- context [Utils.len ?a ?b] =>
      let v := fresh "v" in generalize (Utils.len a b); intros v end;
    repeat match goal with v : bool |- _ => destruct v end; reflexivity.
Qed.

(** X8: aabb2D accepts exactly the boxes of four and of six entries and
    always returns four entries; the intersection test returns a result,
    rather than throwing the arity error, exactly when both boxes have
    such an arity. *)
Theorem aabb2D_arity (aabb : list Q) :
  (is_Some (Utils.aabb2D aabb) ↔ ThingSpec.valid_arity aabb) ∧
  (∀ b, Utils.aabb2D aabb = Some b → length b = 4%nat) ∧
  (∀ aabb2 p1 p2,
     is_Some (Utils.checkAabbIntersection aabb aabb2 p1 p2) ↔
     ThingSpec.valid_arity aabb ∧ ThingSpec.valid_arity aabb2).
Proof.
  assert (H1 : ∀ a, is_Some (Utils.aabb2D a) ↔ ThingSpec.valid_arity a).
  { intros a. unfold Utils.aabb2D, ThingSpec.valid_arity.
    destruct a as [|a0 [|a1 [|a2 [|a3 [|a4 [|a5 [|a6 a]]]]]]]; simpl;
      split; try (intros [? [=]]); try (intros [[=]|[=]]); eauto. }
  split; [apply H1|]. split.
  - intros b. unfold Utils.aabb2D.
    destruct aabb as [|a0 [|a1 [|a2 [|a3 [|a4 [|a5 [|a6 a]]]]]]]; simpl;
      intros [= <-]; done.
  - intros aabb2 p1 p2. split.
    + intros Hs. destruct (decide (ThingSpec.valid_arity aabb ∧ ThingSpec.valid_arity aabb2))
        as [|Hn]; [done|]. exfalso. unfold Utils.checkAabbIntersection in Hs.
      destruct (length aabb =? 6)%nat eqn:E1.
      * destruct (length aabb2 =? 6)%nat eqn:E2.
        -- apply Hn. apply Nat.eqb_eq in E1, E2. split; by right.
        -- simpl in Hs. destruct (Utils.aabb2D aabb) eqn:Ea; [|by destruct Hs].
           destruct (Utils.aabb2D aabb2) eqn:Eb; [|by destruct Hs].
           apply Hn. split; apply H1; eauto.
      * simpl in Hs. destruct (Utils.aabb2D aabb) eqn:Ea; [|by destruct Hs].
        destruct (Utils.aabb2D aabb2) eqn:Eb; [|by destruct Hs].
        apply Hn. split; apply H1; eauto.
    + intros [Ha Hb]. by apply checkAabbIntersection_is_Some.
Qed.

Section ClampFacts.

Lemma clamp_cases n a b :
  (a < b ∧ Utils.clamp n a b = Qmin (Qmax n a) b) ∨
  (b <= a ∧ Utils.clamp n a b = Qmin (Qmax n b) a).
Proof.
  unfold Utils.clamp. destruct (Qlt_bool a b) eqn:E.
  - left. by apply Qlt_bool_true in E.
  - right. by apply Qlt_bool_false in E.
Qed.

Lemma clamp_bounds n a b :
  Qmin a b <= Utils.clamp n a b ∧ Utils.clamp n a b <= Qmax a b ∧
  (Qmin a b <= n → n <= Qmax a b → Utils.clamp n a b == n) ∧
  (n <= Qmin a b → Utils.clamp n a b == Qmin a b) ∧
  (Qmax a b <= n → Utils.clamp n a b == Qmax a b).
Proof.
  destruct (clamp_cases n a b) as [[H ->]|[H ->]].
  - destruct (Q.min_spec a b) as [[? Em]|[? Em]], (Q.max_spec a b) as [[? EM]|[? EM]],
      (Q.max_spec n a) as [[? E1]|[? E1]];
      destruct (Q.min_spec (Qmax n a) b) as [[? E2]|[? E2]];
      repeat split; intros; lra.
  - destruct (Q.min_spec a b) as [[? Em]|[? Em]], (Q.max_spec a b) as [[? EM]|[? EM]],
      (Q.max_spec n b) as [[? E1]|[? E1]];
      destruct (Q.min_spec (Qmax n b) a) as [[? E2]|[? E2]];
      repeat split; intros; lra.
Qed.

End ClampFacts.

(** X9: clamp keeps its result between the two bounds whichever of them
    is the larger, returns a number that already lies between them
    unchanged, and maps a number beyond a bound to that bound. *)
Theorem clamp_within_bounds (n a b : Q) :
  Qmin a b <= Utils.clamp n a b ∧ Utils.clamp n a b <= Qmax a b ∧
  (Qmin a b <= n ∧ n <= Qmax a b → Utils.clamp n a b == n) ∧
  (n <= Qmin a b → Utils.clamp n a b == Qmin a b) ∧
  (Qmax a b <= n → Utils.clamp n a b == Qmax a b).
Proof.
  destruct (clamp_bounds n a b) as (H1 & H2 & H3 & H4 & H5).
  split; [done|]. split; [done|]. split; [|done]. intros [? ?]. by apply H3.
Qed.



Section ModFacts.

Lemma rem_spec a b :
  ¬ b == 0 →
  rem a b == a - b * inject_Z (trunc (a / b)) ∧
  (0 <= a / b → 0 <= rem a b / b ∧ rem a b / b < 1) ∧
  (a / b <= 0 → -1 < rem a b / b ∧ rem a b / b <= 0).
Proof.
  intros Hb. unfold rem. split; [reflexivity|].
  assert (E : (a - b * inject_Z (trunc (a / b))) / b == a / b - inject_Z (trunc (a / b)))
    by (field; done).
  destruct (trunc_bounds (a / b)) as [Hp Hn].
  split; intros H; rewrite E.
  - destruct (Hp H). lra.
  - destruct (Hn H). lra.
Qed.

Lemma mod_floor n m :
  ¬ m == 0 → Utils.mod_ n m == n - m * inject_Z (Qfloor (n / m)).
Proof.
  intros Hm. unfold Utils.mod_.
  destruct (rem_spec n m Hm) as (_ & Hp & Hn).
  set (r := rem n m) in *.
  assert (Er : r == n - m * inject_Z (trunc (n / m))) by reflexivity.
  assert (Ediv : (r + m) / m == r / m + 1) by (field; done).
  assert (Erm : r / m == n / m - inject_Z (trunc (n / m))).
  { rewrite Er. field. done. }
  assert (Hf : -1 < r / m ∧ r / m < 1).
  { destruct (Qlt_le_dec (n / m) 0) as [Hneg|Hpos].
    - destruct Hn; lra.
    - destruct Hp; lra. }
  unfold rem at 1.
  rewrite trunc_floor by (rewrite Ediv; lra).
  rewrite (Qfloor_unique ((r + m) / m) (Qfloor (n / m) - trunc (n / m) + 1)).
  - rewrite inject_Z_plus. unfold Z.sub. rewrite inject_Z_plus, inject_Z_opp.
    change (inject_Z 1) with 1. rewrite Er. ring.
  - rewrite Ediv, Erm, inject_Z_plus. unfold Z.sub. rewrite inject_Z_plus, inject_Z_opp.
    change (inject_Z 1) with 1. pose proof (Qfloor_le (n / m)). lra.
  - rewrite Ediv, Erm, inject_Z_plus. unfold Z.sub. rewrite inject_Z_plus, inject_Z_opp.
    change (inject_Z 1) with 1. pose proof (Qlt_floor (n / m)) as H.
    rewrite inject_Z_plus in H. change (inject_Z 1) with 1 in H. lra.
Qed.

End ModFacts.





(** ** Random numbers *)

Section RandomFacts.

Lemma randomGenerator_unit (seed : Z) :
  (0 ≤ seed)%Z →
  0 <= (Utils.randomGenerator seed).1 ∧ (Utils.randomGenerator seed).1 < 1 ∧
  (0 ≤ (Utils.randomGenerator seed).2 < 4294967296)%Z.
Proof.
  intros Hs. unfold Utils.randomGenerator. cbn [fst snd].
  set (s := Z.rem (1664525 * seed + 1013904223) 4294967296).
  assert (Hb : (0 ≤ s < 4294967296)%Z) by (apply Z.rem_bound_pos; lia).
  assert (H0 : 0 <= inject_Z s).
  { change 0 with (inject_Z 0). rewrite <- Zle_Qle. lia. }
  assert (H1 : inject_Z s < 4294967296).
  { change 4294967296 with (inject_Z 4294967296). rewrite <- Zlt_Qlt. lia. }
  split; [|split; [|done]].
  - apply Qle_shift_div_l; [reflexivity|]. lra.
  - apply Qlt_shift_div_r; [reflexivity|]. lra.
Qed.

Lemma swap_head {A} (l : list A) (j : nat) (y a : A) :
  l !! j = Some y → y :: <[j := a]> l ≡ₚ a :: l.
Proof.
  revert j. induction l as [|b l IH]; intros [|j] Hj; simpl in *; try done.
  - injection Hj as ->. apply perm_swap.
  - rewrite (perm_swap b y). rewrite (IH j Hj). apply perm_swap.
Qed.

Lemma swap_Permutation {A} (l : list A) (i j : nat) (x y : A) :
  l !! i = Some x → l !! j = Some y → <[i := y]> (<[j := x]> l) ≡ₚ l.
Proof.
  revert i j. induction l as [|a l IH]; intros [|i] [|j] Hi Hj; simpl in *; try done.
  - by injection Hi as ->; injection Hj as ->.
  - injection Hi as ->. by apply swap_head.
  - injection Hj as ->. by apply swap_head.
  - f_equiv. by apply IH.
Qed.

Context {G A : Type} (rand : G → Q * G) (good : G → Prop).
Hypothesis rand_good : ∀ g, good g → 0 <= (rand g).1 ∧ (rand g).1 < 1 ∧ good (rand g).2.

Lemma scaled_index (r : Q) (n : nat) :
  0 <= r → r < 1 →
  (0 ≤ Qfloor (r * inject_Z (Z.of_nat (S n))) ≤ Z.of_nat n)%Z.
Proof.
  intros H0 H1.
  assert (Hn : 0 < inject_Z (Z.of_nat (S n))).
  { change 0 with (inject_Z 0). rewrite <- Zlt_Qlt. lia. }
  set (m := inject_Z (Z.of_nat (S n))) in *.
  assert (0 <= r * m) by (apply Qmult_le_0_compat; lra).
  assert (r * m < 1 * m) by (apply Qmult_lt_compat_r; lra).
  pose proof (Qfloor_le (r * m)) as Hf1. pose proof (Qlt_floor (r * m)) as Hf2.
  split.
  - rewrite <- (Qfloor_Z 0). apply Qfloor_resp_le. done.
  - assert (inject_Z (Qfloor (r * m)) < m) as Hlt by lra.
    unfold m in *. rewrite <- Zlt_Qlt in Hlt. lia.
Qed.

Lemma shuffleFrom_S (n : nat) (array : list A) (g : G) :
  Utils.shuffleFrom rand (S n) array g =
  let r := rand g in
  let randomIndex := Qfloor (r.1 * inject_Z (Z.of_nat (S n))) in
  if (randomIndex <? 0)%Z then None
  else
    match array !! Z.to_nat randomIndex, array !! n with
    | Some x, Some y =>
        Utils.shuffleFrom rand n (<[Z.to_nat randomIndex := y]> (<[n := x]> array)) r.2
    | _, _ => None
    end.
Proof. reflexivity. Qed.

Lemma shuffleFrom_Permutation (n : nat) : ∀ (array : list A) (g : G),
  (n ≤ length array)%nat → good g →
  ∃ l g', Utils.shuffleFrom rand n array g = Some (l, g') ∧ l ≡ₚ array ∧ good g'.
Proof.
  induction n as [|n IH]; intros array g Hn Hg.
  - by exists array, g.
  - rewrite shuffleFrom_S. cbv zeta.
    destruct (rand_good g Hg) as (H0 & H1 & Hg').
    destruct (scaled_index (rand g).1 n H0 H1) as [Hi0 Hi1].
    set (ri := Qfloor ((rand g).1 * inject_Z (Z.of_nat (S n)))) in *.
    replace (ri <? 0)%Z with false by (symmetry; apply Z.ltb_ge; lia).
    destruct (lookup_lt_is_Some_2 array (Z.to_nat ri)) as [x Hx]; [lia|].
    destruct (lookup_lt_is_Some_2 array n) as [y Hy]; [lia|].
    rewrite Hx, Hy.
    destruct (IH (<[Z.to_nat ri := y]> (<[n := x]> array)) (rand g).2)
      as (l & g' & -> & Hp & Hgood); [by rewrite !length_insert; lia | done |].
    exists l, g'. split; [done|]. split; [|done].
    rewrite Hp. by apply swap_Permutation.
Qed.

End RandomFacts.



(** X14: for a random number that is not negative, choose returns an
    element of a non-empty array and never reads outside it, also when
    the random number is 1 or more; for a number in [0, 1) it is the
    element at index floor (rand * length). *)
Theorem choose_returns_an_element {G A : Type} (rand : G → Q * G)
    (elements : list A) (g : G) :
  elements ≠ [] → 0 <= (rand g).1 →
  (∃ x, (Utils.choose rand elements g).1 = Some x ∧ x ∈ elements) ∧
  ((rand g).1 < 1 →
   (Utils.choose rand elements g).1 =
   elements !! Z.to_nat (Qfloor ((rand g).1 * inject_Z (Z.of_nat (length elements))))).
Proof.
  intros Hne H0. unfold Utils.choose. cbn [fst snd].
  assert (Hlen : (0 < length elements)%nat) by (destruct elements; [done | simpl; lia]).
  set (n := length elements) in *.
  assert (Hn : 0 <= inject_Z (Z.of_nat n)).
  { change 0 with (inject_Z 0). rewrite <- Zle_Qle. lia. }
  assert (Hf : (0 ≤ Qfloor ((rand g).1 * inject_Z (Z.of_nat n)))%Z).
  { rewrite <- (Qfloor_Z 0). apply Qfloor_resp_le. by apply Qmult_le_0_compat. }
  set (f := Qfloor ((rand g).1 * inject_Z (Z.of_nat n))) in *.
  replace (Z.min f (Z.of_nat n - 1) <? 0)%Z with false by (symmetry; apply Z.ltb_ge; lia).
  split.
  - destruct (lookup_lt_is_Some_2 elements (Z.to_nat (Z.min f (Z.of_nat n - 1))))
      as [x Hx]; [fold n; lia|].
    exists x. split; [done|]. by eapply list_elem_of_lookup_2.
  - intros H1. destruct n as [|n]; [lia|].
    destruct (scaled_index (rand g).1 n H0 H1) as [_ Hle]. fold f in Hle.
    f_equal. lia.
Qed.

Lemma choose_returns_an_element_witness :
  (∃ x, (Utils.choose (λ s, Utils.randomizer s 0 1) [10%nat; 20%nat; 30%nat] 0%Z).1 = Some x ∧
        x ∈ [10%nat; 20%nat; 30%nat]) ∧
  ((Utils.randomizer 0 0 1).1 < 1 →
   (Utils.choose (λ s, Utils.randomizer s 0 1) [10%nat; 20%nat; 30%nat] 0%Z).1 =
   [10%nat; 20%nat; 30%nat] !!
     Z.to_nat (Qfloor ((Utils.randomizer 0 0 1).1 * inject_Z (Z.of_nat 3)))).
Proof.
  apply (choose_returns_an_element (λ s, Utils.randomizer s 0 1) [10%nat; 20%nat; 30%nat] 0%Z).
  - discriminate.
  - discriminate.
Defined.

(** X15: when every call of the random source gives a number in [0, 1),
    shuffle returns a permutation of the array it was given and never
    reads or writes outside it. *)
Theorem shuffle_is_a_permutation {G A : Type} (rand : G → Q * G) (good : G → Prop)
    (array : list A) (g : G) :
  (∀ g, good g → 0 <= (rand g).1 ∧ (rand g).1 < 1 ∧ good (rand g).2) →
  good g →
  ∃ l g', Utils.shuffle rand array g = Some (l, g') ∧ l ≡ₚ array ∧ good g'.
Proof.
  intros Hrand Hg. unfold Utils.shuffle.
  by apply (shuffleFrom_Permutation rand good Hrand).
Qed.

Lemma shuffle_is_a_permutation_witness :
  ∃ l g', Utils.shuffle (λ s, Utils.randomizer s 0 1) [1%nat; 2%nat; 3%nat; 4%nat] 0%Z
          = Some (l, g') ∧
    l ≡ₚ [1%nat; 2%nat; 3%nat; 4%nat] ∧ (0 ≤ g' < 4294967296)%Z.
Proof.
  apply (shuffle_is_a_permutation (λ s, Utils.randomizer s 0 1)
           (λ s, (0 ≤ s < 4294967296)%Z)).
  - intros s [Hs _]. destruct (randomGenerator_unit s Hs) as (H0 & H1 & Hb).
    unfold Utils.randomizer. cbn [fst snd]. split; [lra|]. split; [lra|]. exact Hb.
  - lia.
Defined.

(** ** The life cycle of a timer *)

Section TimerLifecycle.
Import Thing TimerSpec.
Implicit Types (reg snap todo : list (string * nat)) (name n : string) (a : nat).

Lemma binding_None name reg : binding name reg = None ↔ name ∉ reg.*1.
Proof.
  induction reg as [|[n b] reg IH]; simpl.
  - split; [intros _; apply not_elem_of_nil | done].
  - case_bool_decide as Hn.
    + split; [done|]. intros H. exfalso. apply H. subst. left.
    + rewrite IH, not_elem_of_cons. naive_solver.
Qed.

Lemma binding_bind_ne name n a reg :
  n ≠ name → binding name (bind n a reg) = binding name reg.
Proof.
  intros Hne. induction reg as [|[n' b] reg IH]; simpl.
  - by rewrite bool_decide_false.
  - case_bool_decide as H1; simpl.
    + subst n'. by rewrite !bool_decide_false.
    + case_bool_decide; [done|]. apply IH.
Qed.

Lemma binding_unbind name reg : binding name (unbind name reg) = None.
Proof.
  apply binding_None. unfold unbind. intros (e & He & Hin)%list_elem_of_fmap.
  apply list_elem_of_filter in Hin as [Hne _]. by apply Hne.
Qed.

Lemma timer_active me name :
  wf_timers me → (is_Some (timer me name) ↔ isTimerActive me name = true).
Proof.
  intros (_ & _ & Hb). unfold timer, isTimerActive. rewrite bool_decide_eq_true.
  destruct (binding name (timers me)) as [a|] eqn:E; simpl.
  - split; [by eexists|]. intros _. apply (Hb (name, a)). by apply binding_elem.
  - split; intros [? ?]; done.
Qed.

Lemma wf_cancelTimer me name : wf_timers me → wf_timers (cancelTimer me name).1.
Proof.
  intros Hwf. unfold cancelTimer. destruct (timer me name); [|done].
  destruct Hwf as (Hn & Ha & Hb). simpl. split; [|split]; simpl.
  - eapply sublist_NoDup; [exact Hn|]. apply fmap_sublist, sublist_filter.
  - eapply sublist_NoDup; [exact Ha|]. apply fmap_sublist, sublist_filter.
  - intros e He. apply Hb. by apply list_elem_of_filter in He as [_ ?].
Qed.

Section Expiry.
Variable call : nat → gmap ref t → gmap ref t.
Variable this : ref.
Hypothesis call_keeps_timers :
  ∀ f heap, timer_state (call f heap) this = timer_state heap this.

Variables (snap : list (string * nat)) (name : string).
Hypothesis snap_names : NoDup snap.*1.
Hypothesis snap_addresses : NoDup snap.*2.

Local Abbreviation gone := (gone_inv this snap name).

Lemma gone_call f heap : gone heap → gone (call f heap).
Proof.
  unfold gone_inv. intros (me & Hme & Hrest). specialize (call_keeps_timers f heap).
  unfold timer_state in call_keeps_timers. rewrite Hme in call_keeps_timers.
  destruct (call f heap !! this) as [me'|] eqn:E; [|done].
  simpl in call_keeps_timers. injection call_keeps_timers as Ho Hr.
  exists me'. rewrite Ho, Hr. done.
Qed.

Lemma tick_gone heap e :
  e ∈ snap → gone heap →
  ∃ heap', tick call this (Some heap) e = Some heap' ∧ gone heap'.
Proof.
  intros He (me & Hme & Hsub & Hbound & Hbind).
  destruct (Hbound e He) as [value Hvalue].
  unfold tick. simpl. rewrite Hme. simpl. rewrite Hvalue. simpl.
  assert (Hkeep : ∀ reg, sublist reg snap → binding name reg = None →
            gone (<[this := with_timers
              (<[e.2 := mkTimer (time value - 1) (start value) (action value)]>
                 (timerObjects me)) reg me]> heap)).
  { intros reg Hreg Hb. eexists. split; [apply lookup_insert_eq|]. simpl.
    split; [done|]. split; [|done].
    intros e' He'. destruct (decide (e.2 = e'.2)) as [<-|?].
    - rewrite lookup_insert_eq. by eexists.
    - rewrite lookup_insert_ne by done. by apply Hbound. }
  destruct (Qle_bool (time value - 1) 0).
  - assert (Hinv : gone (<[this := with_timers
              (<[e.2 := mkTimer (time value - 1) (start value) (action value)]>
                 (timerObjects me)) (unbind e.1 (timers me)) me]> heap)).
    { apply Hkeep; [etrans; [apply sublist_filter | done]|].
      apply binding_None. apply binding_None in Hbind.
      intros (x & Hx & Hin)%list_elem_of_fmap. apply Hbind.
      apply list_elem_of_filter in Hin as [_ Hin]. rewrite Hx.
      by apply list_elem_of_fmap_2. }
    destruct (action value) as [f|]; eexists; (split; [done|]); [by apply gone_call | done].
  - eexists. split; [done|]. by apply Hkeep.
Qed.

Lemma gone_fold todo : ∀ heap,
  (∀ e, e ∈ todo → e ∈ snap) → gone heap →
  ∃ heap', foldl (tick call this) (Some heap) todo = Some heap' ∧ gone heap'.
Proof.
  induction todo as [|e todo IH]; intros heap Hin Hinv.
  - by exists heap.
  - destruct (tick_gone heap e) as (heap1 & Hstep & Hinv1); [apply Hin; left | done |].
    destruct (IH heap1) as (heap' & Hfold & Hinv'); [intros ? ?; apply Hin; by right | done |].
    exists heap'. cbn [foldl]. by rewrite Hstep.
Qed.

Variables (a : nat) (d : Q) (act : option nat).
Hypothesis snap_ours : (name, a) ∈ snap.

(** The iteration on a timer that has one frame or less left: the timer
    leaves the dictionary, and only then is its action called. *)
Lemma tick_expires time_ heap :
  time_ <= 1 → pass_inv this snap name a d act time_ heap →
  ∃ heap1 me1,
    tick call this (Some heap) (name, a) =
      Some (match act with Some f => call f heap1 | None => heap1 end) ∧
    heap1 !! this = Some me1 ∧ isTimerActive me1 name = false ∧ gone heap1 ∧
    ∀ y, y ≠ this → heap1 !! y = heap !! y.
Proof.
  intros Hle (me & Hme & Hsub & Hbound & Hbind & o & Ho & Hstart & Hact & Htime).
  unfold tick. simpl. rewrite Hme. simpl. rewrite Ho. simpl.
  assert (E : Qle_bool (time o - 1) 0 = true) by (apply Qle_bool_iff; lra).
  rewrite E, Hact.
  eexists _, _. split; [by destruct act|]. split; [apply lookup_insert_eq|]. simpl.
  split; [|split].
  - unfold isTimerActive. simpl. rewrite binding_unbind.
    apply bool_decide_eq_false. by intros [? ?].
  - eexists. split; [apply lookup_insert_eq|]. simpl.
    split; [etrans; [apply sublist_filter | done]|]. split; [|apply binding_unbind].
    intros e' He'. destruct (decide (a = e'.2)) as [<-|?].
    + rewrite lookup_insert_eq. by eexists.
    + rewrite lookup_insert_ne by done. by apply Hbound.
  - intros y Hy. by rewrite lookup_insert_ne.
Qed.

Lemma expiring_fold time_ heap :
  time_ <= 1 → pass_inv this snap name a d act time_ heap →
  ∃ heap', foldl (tick call this) (Some heap) snap = Some heap' ∧ gone heap'.
Proof.
  intros Hle Hinv.
  destruct (list_elem_of_split _ _ snap_ours) as (before & after & Hsplit).
  assert (Hnd : NoDup snap) by (by eapply NoDup_fmap_1).
  rewrite Hsplit in Hnd. apply NoDup_app in Hnd as (Hnd1 & Hdisj & Hnd2).
  assert (Hb : ∀ e, e ∈ before → e ∈ snap).
  { intros e He. rewrite Hsplit. apply elem_of_app. by left. }
  assert (Ha : ∀ e, e ∈ after → e ∈ snap).
  { intros e He. rewrite Hsplit. apply elem_of_app. right. by right. }
  destruct (pass_fold call this call_keeps_timers snap name a d act
              snap_names snap_addresses snap_ours before time_ heap)
    as (heap1 & Hf1 & Hinv1);
    [done | | | done |].
  { rewrite Hsplit, fmap_app in snap_addresses.
    by apply NoDup_app in snap_addresses as (? & _ & _). }
  { intros Hc. exfalso. apply (Hdisj _ Hc). left. }
  rewrite decide_False in Hinv1 by (intros Hc; apply (Hdisj _ Hc); left).
  destruct (tick_expires time_ heap1 Hle Hinv1) as (heap2 & me2 & Ht & _ & _ & Hg & _).
  assert (Hg' : gone (match act with Some f => call f heap2 | None => heap2 end)).
  { destruct act; [by apply gone_call | done]. }
  destruct (gone_fold after _ Ha Hg') as (heap' & Hf2 & Hgone).
  exists heap'. split; [|done].
  rewrite Hsplit, foldl_app. rewrite Hf1. cbn [foldl]. rewrite Ht. exact Hf2.
Qed.

End Expiry.

Lemma gone_wf this snap name heap :
  NoDup snap.*1 → NoDup snap.*2 → gone_inv this snap name heap →
  ∃ me, heap !! this = Some me ∧ wf_timers me ∧ isTimerActive me name = false.
Proof.
  intros Hn Ha (me & Hme & Hsub & Hb & Hbind). exists me. split; [done|]. split.
  - split; [|split].
    + eapply sublist_NoDup; [exact Hn|]. by apply fmap_sublist.
    + eapply sublist_NoDup; [exact Ha|]. by apply fmap_sublist.
    + intros e He. apply Hb. by eapply elem_of_sublist.
  - unfold isTimerActive. rewrite Hbind. apply bool_decide_eq_false. by intros [? ?].
Qed.

(** A pass in which the timer has one frame or less left. *)
Lemma updateTimers_expires call this heap me name a o :
  (∀ f heap, timer_state (call f heap) this = timer_state heap this) →
  heap !! this = Some me → wf_timers me →
  binding name (timers me) = Some a → timerObjects me !! a = Some o →
  time o <= 1 →
  ∃ heap' me',
    updateTimers call this heap = Some heap' ∧ heap' !! this = Some me' ∧
    wf_timers me' ∧ isTimerActive me' name = false.
Proof.
  intros Hcall Hme (Hn & Ha & Hb) Hbind Ho Htime.
  assert (Hours : (name, a) ∈ timers me) by (by apply binding_elem).
  destruct (expiring_fold call this Hcall (timers me) name Hn Ha a (start o) (action o)
              Hours (time o) heap Htime) as (heap' & Hfold & Hg).
  { exists me. split; [done|]. split; [done|]. split; [done|]. split; [done|].
    by exists o. }
  destruct (gone_wf this (timers me) name heap' Hn Ha Hg) as (me' & Hme' & Hwf & Hact).
  exists heap', me'. unfold updateTimers. rewrite Hme. simpl. done.
Qed.

(** A pass on a Thing that has no timer of this name. *)
Lemma updateTimers_inactive call this heap me name :
  (∀ f heap, timer_state (call f heap) this = timer_state heap this) →
  heap !! this = Some me → wf_timers me → isTimerActive me name = false →
  ∃ heap' me',
    updateTimers call this heap = Some heap' ∧ heap' !! this = Some me' ∧
    wf_timers me' ∧ isTimerActive me' name = false.
Proof.
  intros Hcall Hme (Hn & Ha & Hb) Hact.
  destruct (gone_fold call this Hcall (timers me) name (timers me) heap) as (heap' & Hfold & Hg);
    [done | |].
  { exists me. split; [done|]. split; [done|]. split; [done|].
    unfold isTimerActive in Hact. apply bool_decide_eq_false in Hact.
    destruct (binding name (timers me)); [|done]. exfalso. apply Hact. by eexists. }
  destruct (gone_wf this (timers me) name heap' Hn Ha Hg) as (me' & Hme' & Hwf & Hact').
  exists heap', me'. unfold updateTimers. rewrite Hme. simpl. done.
Qed.

Lemma ticks_inactive call this name k : ∀ heap me,
  (∀ f heap, timer_state (call f heap) this = timer_state heap this) →
  heap !! this = Some me → wf_timers me → isTimerActive me name = false →
  ∃ heap' me',
    ticks call this k heap = Some heap' ∧ heap' !! this = Some me' ∧
    wf_timers me' ∧ isTimerActive me' name = false.
Proof.
  induction k as [|k IH]; intros heap me Hcall Hme Hwf Hact.
  - by exists heap, me.
  - destruct (updateTimers_inactive call this heap me name)
      as (heap1 & me1 & Hpass & Hme1 & Hwf1 & Hact1); try done.
    destruct (IH heap1 me1) as (heap' & me' & Hticks & Hrest); try done.
    exists heap', me'. simpl. rewrite Hpass. simpl. done.
Qed.

(** The passes before the last one, with the well-formedness kept. *)
Lemma ticks_alive call this name a k : ∀ heap me o,
  (∀ f heap, timer_state (call f heap) this = timer_state heap this) →
  heap !! this = Some me → wf_timers me →
  binding name (timers me) = Some a → timerObjects me !! a = Some o →
  inject_Z (Z.of_nat k) < time o →
  ∃ heap' me' o',
    ticks call this k heap = Some heap' ∧ heap' !! this = Some me' ∧ wf_timers me' ∧
    binding name (timers me') = Some a ∧
    timerObjects me' !! a = Some o' ∧
    time o' == time o - inject_Z (Z.of_nat k).
Proof.
  induction k as [|k IH]; intros heap me o Hcall Hme Hwf Hbind Ho Hlt.
  - exists heap, me, o. repeat split; try done; try apply Hwf.
    change (inject_Z (Z.of_nat 0)) with 0. lra.
  - rewrite Nat2Z.inj_succ, <- Z.add_1_r, inject_Z_plus in Hlt.
    change (inject_Z 1) with 1 in Hlt.
    assert (Hk : 0 <= inject_Z (Z.of_nat k)).
    { change 0 with (inject_Z 0). rewrite <- Zle_Qle. lia. }
    destruct (updateTimers_pass call this heap me name a o (time o))
      as (heap1 & me1 & o1 & Hpass & Hme1 & Hwf1 & Hbind1 & Ho1 & Hs1 & Ht1);
      try done; [lra|].
    destruct (IH heap1 me1 o1) as (heap' & me' & o' & Hticks & Hme' & Hwf' & Hb' & Ho' & Ht');
      try done; [lra|].
    exists heap', me', o'. simpl. rewrite Hpass. simpl.
    split; [done|]. split; [done|]. split; [done|]. split; [done|]. split; [done|].
    rewrite Nat2Z.inj_succ, <- Z.add_1_r, inject_Z_plus.
    change (inject_Z 1) with 1. lra.
Qed.

Lemma ticks_add call this j k heap :
  ticks call this (j + k) heap = ticks call this j heap ≫= ticks call this k.
Proof.
  revert heap. induction j as [|j IH]; intros heap; simpl; [done|].
  destruct (updateTimers call this heap) as [heap1|]; simpl; [apply IH | done].
Qed.

End TimerLifecycle.









(** ** Overlap queries *)

Section OverlapFacts.
Import Thing ThingSpec MoveSpec.

Lemma isOverlapping_true heap this thing x y z :
  isOverlapping heap this thing x y z = Some true ↔ overlaps heap this thing x y z.
Proof.
  unfold isOverlapping, overlaps. split.
  - destruct (heap !! this) as [me|]; [|done]. simpl.
    destruct (heap !! thing) as [other|]; [|done]. simpl.
    case_bool_decide as Hne; [done|].
    destruct (isOverlapEnabled other) eqn:Hen; [|done]. simpl.
    destruct (isDead other) eqn:Hd; [done|]. intros Hc.
    split; [done|]. by exists me, other.
  - intros (Hne & me & other & -> & -> & Hen & Hd & Hc). simpl.
    rewrite bool_decide_false by done. by rewrite Hen, Hd.
Qed.

Lemma filter_opt_sublist {A} (f : A → option bool) (l r : list A) :
  filter_opt f l = Some r → sublist r l.
Proof.
  revert r. induction l as [|a l IH]; intros r; simpl.
  - by intros [= <-].
  - destruct (f a) as [b|]; [|done]. simpl.
    destruct (filter_opt f l) as [r'|]; [|done]. simpl. intros [= <-].
    destruct b; [apply sublist_skip | apply sublist_cons]; by apply IH.
Qed.

Lemma filter_opt_elem {A} (f : A → option bool) (l r : list A) :
  filter_opt f l = Some r → ∀ x, x ∈ r ↔ x ∈ l ∧ f x = Some true.
Proof.
  revert r. induction l as [|a l IH]; intros r; simpl.
  - intros [= <-] x. split; [by intros ?%elem_of_nil | by intros [?%elem_of_nil _]].
  - destruct (f a) as [b|] eqn:Hb; [|done]. simpl.
    destruct (filter_opt f l) as [r'|]; [|done]. simpl. intros [= <-] x.
    specialize (IH r' eq_refl x). destruct b.
    + rewrite !elem_of_cons, IH. split; [intros [->|[? ?]]; auto | intros [[->|?] ?]; auto].
    + rewrite elem_of_cons, IH.
      split; [intros [? ?]; auto | intros [[->|?] ?]; [congruence | auto]].
Qed.

Lemma find_opt_head {A} (f : A → option bool) (l r : list A) :
  filter_opt f l = Some r → find_opt f l = Some (head r).
Proof.
  revert r. induction l as [|a l IH]; intros r; simpl.
  - by intros [= <-].
  - destruct (f a) as [b|]; [|done]. simpl.
    destruct (filter_opt f l) as [r'|]; [|done]. simpl. intros [= <-].
    destruct b; [done|]. by apply IH.
Qed.

Lemma getAllOverlaps_is_Some heap sh this me x y z :
  sound heap sh → heap !! this = Some me → valid_arity (aabb me) →
  is_Some (getAllOverlaps heap sh this x y z).
Proof.
  intros Hs Hme Hv. unfold getAllOverlaps. rewrite Hme. simpl.
  destruct (filter_opt_spec (λ th, isOverlapping heap this th x y z) (near sh me x y))
    as (r & -> & _); [|by eexists].
  intros th Hth. by eapply isOverlapping_is_Some.
Qed.

Lemma checkCollision_is_Some heap sh this me x y z :
  sound heap sh → heap !! this = Some me → valid_arity (aabb me) →
  is_Some (checkCollision heap sh this x y z).
Proof.
  intros Hs Hme Hv. unfold checkCollision.
  destruct (getAllOverlaps_is_Some heap sh this me x y z Hs Hme Hv) as [l ->].
  by eexists.
Qed.

Lemma checkCollision_true heap sh this x y z :
  checkCollision heap sh this x y z = Some true →
  ∃ thing other, heap !! thing = Some other ∧ isSolid other = true ∧
    overlaps heap this thing x y z ∧
    ∃ me, heap !! this = Some me ∧ thing ∈ near sh me x y.
Proof.
  unfold checkCollision. destruct (getAllOverlaps heap sh this x y z) as [l|] eqn:E; [|done].
  simpl. intros [= Hex]. apply existsb_exists in Hex as (thing & Hin & Hsolid).
  apply list_elem_of_In in Hin. unfold getAllOverlaps in E.
  destruct (heap !! this) as [me|] eqn:Hme; [|done]. simpl in E.
  apply (filter_opt_elem _ _ _ E) in Hin as [Hnear Hov].
  destruct (heap !! thing) as [other|] eqn:Ho; [|done]. simpl in Hsolid.
  exists thing, other. split; [done|]. split; [done|].
  split; [by apply isOverlapping_true|]. by exists me.
Qed.

Lemma no_solid_free heap sh this x y z :
  no_solid heap → checkCollision heap sh this x y z ≠ Some true.
Proof.
  intros Hn Hc. apply checkCollision_true in Hc as (thing & other & Ho & Hs & _).
  rewrite (Hn _ _ Ho) in Hs. done.
Qed.

End OverlapFacts.

(** X20: on a store and a hash of positive cell size that fit together,
    getAllOverlaps returns
    the candidates of the spatial hash, in their order, that are another
    Thing, have overlap enabled, are not dead and whose box intersects
    the box of the caller placed at the given point; it never returns the
    caller itself, a dead Thing or one with overlap disabled.
    getFirstOverlap returns the first of them, or undefined when there is
    none, and checkCollision tells whether one of them is solid. *)
Theorem getAllOverlaps_spec (heap : gmap ref Thing.t) (sh : SpatialHash.t)
    (this : ref) (me : Thing.t) (x y : Q) (z : option Q) :
  0 < SpatialHash.size sh →
  ThingSpec.sound heap sh → heap !! this = Some me →
  ThingSpec.valid_arity (Thing.aabb me) →
  ∃ l, Thing.getAllOverlaps heap sh this x y z = Some l ∧
    sublist l (Thing.near sh me x y) ∧
    (∀ thing, thing ∈ l ↔
       thing ∈ Thing.near sh me x y ∧ MoveSpec.overlaps heap this thing x y z) ∧
    Thing.getFirstOverlap heap sh this x y z = Some (head l) ∧
    ∃ hit, Thing.checkCollision heap sh this x y z = Some hit ∧
      (hit = true ↔
       ∃ thing other, thing ∈ l ∧ heap !! thing = Some other ∧
         Thing.isSolid other = true).
Proof.
  intros _ Hs Hme Hv.
  destruct (getAllOverlaps_is_Some heap sh this me x y z Hs Hme Hv) as [l Hl].
  exists l. split; [done|].
  pose proof Hl as Hl'. unfold Thing.getAllOverlaps in Hl'. rewrite Hme in Hl'. simpl in Hl'.
  split; [by eapply filter_opt_sublist|]. split; [|split].
  - intros thing. rewrite (filter_opt_elem _ _ _ Hl' thing), isOverlapping_true. done.
  - unfold Thing.getFirstOverlap. rewrite Hme. simpl. by apply find_opt_head.
  - unfold Thing.checkCollision. rewrite Hl. simpl. eexists. split; [done|].
    rewrite existsb_exists. split.
    + intros (thing & Hin & Hsol). apply list_elem_of_In in Hin.
      destruct (heap !! thing) as [other|] eqn:Ho; [|done]. by exists thing, other.
    + intros (thing & other & Hin & Ho & Hsol). exists thing.
      split; [by apply list_elem_of_In|]. by rewrite Ho.
Qed.

Lemma getAllOverlaps_spec_witness :
  let a := Thing.mk 0 [0; 0] [0; 0] [-8; -8; 8; 8] ThingSpec.noContact
             true false ∅ [] false false false in
  let b := Thing.mk 0 [16; 16] [0; 0] [-8; -8; 8; 8] ThingSpec.noContact
             true true ∅ [] false false false in
  let sh := SpatialHash.add (SpatialHash.create 64) 2%nat 8 8 16 16 in
  ∃ l, Thing.getAllOverlaps {[ 1%nat := a; 2%nat := b ]} sh 1%nat 0 0 None = Some l ∧
    sublist l (Thing.near sh a 0 0) ∧
    Thing.getFirstOverlap {[ 1%nat := a; 2%nat := b ]} sh 1%nat 0 0 None = Some (head l).
Proof.
  intros a b sh.
  destruct (getAllOverlaps_spec {[ 1%nat := a; 2%nat := b ]} sh 1%nat a 0 0 None)
    as (l & Hl & Hsub & _ & Hfirst & _).
  - reflexivity.
  - apply (sound_add _ _ _ _ _ _ _ b); [apply sound_create | reflexivity | by left].
  - reflexivity.
  - by left.
  - exists l. exact (conj Hl (conj Hsub Hfirst)).
Defined.

Section InAabbFacts.
Import Thing ThingSpec MoveSpec.

Lemma cells_comp s x y w h x' y' w' h' :
  x == x' → y == y' → w == w' → h == h' →
  SpatialHash.cells s x y w h = SpatialHash.cells s x' y' w' h'.
Proof.
  intros Ex Ey Ew Eh. unfold SpatialHash.cells, SpatialHash.cellCoord. cbn [fst snd].
  rewrite (Qfloor_comp (x / SpatialHash.size s) (x' / SpatialHash.size s)) by (by rewrite Ex).
  rewrite (Qfloor_comp (y / SpatialHash.size s) (y' / SpatialHash.size s)) by (by rewrite Ey).
  rewrite (Qfloor_comp ((x + w) / SpatialHash.size s) ((x' + w') / SpatialHash.size s))
    by (by rewrite Ex, Ew).
  rewrite (Qfloor_comp ((y + h) / SpatialHash.size s) ((y' + h') / SpatialHash.size s))
    by (by rewrite Ey, Eh).
  done.
Qed.

Lemma query_comp s x y w h x' y' w' h' :
  x == x' → y == y' → w == w' → h == h' →
  SpatialHash.query s x y w h = SpatialHash.query s x' y' w' h'.
Proof.
  intros Ex Ey Ew Eh. unfold SpatialHash.query. by rewrite (cells_comp s x y w h x' y' w' h').
Qed.

(** Two filters over the same list, one of which first applies a guard. *)
Lemma filter_opt_refine {A} (f g : A → option bool) (keep : A → bool) (l r r' : list A) :
  (∀ x, x ∈ l → f x = if keep x then g x else Some false) →
  filter_opt f l = Some r → filter_opt g l = Some r' →
  r = filter (λ x, keep x = true) r'.
Proof.
  revert r r'. induction l as [|a l IH]; intros r r' Hf; simpl.
  - by intros [= <-] [= <-].
  - rewrite (Hf a) by left.
    assert (Hf' : ∀ x, x ∈ l → f x = if keep x then g x else Some false)
      by (intros x Hx; apply Hf; by right).
    destruct (g a) as [gb|]; [|by destruct (keep a)].
    destruct (filter_opt f l) as [r1|]; [|by destruct (keep a)].
    destruct (filter_opt g l) as [r2|]; [|by simpl; destruct gb].
    specialize (IH r1 r2 Hf' eq_refl eq_refl). simpl.
    destruct (keep a) eqn:Ek; simpl; intros [= <-] [= <-]; destruct gb;
      rewrite ?filter_cons; repeat case_decide; subst; congruence.
Qed.

End InAabbFacts.

(** X21: for a mover with a four-entry box, getAllOverlaps is
    getThingsInAabb of the mover's box at the same point with the mover
    itself, the dead Things and the Things with overlap disabled filtered
    out, in the same order; neither call throws on a store and a hash of
    positive cell size that fit together. *)
Theorem getAllOverlaps_refines_getThingsInAabb (scene : Scene.t)
    (heap : gmap ref Thing.t) (this : ref) (me : Thing.t) (x y : Q) (z : option Q) :
  0 < SpatialHash.size (Scene.spatialHash scene) →
  ThingSpec.sound heap (Scene.spatialHash scene) → heap !! this = Some me →
  length (Thing.aabb me) = 4%nat →
  ∃ inBox overlapping,
    Game.getThingsInAabb scene heap (Thing.aabb me) (Thing.point x y z) = Some inBox ∧
    Thing.getAllOverlaps heap (Scene.spatialHash scene) this x y z = Some overlapping ∧
    overlapping =
      filter (λ thing,
                (bool_decide (thing ≠ this) &&
                 from_option (λ other, Thing.isOverlapEnabled other &&
                                       negb (Thing.isDead other)) false (heap !! thing))
                = true) inBox.
Proof.
  intros _ Hs Hme Hlen.
  destruct (Thing.aabb me) as [|a0 [|a1 [|a2 [|a3 [|? ?]]]]] eqn:Ha; try done.
  assert (Hv : ThingSpec.valid_arity (Thing.aabb me)) by (rewrite Ha; by left).
  set (cands := SpatialHash.query (Scene.spatialHash scene) (x + a0) (y + a1) (a2 - a0) (a3 - a1)).
  assert (Hnear : Thing.near (Scene.spatialHash scene) me x y = cands).
  { unfold Thing.near. by rewrite Ha. }
  assert (Hcands : Game.getThingsNearXywh scene (a0 + x) (a1 + y) (a2 - a0) (a3 - a1) = cands).
  { unfold Game.getThingsNearXywh, cands. apply query_comp; ring. }
  set (g := λ thing : ref,
         other ← heap !! thing;
         Utils.checkAabbIntersection [a0; a1; a2; a3] (Thing.aabb other)
           (Thing.point x y z) (Thing.position other)).
  assert (Hg : ∀ thing, thing ∈ cands → is_Some (g thing)).
  { intros thing Hin. rewrite <- Hnear in Hin.
    destruct (near_sound _ _ _ _ _ _ Hs Hin) as (other & Ho & Hvo).
    unfold g. rewrite Ho. simpl. apply checkAabbIntersection_is_Some; [by left | done]. }
  destruct (filter_opt_spec g cands Hg) as (inBox & HinBox & _).
  destruct (getAllOverlaps_is_Some heap (Scene.spatialHash scene) this me x y z Hs Hme Hv)
    as [overlapping Hov].
  exists inBox, overlapping. split; [|split; [done|]].
  - unfold Game.getThingsInAabb. simpl. rewrite Hcands. exact HinBox.
  - unfold Thing.getAllOverlaps in Hov. rewrite Hme in Hov.
    change (Thing.filter_opt (λ thing, Thing.isOverlapping heap this thing x y z)
              (Thing.near (Scene.spatialHash scene) me x y) = Some overlapping) in Hov.
    rewrite Hnear in Hov.
    apply (filter_opt_refine _ g _ cands _ _) with (2 := Hov) (3 := HinBox).
    intros thing Hin. unfold Thing.isOverlapping, g. rewrite Hme. simpl.
    destruct (heap !! thing) as [other|] eqn:Eo; simpl.
    + case_bool_decide as H1; case_bool_decide as H2; try done; simpl.
      rewrite Ha. by destruct (Thing.isOverlapEnabled other), (Thing.isDead other).
    + exfalso. specialize (Hg thing Hin). unfold g in Hg. rewrite Eo in Hg.
      by destruct Hg.
Qed.

Lemma getAllOverlaps_refines_getThingsInAabb_witness :
  let a := Thing.mk 0 [0; 0] [0; 0] [-8; -8; 8; 8] ThingSpec.noContact
             true false ∅ [] false false false in
  let b := Thing.mk 0 [16; 16] [0; 0] [-8; -8; 8; 8] ThingSpec.noContact
             true true ∅ [] false false false in
  let heap : gmap ref Thing.t := {[ 1%nat := a; 2%nat := b ]} in
  let scene := Scene.mk [] ∅ [] ∅ (SpatialHash.add (SpatialHash.create 64) 2%nat 8 8 16 16) ∅ in
  ∃ inBox overlapping,
    Game.getThingsInAabb scene heap (Thing.aabb a) (Thing.point 0 0 None) = Some inBox ∧
    Thing.getAllOverlaps heap (Scene.spatialHash scene) 1%nat 0 0 None = Some overlapping ∧
    overlapping =
      filter (λ thing,
                (bool_decide (thing ≠ 1%nat) &&
                 from_option (λ other, Thing.isOverlapEnabled other &&
                                       negb (Thing.isDead other)) false (heap !! thing))
                = true) inBox.
Proof.
  intros a b heap scene.
  apply (getAllOverlaps_refines_getThingsInAabb scene heap 1%nat a 0 0 None).
  - reflexivity.
  - apply (sound_add _ _ _ _ _ _ _ b); [apply sound_create | reflexivity | by left].
  - reflexivity.
  - reflexivity.
Defined.

(** A six-entry box is outside that agreement: [getAllOverlaps] asks the
    hash for a rectangle built from the entries 0 to 3 of the box, which
    for six entries are not its extent in x and y, and so it can miss a
    Thing that overlaps and that [getThingsInAabb] finds (once per cell
    shared with the query). *)
Example overlaps_of_a_six_entry_box :
  let a := Thing.mk 0 [70; 0; 0] [0; 0] [-8; -8; -8; 8; 8; 8] ThingSpec.noContact
             true false ∅ [] false false false in
  let b := Thing.mk 0 [80; 0; 0] [0; 0] [-8; -8; -8; 8; 8; 8] ThingSpec.noContact
             true true ∅ [] false false false in
  let heap : gmap ref Thing.t := {[ 1%nat := a; 2%nat := b ]} in
  let scene := Scene.mk [] ∅ [] ∅ (SpatialHash.add (SpatialHash.create 64) 2%nat 72 (-8) 16 16) ∅ in
  Thing.isOverlapping heap 1%nat 2%nat 70 0 (Some 0) = Some true ∧
  Game.getThingsInAabb scene heap (Thing.aabb a) [70; 0; 0] = Some [2%nat; 2%nat] ∧
  Thing.getAllOverlaps heap (Scene.spatialHash scene) 1%nat 70 0 (Some 0) = Some [].
Proof. vm_compute. done. Qed.

(** ** The two loops of [move] *)

Section SweepFacts.
Import Thing ThingSpec MoveSpec.

Lemma same_body_refl me : same_body me me.
Proof. by repeat split. Qed.

Lemma same_body_trans me1 me2 me3 :
  same_body me1 me2 → same_body me2 me3 → same_body me1 me3.
Proof.
  intros (?&?&?&?&?&?&?&?&?) (?&?&?&?&?&?&?&?&?).
  repeat split; congruence.
Qed.

Lemma no_solid_insert heap this me me' :
  no_solid heap → heap !! this = Some me → isSolid me' = isSolid me →
  no_solid (<[this := me']> heap).
Proof.
  intros Hn Hme Hs y T. destruct (decide (y = this)) as [->|Hne].
  - rewrite lookup_insert_eq. intros [= <-]. rewrite Hs. by eapply Hn.
  - rewrite lookup_insert_ne by done. apply Hn.
Qed.

Lemma sign_pos x : 0 < x → Utils.sign x = 1.
Proof.
  intros H. unfold Utils.sign.
  destruct (Qeq_bool x 0) eqn:E; [apply Qeq_bool_iff in E; lra|].
  by rewrite (proj2 (Qlt_bool_true 0 x) H).
Qed.

Lemma sign_neg x : x < 0 → Utils.sign x = -1.
Proof.
  intros H. unfold Utils.sign.
  destruct (Qeq_bool x 0) eqn:E; [apply Qeq_bool_iff in E; lra|].
  rewrite (proj2 (Qlt_bool_false 0 x)); [done | lra].
Qed.

Lemma round_comp x y : x == y → round x = round y.
Proof. intros E. unfold round. apply Qfloor_comp. by rewrite E. Qed.

Lemma round_nonzero dx : round (dx * 1000) ≠ 0%Z → ¬ dx == 0.
Proof. intros H E. apply H. rewrite (round_comp (dx * 1000) 0); [done | rewrite E; ring]. Qed.

(** The remainder that stops a loop of [move] is below half a thousandth. *)
Lemma round_small r : round (r * 1000) = 0%Z → -(1 # 2000) <= r ∧ r < 1 # 2000.
Proof.
  unfold round. intros H.
  pose proof (Qfloor_le (r * 1000 + (1 # 2))) as H1.
  pose proof (Qlt_floor (r * 1000 + (1 # 2))) as H2.
  rewrite H in H1, H2. change (inject_Z 0) with 0 in H1.
  change (inject_Z (0 + 1)) with 1 in H2. split; lra.
Qed.

(** One step of a loop: it has the sign of what is left, and is no longer
    than it. *)
Lemma step_spec dx s :
  ¬ dx == 0 →
  let step := Utils.sign dx * Qmin (Qabs dx) s in
  (0 < dx ∧ Utils.sign dx = 1 ∧ step == Qmin dx s) ∨
  (dx < 0 ∧ Utils.sign dx = -1 ∧ step == - Qmin (- dx) s).
Proof.
  intros Hne step. destruct (Qlt_le_dec 0 dx) as [Hp|Hn].
  - left. split; [done|]. split; [by apply sign_pos|]. unfold step.
    rewrite sign_pos by done. rewrite Qabs_pos by lra. ring.
  - right. assert (dx < 0) by (destruct (Qeq_dec dx 0); [done | lra]).
    split; [done|]. split; [by apply sign_neg|]. unfold step.
    rewrite sign_neg by done. rewrite Qabs_neg by lra. ring.
Qed.

Lemma step_keeps_sign dx s :
  ¬ dx == 0 → ¬ dx - Utils.sign dx * Qmin (Qabs dx) s == 0 →
  (0 < dx - Utils.sign dx * Qmin (Qabs dx) s ↔ 0 < dx).
Proof.
  intros Hne Hne'. destruct (step_spec dx s Hne) as [(Hp & _ & E)|(Hn & _ & E)];
    rewrite E in *.
  - pose proof (Q.le_min_l dx s). split; [done|]. intros _.
    destruct (Qeq_dec (dx - Qmin dx s) 0); [done | lra].
  - pose proof (Q.le_min_l (- dx) s). split; [lra|]. intros. lra.
Qed.

Lemma step_shrinks dx s (n : nat) :
  0 < s → ¬ dx == 0 → Qabs dx <= inject_Z (Z.of_nat (S n)) * s →
  Qabs (dx - Utils.sign dx * Qmin (Qabs dx) s) <= inject_Z (Z.of_nat n) * s.
Proof.
  intros Hs Hne Hle. rewrite Nat2Z.inj_succ, <- Z.add_1_r, inject_Z_plus in Hle.
  change (inject_Z 1) with 1 in Hle.
  assert (Hn : 0 <= inject_Z (Z.of_nat n) * s).
  { apply Qmult_le_0_compat; [|lra]. change 0 with (inject_Z 0). rewrite <- Zle_Qle. lia. }
  destruct (step_spec dx s Hne) as [(Hp & _ & E)|(Hneg & _ & E)]; rewrite E.
  - rewrite Qabs_pos in Hle by lra.
    destruct (Q.min_spec dx s) as [[? Em]|[? Em]]; rewrite Em.
    + rewrite (Qabs_wd _ 0) by ring. done.
    + rewrite Qabs_pos by lra. lra.
  - rewrite Qabs_neg in Hle by lra.
    destruct (Q.min_spec (- dx) s) as [[? Em]|[? Em]]; rewrite Em.
    + rewrite (Qabs_wd _ 0) by ring. done.
    + rewrite Qabs_neg by lra. lra.
Qed.

Lemma abs_zero dx : Qabs dx <= 0 → dx == 0.
Proof.
  intros H. pose proof (Qabs_nonneg dx). pose proof (Qle_Qabs dx).
  pose proof (Qle_Qabs (- dx)) as H2. rewrite Qabs_opp in H2. lra.
Qed.

Lemma store_in (a : list Q) (i : nat) (v : Q) :
  (i < length a)%nat → store a i v = Some (<[i := v]> a).
Proof. intros H. unfold store. apply Nat.ltb_lt in H. by rewrite H. Qed.

Lemma store_length (a a' : list Q) (i : nat) (v : Q) :
  store a i v = Some a' → a' !! i = Some v ∧ (∀ j, j ≠ i → a' !! j = a !! j).
Proof.
  unfold store. destruct (i <? length a)%nat eqn:E1.
  - apply Nat.ltb_lt in E1. intros [= <-]. split.
    + by apply list_lookup_insert_eq.
    + intros j Hj. by apply list_lookup_insert_ne.
  - destruct (i =? length a)%nat eqn:E2; [|done]. apply Nat.eqb_eq in E2.
    intros [= <-]. split.
    + rewrite lookup_app_r by lia. by rewrite E2, Nat.sub_diag.
    + intros j Hj. destruct (decide (j < length a)%nat).
      * by rewrite lookup_app_l.
      * rewrite !lookup_ge_None_2; [done | lia | rewrite length_app; simpl; lia].
Qed.

Variables (sh : SpatialHash.t) (this : ref) (stepSize : Q).

(** What the first loop has done when it returns: it has moved the first
    coordinate of [this] and nothing else, unless a collision stopped it,
    in which case the first velocity entry is zero, the coordinate was
    snapped to a whole number and pushed back, and the contact flag of
    the direction of travel is set. *)
Lemma sweepX_inv fuel : ∀ dx heap heap' me,
  heap !! this = Some me →
  sweepX fuel sh this stepSize dx heap = Some heap' →
  ∃ me' px', heap' = <[this := me']> heap ∧ same_body me me' ∧
    position me' = <[0%nat := px']> (position me) ∧
    ((contactDirections me' = contactDirections me ∧ velocity me' = velocity me ∧
      ∀ px, position me !! 0%nat = Some px → round ((px + dx - px') * 1000) = 0%Z) ∨
     (¬ dx == 0 ∧ store (velocity me) 0 0 = Some (velocity me') ∧
      (∃ k : Z, px' = inject_Z k - Utils.sign dx * movementPushback) ∧
      contactDirections me' =
        (let c := contactDirections me in
         if Qlt_bool 0 dx then mkContact (left c) true (up c) (down c)
         else mkContact true (right c) (up c) (down c)) ∧
      (2 ≤ length (position me))%nat ∧
      ∃ me1 x y z, same_body me me1 ∧
        checkCollision (<[this := me1]> heap) sh this x y z = Some true)).
Proof.
  induction fuel as [|fuel IH]; intros dx heap heap' me Hme Hrun.
  - simpl in Hrun. destruct (Z.eqb_spec (round (dx * 1000)) 0) as [Hz|Hz]; [|done].
    injection Hrun as <-. exists me, (default 0 (position me !! 0%nat)).
    split; [by rewrite insert_id|]. split; [apply same_body_refl|]. split.
    { destruct (position me); done. }
    left. split; [done|]. split; [done|]. intros px ->. simpl.
    rewrite <- Hz. apply round_comp. ring.
  - simpl in Hrun. destruct (Z.eqb_spec (round (dx * 1000)) 0) as [Hz|Hz].
    { injection Hrun as <-. exists me, (default 0 (position me !! 0%nat)).
      split; [by rewrite insert_id|]. split; [apply same_body_refl|]. split.
      { destruct (position me); done. }
      left. split; [done|]. split; [done|]. intros px ->. simpl.
      rewrite <- Hz. apply round_comp. ring. }
    pose proof (round_nonzero dx Hz) as Hne.
    rewrite Hme in Hrun. simpl in Hrun.
    destruct (position me !! 0%nat) as [px|] eqn:Hpx; [|done]. simpl in Hrun.
    destruct (position me !! 1%nat) as [py|] eqn:Hpy; [|done]. simpl in Hrun.
    set (step := Utils.sign dx * Qmin (Qabs dx) stepSize) in *.
    destruct (checkCollision heap sh this (px + step) py (position me !! 2%nat))
      as [hit|] eqn:Hhit; [|done]. simpl in Hrun.
    assert (Hlen : (0 < length (position me))%nat).
    { apply lookup_lt_is_Some. by eexists. }
    assert (Hlen2 : (2 ≤ length (position me))%nat).
    { apply (lookup_lt_is_Some_1 _ 1%nat). by eexists. }
    destruct hit.
    + destruct (store (velocity me) 0 0) as [v|] eqn:Hv; [|done]. simpl in Hrun.
      rewrite store_in in Hrun by done. simpl in Hrun. injection Hrun as <-.
      eexists _, _. split; [done|]. split; [by repeat split|]. split; [done|].
      right. split; [done|]. split; [done|]. split; [by eexists|]. split.
      * simpl. destruct (step_spec dx stepSize Hne) as [(Hp & -> & _)|(Hn & -> & _)].
        -- rewrite (proj2 (Qlt_bool_true 0 dx) Hp). done.
        -- rewrite (proj2 (Qlt_bool_false 0 dx)) by lra. done.
      * split; [done|]. exists me, (px + step), py, (position me !! 2%nat).
        split; [apply same_body_refl|]. by rewrite insert_id.
    + rewrite store_in in Hrun by done. simpl in Hrun.
      set (me1 := with_position (<[0%nat := px + step]> (position me)) me) in *.
      destruct (IH (dx - step) (<[this := me1]> heap) heap' me1
                  (lookup_insert_eq _ _ _) Hrun)
        as (me' & px' & -> & Hbody & Hpos & Hcase).
      exists me', px'. split; [by rewrite insert_insert_eq|].
      assert (Hb1 : same_body me me1) by (by repeat split).
      split; [by eapply same_body_trans|]. split.
      { rewrite Hpos. simpl. by rewrite list_insert_insert_eq. }
      destruct Hcase as [(Hc & Hvel & Hpx')|
        (Hne' & Hvel & Hk & Hc & _ & me2 & x & y & z & Hb2 & Hcol)].
      * left. split; [done|]. split; [done|]. intros px0 Hpx0.
        assert (px0 = px) by congruence. subst px0.
        rewrite <- (Hpx' (px + step)).
        -- apply round_comp. ring.
        -- simpl. by apply list_lookup_insert_eq.
      * right. split; [done|]. split; [done|].
        pose proof (step_keeps_sign dx stepSize Hne Hne') as Hsign. fold step in Hsign.
        split; [|split; [|split; [done|]]].
        -- destruct Hk as [k ->]. exists k. f_equal. f_equal.
           destruct (Qlt_le_dec 0 dx) as [Hp|Hn].
           ++ rewrite (sign_pos dx) by done. apply sign_pos. by apply Hsign.
           ++ assert (dx < 0) by (destruct (Qeq_dec dx 0); [done | lra]).
              rewrite (sign_neg dx) by done. apply sign_neg.
              destruct (Qlt_le_dec 0 (dx - step)) as [Hp'|Hn']; [apply Hsign in Hp'; lra|].
              destruct (Qeq_dec (dx - step) 0); [done | lra].
        -- rewrite Hc. simpl.
           destruct (Qlt_bool 0 (dx - step)) eqn:E1, (Qlt_bool 0 dx) eqn:E2; try done.
           ++ apply Qlt_bool_true in E1. apply Hsign in E1.
              apply Qlt_bool_false in E2. lra.
           ++ apply Qlt_bool_true in E2. apply Hsign in E2.
              apply Qlt_bool_false in E1. lra.
        -- exists me2, x, y, z. split; [by eapply same_body_trans|].
           by rewrite insert_insert_eq in Hcol.
Qed.

(** The same for the second loop and the second coordinate. *)
Lemma sweepY_inv fuel : ∀ dy heap heap' me,
  heap !! this = Some me →
  sweepY fuel sh this stepSize dy heap = Some heap' →
  ∃ me' py', heap' = <[this := me']> heap ∧ same_body me me' ∧
    position me' = <[1%nat := py']> (position me) ∧
    ((contactDirections me' = contactDirections me ∧ velocity me' = velocity me ∧
      ∀ py, position me !! 1%nat = Some py → round ((py + dy - py') * 1000) = 0%Z) ∨
     (¬ dy == 0 ∧ store (velocity me) 1 0 = Some (velocity me') ∧
      (∃ k : Z, py' = inject_Z k - Utils.sign dy * movementPushback) ∧
      contactDirections me' =
        (let c := contactDirections me in
         if Qlt_bool 0 dy then mkContact (left c) (right c) (up c) true
         else mkContact (left c) (right c) true (down c)) ∧
      (2 ≤ length (position me))%nat ∧
      ∃ me1 x y z, same_body me me1 ∧
        checkCollision (<[this := me1]> heap) sh this x y z = Some true)).
Proof.
  induction fuel as [|fuel IH]; intros dy heap heap' me Hme Hrun.
  - simpl in Hrun. destruct (Z.eqb_spec (round (dy * 1000)) 0) as [Hz|Hz]; [|done].
    injection Hrun as <-. exists me, (default 0 (position me !! 1%nat)).
    split; [by rewrite insert_id|]. split; [apply same_body_refl|]. split.
    { destruct (position me) as [|? [|? ?]]; done. }
    left. split; [done|]. split; [done|]. intros py ->. simpl.
    rewrite <- Hz. apply round_comp. ring.
  - simpl in Hrun. destruct (Z.eqb_spec (round (dy * 1000)) 0) as [Hz|Hz].
    { injection Hrun as <-. exists me, (default 0 (position me !! 1%nat)).
      split; [by rewrite insert_id|]. split; [apply same_body_refl|]. split.
      { destruct (position me) as [|? [|? ?]]; done. }
      left. split; [done|]. split; [done|]. intros py ->. simpl.
      rewrite <- Hz. apply round_comp. ring. }
    pose proof (round_nonzero dy Hz) as Hne.
    rewrite Hme in Hrun. simpl in Hrun.
    destruct (position me !! 0%nat) as [px|] eqn:Hpx; [|done]. simpl in Hrun.
    destruct (position me !! 1%nat) as [py|] eqn:Hpy; [|done]. simpl in Hrun.
    set (step := Utils.sign dy * Qmin (Qabs dy) stepSize) in *.
    destruct (checkCollision heap sh this px (py + step) (position me !! 2%nat))
      as [hit|] eqn:Hhit; [|done]. simpl in Hrun.
    assert (Hlen : (1 < length (position me))%nat).
    { apply lookup_lt_is_Some. by eexists. }
    assert (Hlen2 : (2 ≤ length (position me))%nat).
    { apply (lookup_lt_is_Some_1 _ 1%nat). by eexists. }
    destruct hit.
    + destruct (store (velocity me) 1 0) as [v|] eqn:Hv; [|done]. simpl in Hrun.
      rewrite store_in in Hrun by done. simpl in Hrun. injection Hrun as <-.
      eexists _, _. split; [done|]. split; [by repeat split|]. split; [done|].
      right. split; [done|]. split; [done|]. split; [by eexists|]. split.
      * simpl. destruct (step_spec dy stepSize Hne) as [(Hp & -> & _)|(Hn & -> & _)].
        -- rewrite (proj2 (Qlt_bool_true 0 dy) Hp). done.
        -- rewrite (proj2 (Qlt_bool_false 0 dy)) by lra. done.
      * split; [done|]. exists me, px, (py + step), (position me !! 2%nat).
        split; [apply same_body_refl|]. by rewrite insert_id.
    + rewrite store_in in Hrun by done. simpl in Hrun.
      set (me1 := with_position (<[1%nat := py + step]> (position me)) me) in *.
      destruct (IH (dy - step) (<[this := me1]> heap) heap' me1
                  (lookup_insert_eq _ _ _) Hrun)
        as (me' & py' & -> & Hbody & Hpos & Hcase).
      exists me', py'. split; [by rewrite insert_insert_eq|].
      assert (Hb1 : same_body me me1) by (by repeat split).
      split; [by eapply same_body_trans|]. split.
      { rewrite Hpos. simpl. by rewrite list_insert_insert_eq. }
      destruct Hcase as [(Hc & Hvel & Hpy')|
        (Hne' & Hvel & Hk & Hc & _ & me2 & x & y & z & Hb2 & Hcol)].
      * left. split; [done|]. split; [done|]. intros py0 Hpy0.
        assert (py0 = py) by congruence. subst py0.
        rewrite <- (Hpy' (py + step)).
        -- apply round_comp. ring.
        -- simpl. by apply list_lookup_insert_eq.
      * right. split; [done|]. split; [done|].
        pose proof (step_keeps_sign dy stepSize Hne Hne') as Hsign. fold step in Hsign.
        split; [|split; [|split; [done|]]].
        -- destruct Hk as [k ->]. exists k. f_equal. f_equal.
           destruct (Qlt_le_dec 0 dy) as [Hp|Hn].
           ++ rewrite (sign_pos dy) by done. apply sign_pos. by apply Hsign.
           ++ assert (dy < 0) by (destruct (Qeq_dec dy 0); [done | lra]).
              rewrite (sign_neg dy) by done. apply sign_neg.
              destruct (Qlt_le_dec 0 (dy - step)) as [Hp'|Hn']; [apply Hsign in Hp'; lra|].
              destruct (Qeq_dec (dy - step) 0); [done | lra].
        -- rewrite Hc. simpl.
           destruct (Qlt_bool 0 (dy - step)) eqn:E1, (Qlt_bool 0 dy) eqn:E2; try done.
           ++ apply Qlt_bool_true in E1. apply Hsign in E1.
              apply Qlt_bool_false in E2. lra.
           ++ apply Qlt_bool_true in E2. apply Hsign in E2.
              apply Qlt_bool_false in E1. lra.
        -- exists me2, x, y, z. split; [by eapply same_body_trans|].
           by rewrite insert_insert_eq in Hcol.
Qed.

(** With a positive step size a loop ends within as many iterations as
    steps fit into the distance. *)
Lemma sweepX_total (n : nat) : ∀ dx heap me,
  heap !! this = Some me → (2 ≤ length (position me))%nat →
  valid_arity (aabb me) → sound heap sh → 0 < stepSize →
  Qabs dx <= inject_Z (Z.of_nat n) * stepSize →
  is_Some (sweepX n sh this stepSize dx heap).
Proof.
  induction n as [|n IH]; intros dx heap me Hme Hlen Hv Hs Hpos Hle.
  - rewrite sweepX_done; [by eexists|].
    change (inject_Z (Z.of_nat 0)) with 0 in Hle.
    rewrite (round_comp (dx * 1000) 0); [done|].
    rewrite (abs_zero dx) by lra. ring.
  - destruct (Z.eq_dec (round (dx * 1000)) 0) as [Hz|Hz].
    { rewrite sweepX_done by done. by eexists. }
    pose proof (round_nonzero dx Hz) as Hne.
    simpl. destruct (Z.eqb_spec (round (dx * 1000)) 0) as [?|_]; [done|].
    rewrite Hme. simpl.
    destruct (lookup_lt_is_Some_2 (position me) 0) as [px Hpx]; [lia|].
    destruct (lookup_lt_is_Some_2 (position me) 1) as [py Hpy]; [lia|].
    rewrite Hpx, Hpy. simpl.
    set (step := Utils.sign dx * Qmin (Qabs dx) stepSize).
    destruct (checkCollision_is_Some heap sh this me (px + step) py (position me !! 2%nat)
                Hs Hme Hv) as [hit ->]. simpl.
    rewrite !(store_in (position me)) by lia. destruct hit; simpl.
    + destruct (store_0 (velocity me) 0) as (v & -> & _). simpl. by eexists.
    + apply (IH _ _ (with_position (<[0%nat := px + step]> (position me)) me)).
      * apply lookup_insert_eq.
      * simpl. by rewrite length_insert.
      * done.
      * by apply (sound_insert heap sh this me).
      * done.
      * by apply step_shrinks.
Qed.

Lemma sweepY_total (n : nat) : ∀ dy heap me,
  heap !! this = Some me → (2 ≤ length (position me))%nat →
  (1 ≤ length (velocity me))%nat →
  valid_arity (aabb me) → sound heap sh → 0 < stepSize →
  Qabs dy <= inject_Z (Z.of_nat n) * stepSize →
  is_Some (sweepY n sh this stepSize dy heap).
Proof.
  induction n as [|n IH]; intros dy heap me Hme Hlen Hvl Hv Hs Hpos Hle.
  - rewrite sweepY_done; [by eexists|].
    change (inject_Z (Z.of_nat 0)) with 0 in Hle.
    rewrite (round_comp (dy * 1000) 0); [done|].
    rewrite (abs_zero dy) by lra. ring.
  - destruct (Z.eq_dec (round (dy * 1000)) 0) as [Hz|Hz].
    { rewrite sweepY_done by done. by eexists. }
    pose proof (round_nonzero dy Hz) as Hne.
    simpl. destruct (Z.eqb_spec (round (dy * 1000)) 0) as [?|_]; [done|].
    rewrite Hme. simpl.
    destruct (lookup_lt_is_Some_2 (position me) 0) as [px Hpx]; [lia|].
    destruct (lookup_lt_is_Some_2 (position me) 1) as [py Hpy]; [lia|].
    rewrite Hpx, Hpy. simpl.
    set (step := Utils.sign dy * Qmin (Qabs dy) stepSize).
    destruct (checkCollision_is_Some heap sh this me px (py + step) (position me !! 2%nat)
                Hs Hme Hv) as [hit ->]. simpl.
    rewrite !(store_in (position me)) by lia. destruct hit; simpl.
    + assert (is_Some (store (velocity me) 1 0)) as [v ->]; [|by eexists].
      unfold store. destruct (1 <? length (velocity me))%nat eqn:E1; [by eexists|].
      apply Nat.ltb_ge in E1.
      replace (1 =? length (velocity me))%nat with true; [by eexists|].
      symmetry. apply Nat.eqb_eq. lia.
    + apply (IH _ _ (with_position (<[1%nat := py + step]> (position me)) me)).
      * apply lookup_insert_eq.
      * simpl. by rewrite length_insert.
      * done.
      * done.
      * by apply (sound_insert heap sh this me).
      * done.
      * by apply step_shrinks.
Qed.

End SweepFacts.

Section MoveTheorems.
Import Thing ThingSpec MoveSpec.

Lemma move_inv fuel sh this dx dy stepSize heap heap' me :
  heap !! this = Some me → move fuel sh this dx dy stepSize heap = Some heap' →
  ∃ me1 me' px' py' heap1,
    sweepX fuel sh this stepSize dx
      (<[this := with_contactDirections noContact me]> heap) = Some heap1 ∧
    heap1 = <[this := me1]> heap ∧
    sweepY fuel sh this stepSize dy heap1 = Some heap' ∧
    heap' = <[this := me']> heap ∧
    same_body me me1 ∧ same_body me1 me' ∧
    position me1 = <[0%nat := px']> (position me) ∧
    position me' = <[1%nat := py']> (position me1).
Proof.
  intros Hme Hrun. rewrite (move_unfold _ _ _ _ _ _ _ me Hme) in Hrun.
  set (me0 := with_contactDirections noContact me) in *.
  destruct (sweepX fuel sh this stepSize dx (<[this := me0]> heap)) as [heap1|] eqn:E1;
    [|done]. simpl in Hrun.
  destruct (sweepX_inv sh this stepSize fuel dx _ heap1 me0 (lookup_insert_eq _ _ _) E1)
    as (me1 & px' & -> & Hb1 & Hp1 & _).
  destruct (sweepY_inv sh this stepSize fuel dy _ heap' me1 (lookup_insert_eq _ _ _) Hrun)
    as (me' & py' & -> & Hb2 & Hp2 & _).
  rewrite !insert_insert_eq in *.
  exists me1, me', px', py', (<[this := me1]> heap).
  split; [done|]. split; [done|]. split; [done|]. split; [done|].
  split; [|done]. eapply same_body_trans; [|exact Hb1]. by repeat split.
Qed.

End MoveTheorems.

(** X22: a call of move that returns, on a hash of positive cell size,
    has changed nothing but the mover:
    every other Thing of the store is what it was, and of the mover only
    the first two coordinates of the position, the velocity and the
    contact flags can differ. *)
Theorem move_changes_only_the_mover (fuel : nat) (sh : SpatialHash.t) (this : ref)
    (dx dy stepSize : Q) (heap heap' : gmap ref Thing.t) (me : Thing.t) :
  0 < SpatialHash.size sh →
  heap !! this = Some me →
  Thing.move fuel sh this dx dy stepSize heap = Some heap' →
  ∃ me', heap' = <[this := me']> heap ∧ MoveSpec.same_body me me' ∧
    length (Thing.position me') = length (Thing.position me) ∧
    (∀ i, (2 ≤ i)%nat → Thing.position me' !! i = Thing.position me !! i) ∧
    (∀ y, y ≠ this → heap' !! y = heap !! y).
Proof.
  intros _ Hme Hrun.
  destruct (move_inv fuel sh this dx dy stepSize heap heap' me Hme Hrun)
    as (me1 & me' & px' & py' & heap1 & _ & _ & _ & -> & Hb1 & Hb2 & Hp1 & Hp2).
  exists me'. split; [done|]. split; [by eapply same_body_trans|].
  split; [by rewrite Hp2, Hp1, !length_insert|]. split.
  - intros i Hi. rewrite Hp2, Hp1, !list_lookup_insert_ne by lia. done.
  - intros y Hy. by rewrite lookup_insert_ne.
Qed.

Lemma move_changes_only_the_mover_witness :
  let M := Thing.mk 0 [0; 0] [5; 0] [-8; -8; 8; 8] ThingSpec.noContact
             true false ∅ [] false false false in
  let B := Thing.mk 0 [16; 0] [0; 0] [-8; -8; 8; 8] ThingSpec.noContact
             true true ∅ [] false false false in
  let sh := SpatialHash.add (SpatialHash.create 64) 2%nat 8 (-8) 16 16 in
  let heap' := default ∅ (Thing.move 5 sh 1%nat 5 0 1 {[ 1%nat := M; 2%nat := B ]}) in
  ∃ me', heap' = <[1%nat := me']> {[ 1%nat := M; 2%nat := B ]} ∧ MoveSpec.same_body M me'.
Proof.
  intros M B sh heap'.
  destruct (move_changes_only_the_mover 5 sh 1%nat 5 0 1 {[ 1%nat := M; 2%nat := B ]}
              heap' M) as (me' & H1 & H2 & _).
  - reflexivity.
  - reflexivity.
  - vm_compute. reflexivity.
  - by exists me'.
Defined.

Section ContactFacts.
Import Thing ThingSpec MoveSpec.

Lemma pushback_forward k dx :
  0 < dx → inject_Z k - Utils.sign dx * movementPushback == inject_Z k - movementPushback.
Proof. intros H. rewrite sign_pos by done. ring. Qed.

Lemma pushback_backward k dx :
  dx < 0 → inject_Z k - Utils.sign dx * movementPushback == inject_Z k + movementPushback.
Proof. intros H. rewrite sign_neg by done. ring. Qed.

Lemma sweepX_flags fuel sh this stepSize dx heap heap' me :
  heap !! this = Some me →
  left (contactDirections me) = false → right (contactDirections me) = false →
  sweepX fuel sh this stepSize dx heap = Some heap' →
  ∃ me', heap' = <[this := me']> heap ∧
    up (contactDirections me') = up (contactDirections me) ∧
    down (contactDirections me') = down (contactDirections me) ∧
    (∀ i, i ≠ 0%nat → velocity me' !! i = velocity me !! i) ∧
    (∀ i, i ≠ 0%nat → position me' !! i = position me !! i) ∧
    length (position me') = length (position me) ∧
    (right (contactDirections me') = true →
       0 < dx ∧ left (contactDirections me') = false ∧
       velocity me' !! 0%nat = Some 0 ∧
       ∃ px' k, position me' !! 0%nat = Some px' ∧
         px' == inject_Z k - movementPushback) ∧
    (left (contactDirections me') = true →
       dx < 0 ∧ right (contactDirections me') = false ∧
       velocity me' !! 0%nat = Some 0 ∧
       ∃ px' k, position me' !! 0%nat = Some px' ∧
         px' == inject_Z k + movementPushback) ∧
    (right (contactDirections me') = false → left (contactDirections me') = false →
       velocity me' = velocity me).
Proof.
  intros Hme Hl Hr Hrun.
  destruct (sweepX_inv sh this stepSize fuel dx heap heap' me Hme Hrun)
    as (me' & px' & -> & _ & Hp & Hcase).
  exists me'. split; [done|].
  assert (Hpi : ∀ i, i ≠ 0%nat → position me' !! i = position me !! i).
  { intros i Hi. rewrite Hp. by apply list_lookup_insert_ne. }
  assert (Hpl : length (position me') = length (position me)).
  { rewrite Hp. apply length_insert. }
  destruct Hcase as [(Hc & Hv & _)|(Hne & Hv & [k Hk] & Hc & Hlen & _)].
  - rewrite Hc, Hv, Hl, Hr. do 5 (split; [done|]). split; [done|]. split; done.
  - destruct (store_length _ _ _ _ Hv) as [Hv0 Hvi].
    assert (Hp0 : position me' !! 0%nat = Some px').
    { rewrite Hp. apply list_lookup_insert_eq. lia. }
    rewrite Hc. destruct (Qlt_bool 0 dx) eqn:E; simpl.
    + apply Qlt_bool_true in E. do 5 (split; [done|]). rewrite Hl.
      split; [|split; [done|done]]. intros _. split; [done|]. split; [done|].
      split; [done|]. exists px', k. split; [done|]. rewrite Hk.
      by apply pushback_forward.
    + apply Qlt_bool_false in E. assert (dx < 0) by (destruct (Qeq_dec dx 0); [done | lra]).
      do 5 (split; [done|]). rewrite Hr.
      split; [done|]. split; [|done]. intros _. split; [done|]. split; [done|].
      split; [done|]. exists px', k. split; [done|]. rewrite Hk.
      by apply pushback_backward.
Qed.

Lemma sweepY_flags fuel sh this stepSize dy heap heap' me :
  heap !! this = Some me →
  up (contactDirections me) = false → down (contactDirections me) = false →
  sweepY fuel sh this stepSize dy heap = Some heap' →
  ∃ me', heap' = <[this := me']> heap ∧
    left (contactDirections me') = left (contactDirections me) ∧
    right (contactDirections me') = right (contactDirections me) ∧
    (∀ i, i ≠ 1%nat → velocity me' !! i = velocity me !! i) ∧
    (∀ i, i ≠ 1%nat → position me' !! i = position me !! i) ∧
    length (position me') = length (position me) ∧
    (down (contactDirections me') = true →
       0 < dy ∧ up (contactDirections me') = false ∧
       velocity me' !! 1%nat = Some 0 ∧
       ∃ py' k, position me' !! 1%nat = Some py' ∧
         py' == inject_Z k - movementPushback) ∧
    (up (contactDirections me') = true →
       dy < 0 ∧ down (contactDirections me') = false ∧
       velocity me' !! 1%nat = Some 0 ∧
       ∃ py' k, position me' !! 1%nat = Some py' ∧
         py' == inject_Z k + movementPushback) ∧
    (down (contactDirections me') = false → up (contactDirections me') = false →
       velocity me' = velocity me).
Proof.
  intros Hme Hu Hd Hrun.
  destruct (sweepY_inv sh this stepSize fuel dy heap heap' me Hme Hrun)
    as (me' & py' & -> & _ & Hp & Hcase).
  exists me'. split; [done|].
  assert (Hpi : ∀ i, i ≠ 1%nat → position me' !! i = position me !! i).
  { intros i Hi. rewrite Hp. by apply list_lookup_insert_ne. }
  assert (Hpl : length (position me') = length (position me)).
  { rewrite Hp. apply length_insert. }
  destruct Hcase as [(Hc & Hv & _)|(Hne & Hv & [k Hk] & Hc & Hlen & _)].
  - rewrite Hc, Hv, Hu, Hd. do 5 (split; [done|]). split; [done|]. split; done.
  - destruct (store_length _ _ _ _ Hv) as [Hv0 Hvi].
    assert (Hp0 : position me' !! 1%nat = Some py').
    { rewrite Hp. apply list_lookup_insert_eq. lia. }
    rewrite Hc. destruct (Qlt_bool 0 dy) eqn:E; simpl.
    + apply Qlt_bool_true in E. do 5 (split; [done|]). rewrite Hu.
      split; [|split; [done|done]]. intros _. split; [done|]. split; [done|].
      split; [done|]. exists py', k. split; [done|]. rewrite Hk.
      by apply pushback_forward.
    + apply Qlt_bool_false in E. assert (dy < 0) by (destruct (Qeq_dec dy 0); [done | lra]).
      do 5 (split; [done|]). rewrite Hd.
      split; [done|]. split; [|done]. intros _. split; [done|]. split; [done|].
      split; [done|]. exists py', k. split; [done|]. rewrite Hk.
      by apply pushback_backward.
Qed.

End ContactFacts.

(** X23: after move has returned, on a hash of positive cell size, a
    contact flag tells what happened: the
    flag right (left) is set only when dx was positive (negative), and
    then the other flag of the axis is clear, velocity[0] is zero and
    position[0] is a whole number pushed back by 0.0001 against the
    direction of travel; likewise down and up for dy, velocity[1] and
    position[1]; with no flag of an axis set, the velocity entry of that
    axis is unchanged. *)
Theorem move_contact_flags (fuel : nat) (sh : SpatialHash.t) (this : ref)
    (dx dy stepSize : Q) (heap heap' : gmap ref Thing.t) (me : Thing.t) :
  0 < SpatialHash.size sh →
  heap !! this = Some me →
  Thing.move fuel sh this dx dy stepSize heap = Some heap' →
  ∃ me', heap' !! this = Some me' ∧
    (Thing.right (Thing.contactDirections me') = true →
       0 < dx ∧ Thing.left (Thing.contactDirections me') = false ∧
       Thing.velocity me' !! 0%nat = Some 0 ∧
       ∃ px' k, Thing.position me' !! 0%nat = Some px' ∧
         px' == inject_Z k - Thing.movementPushback) ∧
    (Thing.left (Thing.contactDirections me') = true →
       dx < 0 ∧ Thing.right (Thing.contactDirections me') = false ∧
       Thing.velocity me' !! 0%nat = Some 0 ∧
       ∃ px' k, Thing.position me' !! 0%nat = Some px' ∧
         px' == inject_Z k + Thing.movementPushback) ∧
    (Thing.down (Thing.contactDirections me') = true →
       0 < dy ∧ Thing.up (Thing.contactDirections me') = false ∧
       Thing.velocity me' !! 1%nat = Some 0 ∧
       ∃ py' k, Thing.position me' !! 1%nat = Some py' ∧
         py' == inject_Z k - Thing.movementPushback) ∧
    (Thing.up (Thing.contactDirections me') = true →
       dy < 0 ∧ Thing.down (Thing.contactDirections me') = false ∧
       Thing.velocity me' !! 1%nat = Some 0 ∧
       ∃ py' k, Thing.position me' !! 1%nat = Some py' ∧
         py' == inject_Z k + Thing.movementPushback) ∧
    (Thing.right (Thing.contactDirections me') = false →
     Thing.left (Thing.contactDirections me') = false →
     Thing.velocity me' !! 0%nat = Thing.velocity me !! 0%nat) ∧
    (Thing.down (Thing.contactDirections me') = false →
     Thing.up (Thing.contactDirections me') = false →
     Thing.velocity me' !! 1%nat = Thing.velocity me !! 1%nat).
Proof.
  intros _ Hme Hrun. rewrite (move_unfold _ _ _ _ _ _ _ me Hme) in Hrun.
  set (me0 := Thing.with_contactDirections ThingSpec.noContact me) in *.
  destruct (Thing.sweepX fuel sh this stepSize dx (<[this := me0]> heap))
    as [heap1|] eqn:E1; [|done]. simpl in Hrun.
  destruct (sweepX_flags fuel sh this stepSize dx _ heap1 me0 (lookup_insert_eq _ _ _)
              eq_refl eq_refl E1)
    as (me1 & -> & Hu1 & Hd1 & Hv1 & Hp1 & Hl1 & HR & HL & HN).
  destruct (sweepY_flags fuel sh this stepSize dy _ heap' me1 (lookup_insert_eq _ _ _)
              Hu1 Hd1 Hrun)
    as (me' & -> & Hl2 & Hr2 & Hv2 & Hp2 & Hlen2 & HD & HU & HM).
  exists me'. split; [apply lookup_insert_eq|].
  rewrite Hl2, Hr2, (Hv2 0%nat), (Hp2 0%nat) by done.
  split; [exact HR|]. split; [exact HL|]. split; [exact HD|]. split; [exact HU|].
  split.
  - intros H1 H2. by rewrite (HN H1 H2).
  - intros H1 H2. rewrite (HM H1 H2). by apply Hv1.
Qed.

Lemma move_contact_flags_witness :
  let M := Thing.mk 0 [0; 0] [5; 0] [-8; -8; 8; 8] ThingSpec.noContact
             true false ∅ [] false false false in
  let B := Thing.mk 0 [16; 0] [0; 0] [-8; -8; 8; 8] ThingSpec.noContact
             true true ∅ [] false false false in
  let sh := SpatialHash.add (SpatialHash.create 64) 2%nat 8 (-8) 16 16 in
  let heap' := default ∅ (Thing.move 5 sh 1%nat 5 0 1 {[ 1%nat := M; 2%nat := B ]}) in
  ∃ me', heap' !! 1%nat = Some me' ∧
    Thing.right (Thing.contactDirections me') = true ∧
    Thing.velocity me' !! 0%nat = Some 0.
Proof.
  intros M B sh heap'.
  destruct (move_contact_flags 5 sh 1%nat 5 0 1 {[ 1%nat := M; 2%nat := B ]} heap' M)
    as (me' & H1 & HR & _).
  - reflexivity.
  - reflexivity.
  - vm_compute. reflexivity.
  - exists me'. split; [exact H1|].
    assert (Hr : Thing.right (Thing.contactDirections me') = true).
    { assert (E : heap' !! 1%nat = Some me') by exact H1.
      vm_compute in E. injection E as <-. reflexivity. }
    split; [exact Hr|]. exact (proj1 (proj2 (proj2 (HR Hr)))).
Defined.

Section Termination.
Import Thing ThingSpec MoveSpec.

Lemma sweepX_then sh this stepSize n dx heap me :
  heap !! this = Some me → (2 ≤ length (position me))%nat →
  valid_arity (aabb me) → sound heap sh → 0 < stepSize →
  Qabs dx <= inject_Z (Z.of_nat n) * stepSize →
  ∃ me1 px',
    sweepX n sh this stepSize dx (<[this := with_contactDirections noContact me]> heap)
      = Some (<[this := me1]> heap) ∧
    same_body me me1 ∧ sound (<[this := me1]> heap) sh ∧
    position me1 = <[0%nat := px']> (position me) ∧
    ((1 ≤ length (velocity me))%nat → (1 ≤ length (velocity me1))%nat) ∧
    ((contactDirections me1 = noContact ∧ velocity me1 = velocity me ∧
      ∀ px, position me !! 0%nat = Some px → round ((px + dx - px') * 1000) = 0%Z) ∨
     ∃ me2 x y z, same_body me me2 ∧
       checkCollision (<[this := me2]> heap) sh this x y z = Some true).
Proof.
  intros Hme Hlen Hv Hs Hpos Hle.
  set (me0 := with_contactDirections noContact me).
  assert (Hb0 : same_body me me0) by (by repeat split).
  assert (Hs0 : sound (<[this := me0]> heap) sh) by (by apply (sound_insert heap sh this me)).
  destruct (sweepX_total sh this stepSize n dx (<[this := me0]> heap) me0)
    as [heap1 E1]; try done; [apply lookup_insert_eq|].
  destruct (sweepX_inv sh this stepSize n dx _ heap1 me0 (lookup_insert_eq _ _ _) E1)
    as (me1 & px' & -> & Hb1 & Hp1 & Hcase).
  rewrite insert_insert_eq in E1.
  exists me1, px'. split; [done|].
  assert (Hb : same_body me me1) by (by eapply same_body_trans).
  split; [done|]. split.
  { apply (sound_insert heap sh this me); [done | done | apply Hb]. }
  split; [done|]. split.
  - intros Hvl. destruct Hcase as [(_ & -> & _)|(_ & Hst & _)]; [done|].
    destruct (store_length _ _ _ _ Hst) as [H0 _].
    apply (lookup_lt_is_Some_1 _ 0%nat). by eexists.
  - destruct Hcase as [(Hc & Hvel & Hpx)|(_ & _ & _ & _ & _ & me2 & x & y & z & Hb2 & Hcol)].
    + left. done.
    + right. exists me2, x, y, z. split; [exact (same_body_trans _ _ _ Hb0 Hb2)|].
      by rewrite insert_insert_eq in Hcol.
Qed.

Lemma sweepY_then sh this stepSize n dy heap me :
  heap !! this = Some me → (2 ≤ length (position me))%nat →
  (1 ≤ length (velocity me))%nat →
  valid_arity (aabb me) → sound heap sh → 0 < stepSize →
  Qabs dy <= inject_Z (Z.of_nat n) * stepSize →
  ∃ me1 py',
    sweepY n sh this stepSize dy heap = Some (<[this := me1]> heap) ∧
    same_body me me1 ∧
    position me1 = <[1%nat := py']> (position me) ∧
    ((contactDirections me1 = contactDirections me ∧ velocity me1 = velocity me ∧
      ∀ py, position me !! 1%nat = Some py → round ((py + dy - py') * 1000) = 0%Z) ∨
     ∃ me2 x y z, same_body me me2 ∧
       checkCollision (<[this := me2]> heap) sh this x y z = Some true).
Proof.
  intros Hme Hlen Hvl Hv Hs Hpos Hle.
  destruct (sweepY_total sh this stepSize n dy heap me) as [heap1 E1]; try done.
  destruct (sweepY_inv sh this stepSize n dy _ heap1 me Hme E1)
    as (me1 & py' & -> & Hb1 & Hp1 & Hcase).
  exists me1, py'. split; [done|]. split; [done|]. split; [done|].
  destruct Hcase as [?|(_ & _ & _ & _ & _ & me2 & x & y & z & Hb2 & Hcol)].
  - by left.
  - right. by exists me2, x, y, z.
Qed.

End Termination.

(** X24: with a positive step size move returns: on a store and a hash
    of positive cell size that fit together, for a mover with a box of valid arity, a position
    of at least two coordinates and a velocity of at least one entry,
    each loop ends within as many iterations as steps are needed to cover
    the distance. *)
Theorem move_terminates (n : nat) (sh : SpatialHash.t) (this : ref)
    (dx dy stepSize : Q) (heap : gmap ref Thing.t) (me : Thing.t) :
  0 < SpatialHash.size sh →
  heap !! this = Some me →
  (2 ≤ length (Thing.position me))%nat → (1 ≤ length (Thing.velocity me))%nat →
  ThingSpec.valid_arity (Thing.aabb me) → ThingSpec.sound heap sh →
  0 < stepSize →
  Qabs dx <= inject_Z (Z.of_nat n) * stepSize →
  Qabs dy <= inject_Z (Z.of_nat n) * stepSize →
  ∃ heap', Thing.move n sh this dx dy stepSize heap = Some heap'.
Proof.
  intros _ Hme Hlen Hvl Hv Hs Hpos Hdx Hdy.
  rewrite (move_unfold _ _ _ _ _ _ _ me Hme).
  destruct (sweepX_then sh this stepSize n dx heap me Hme Hlen Hv Hs Hpos Hdx)
    as (me1 & px' & -> & Hb1 & Hs1 & Hp1 & Hvl1 & _). simpl.
  destruct (sweepY_then sh this stepSize n dy (<[this := me1]> heap) me1)
    as (me' & py' & -> & _); try done.
  - apply lookup_insert_eq.
  - by rewrite Hp1, length_insert.
  - by apply Hvl1.
  - destruct Hb1 as (_ & -> & _). done.
  - by eexists.
Qed.

Lemma move_terminates_witness :
  let M := Thing.mk 0 [0; 0] [5; 0] [-8; -8; 8; 8] ThingSpec.noContact
             true false ∅ [] false false false in
  let B := Thing.mk 0 [16; 0] [0; 0] [-8; -8; 8; 8] ThingSpec.noContact
             true true ∅ [] false false false in
  let sh := SpatialHash.add (SpatialHash.create 64) 2%nat 8 (-8) 16 16 in
  ∃ heap', Thing.move 10 sh 1%nat 5 (-3) (1 # 2) {[ 1%nat := M; 2%nat := B ]} = Some heap'.
Proof.
  intros M B sh.
  apply (move_terminates 10 sh 1%nat 5 (-3) (1 # 2) {[ 1%nat := M; 2%nat := B ]} M).
  - reflexivity.
  - reflexivity.
  - simpl. lia.
  - simpl. lia.
  - by left.
  - apply (sound_add _ _ _ _ _ _ _ B); [apply sound_create | reflexivity | by left].
  - reflexivity.
  - discriminate.
  - discriminate.
Defined.



(** ** Layers and drawing order *)

Section LayerFacts.
Import Scene SceneSpec.

Lemma sortedKeys_Permutation (m : gmap Z (list ref)) :
  sortedKeys m ≡ₚ (map_to_list m).*1.
Proof. apply merge_sort_Permutation. Qed.

Lemma sortedKeys_elem (m : gmap Z (list ref)) k :
  k ∈ sortedKeys m ↔ is_Some (m !! k).
Proof.
  rewrite sortedKeys_Permutation, list_elem_of_fmap. split.
  - intros ([k' l] & -> & Hin). apply elem_of_map_to_list in Hin. by eexists.
  - intros [l Hl]. exists (k, l). split; [done|]. by apply elem_of_map_to_list.
Qed.

Lemma sortedKeys_NoDup (m : gmap Z (list ref)) : NoDup (sortedKeys m).
Proof. rewrite sortedKeys_Permutation. apply NoDup_fst_map_to_list. Qed.

Lemma sortedKeys_le (m : gmap Z (list ref)) : StronglySorted Z.le (sortedKeys m).
Proof. apply StronglySorted_merge_sort; apply _. Qed.

Lemma StronglySorted_lt (l : list Z) :
  StronglySorted Z.le l → NoDup l → StronglySorted Z.lt l.
Proof.
  induction 1 as [|x l Hs IH Hall]; intros Hnd; [constructor|].
  apply NoDup_cons in Hnd as [Hx Hnd]. constructor; [by apply IH|].
  rewrite Forall_forall in *. intros y Hy. specialize (Hall y Hy).
  assert (x ≠ y) by (intros ->; done). lia.
Qed.

Lemma sortedKeys_lt (m : gmap Z (list ref)) : StronglySorted Z.lt (sortedKeys m).
Proof. apply StronglySorted_lt; [apply sortedKeys_le | apply sortedKeys_NoDup]. Qed.

Lemma sortedKeys_ext (m1 m2 : gmap Z (list ref)) :
  (∀ k, is_Some (m1 !! k) ↔ is_Some (m2 !! k)) → sortedKeys m1 = sortedKeys m2.
Proof.
  intros H. apply (Sorted_unique Z.le).
  - apply StronglySorted_Sorted, sortedKeys_le.
  - apply StronglySorted_Sorted, sortedKeys_le.
  - apply NoDup_Permutation; [apply sortedKeys_NoDup..|].
    intros k. by rewrite !sortedKeys_elem.
Qed.

Lemma ordered_create : ordered create.
Proof. reflexivity. Qed.

Lemma ordered_updateDepth sc x T : ordered sc → ordered (updateDepth sc x T).
Proof.
  intros Ho. unfold updateDepth.
  destruct (depthMemory sc !! x) as [d|]; [|done].
  destruct (d =? round (Thing.depth T))%Z; done.
Qed.

Lemma updateDepth_frame sc x T :
  things (updateDepth sc x T) = things sc ∧
  namedThings (updateDepth sc x T) = namedThings sc.
Proof.
  unfold updateDepth. destruct (depthMemory sc !! x) as [d|]; [|done].
  destruct (d =? round (Thing.depth T))%Z; done.
Qed.

Lemma bury_frame sc i x sc' :
  bury sc i x = Some sc' →
  things sc' = delete i (things sc) ∧ namedThings sc' = namedThings sc ∧
  (ordered sc → ordered sc').
Proof.
  unfold bury. destruct (SpatialHash.remove _ _) as [sh log|]; [|done].
  intros [= <-]. split; [done|]. split; [done|]. unfold ordered. simpl. intros ->.
  destruct (layers sc !! default 0%Z (depthMemory sc !! x)) as [layer|] eqn:E; [|done].
  apply sortedKeys_ext. intros k.
  destruct (decide (k = default 0%Z (depthMemory sc !! x))) as [->|Hne].
  - rewrite lookup_insert_eq, E. split; by eexists.
  - by rewrite lookup_insert_ne.
Qed.

Lemma refresh_frame sc x T sc' :
  refresh sc x T = Some sc' →
  things sc' = things sc ∧ namedThings sc' = namedThings sc ∧
  (ordered sc → ordered sc').
Proof.
  unfold refresh.
  set (sc1 := match depthMemory sc !! x with
              | Some d => if Qeq_bool (inject_Z d) (Thing.depth T) then sc
                          else updateDepth sc x T
              | None => updateDepth sc x T
              end).
  assert (H1 : things sc1 = things sc ∧ namedThings sc1 = namedThings sc ∧
               (ordered sc → ordered sc1)).
  { unfold sc1. destruct (depthMemory sc !! x) as [d|].
    - destruct (Qeq_bool _ _); [done|].
      destruct (updateDepth_frame sc x T) as [? ?].
      split; [done|]. split; [done|]. apply ordered_updateDepth.
    - destruct (updateDepth_frame sc x T) as [? ?].
      split; [done|]. split; [done|]. apply ordered_updateDepth. }
  clearbody sc1. destruct H1 as (Ht & Hn & Ho). intros Hr.
  destruct (SpatialHash.getHitbox _ _) as [last|]; simpl in Hr; [|discriminate].
  destruct (Utils.addn (Thing.position T !! 0%nat) _) as [px|]; simpl in Hr; [|discriminate].
  destruct (Utils.addn (Thing.position T !! 1%nat) _) as [py|]; simpl in Hr; [|discriminate].
  destruct (_ || _).
  - destruct (hitbox T) as [hb|]; simpl in Hr; [|discriminate].
    destruct (SpatialHash.update _ _ _ _ _ _) as [sh log|]; [|discriminate].
    injection Hr as <-. auto.
  - injection Hr as <-. auto.
Qed.

Lemma pass_frame hooks : ∀ fuel i sc heap sc' heap',
  pass hooks fuel i sc heap = Some (sc', heap') →
  sublist (things sc') (things sc) ∧ namedThings sc' = namedThings sc ∧
  (ordered sc → ordered sc').
Proof.
  induction fuel as [|fuel IH]; intros i sc heap sc' heap'; simpl.
  - destruct (things sc !! i); [done|]. by intros [= <- <-].
  - destruct (things sc !! i) as [x|]; [|by intros [= <- <-]].
    destruct (heap !! x) as [T|]; [|done]. simpl.
    match goal with |- context [?h !! x ≫= _] => destruct (h !! x) as [T1|] end; [|done].
    simpl. destruct (Thing.isDead T1).
    + destruct (bury sc i x) as [sc1|] eqn:E; [|done]. simpl. intros Hp.
      destruct (bury_frame sc i x sc1 E) as (Ht & Hn & Ho).
      destruct (IH _ _ _ _ _ Hp) as (Hs & Hn' & Ho').
      split; [|split; [congruence | auto]].
      etrans; [exact Hs|]. rewrite Ht. apply sublist_delete.
    + destruct (refresh sc x T1) as [sc1|] eqn:E; [|done]. simpl. intros Hp.
      destruct (refresh_frame sc x T1 sc1 E) as (Ht & Hn & Ho).
      destruct (IH _ _ _ _ _ Hp) as (Hs & Hn' & Ho').
      split; [|split; [congruence | auto]].
      by rewrite <- Ht.
Qed.

End LayerFacts.

Section SceneInvariants.
Import Scene SceneSpec.

Lemma pass_total hooks fuel i sc heap :
  keeps_shape (updateThing hooks) → keeps_shape (onDeath hooks) →
  wf sc → shaped sc heap → (length (things sc) - i ≤ fuel)%nat →
  ∃ sc' heap', pass hooks fuel i sc heap = Some (sc', heap') ∧ wf sc' ∧ shaped sc' heap'.
Proof.
  intros Hu Hd Hwf Hsh Hfuel.
  set (t := fresh (list_to_set (things sc) : gset ref)).
  assert (Ht : t ∉ things sc).
  { intros Hin. apply (is_fresh (list_to_set (things sc) : gset ref)).
    by apply elem_of_list_to_set. }
  destruct (pass_removes_fated hooks t Hu Hd (λ _, False)
              ltac:(done) ltac:(done) ltac:(done) fuel i sc heap)
    as (sc' & heap' & Hp & Hwf' & Hsh' & _); try done.
  - intros Hin. apply Ht. eapply elem_of_sublist; [exact Hin | apply sublist_take].
  - by exists sc', heap'.
Qed.

Lemma prune_lookup heap (named : gmap string ref) name r :
  prune heap named !! name = Some r ↔ named !! name = Some r ∧ ¬ dead heap r.
Proof.
  unfold prune. rewrite map_lookup_filter_Some. simpl. unfold dead.
  split; intros [H1 H2]; (split; [done|]).
  - intros (T & HT & Hd). rewrite HT in H2. simpl in H2. congruence.
  - destruct (heap !! r) as [T|] eqn:E; [|done]. simpl.
    apply not_true_is_false. intros Hd. apply H2. by exists T.
Qed.

Lemma updateDepth_spatialHash sc x T : spatialHash (updateDepth sc x T) = spatialHash sc.
Proof.
  unfold updateDepth. destruct (depthMemory sc !! x) as [d|]; [|done].
  destruct (d =? round (Thing.depth T))%Z; done.
Qed.

Lemma wf_layer sc x k :
  wf sc → (x ∈ layer sc k ↔ x ∈ things sc ∧ depthMemory sc !! x = Some k).
Proof.
  intros (_ & _ & _ & _ & _ & Hc). rewrite <- count_pos, Hc.
  destruct (decide _) as [H|H]; [split; [done | lia] | split; [lia | done]].
Qed.

Lemma count_le_NoDup (l : list ref) : (∀ x, (count x l ≤ 1)%nat) → NoDup l.
Proof.
  induction l as [|y l IH]; intros Hc; [constructor|].
  apply NoDup_cons. split.
  - intros Hin. specialize (Hc y). rewrite count_cons, decide_True in Hc by done.
    apply count_pos in Hin. lia.
  - apply IH. intros x. specialize (Hc x). rewrite count_cons in Hc. lia.
Qed.

Lemma wf_layer_NoDup sc k : wf sc → NoDup (layer sc k).
Proof.
  intros (_ & _ & _ & _ & _ & Hc). apply count_le_NoDup. intros x.
  rewrite Hc. destruct (decide _); lia.
Qed.

Lemma same_depth_sorted sc k (l : list ref) :
  Forall (λ x, depthMemory sc !! x = Some k) l → StronglySorted (below sc) l.
Proof.
  induction 1 as [|x l Hx Hl IH]; constructor; [done|].
  eapply Forall_impl; [exact Hl|]. intros y Hy. exists k, k. split; [done|]. split; [done|]. lia.
Qed.

Lemma visited_spec sc (ks : list Z) :
  wf sc → StronglySorted Z.lt ks →
  (∀ x, x ∈ mjoin (layer sc <$> ks) ↔ ∃ k, k ∈ ks ∧ x ∈ layer sc k) ∧
  NoDup (mjoin (layer sc <$> ks)) ∧
  StronglySorted (below sc) (mjoin (layer sc <$> ks)).
Proof.
  intros Hwf. induction 1 as [|k ks Hs IH Hall]; simpl.
  - split; [|split; constructor]. intros x. split; [by intros ?%elem_of_nil|].
    by intros (k & ?%elem_of_nil & _).
  - destruct IH as (IHe & IHn & IHs). rewrite Forall_forall in Hall.
    split; [|split].
    + intros x. rewrite elem_of_app, IHe. split.
      * intros [Hx|(k' & Hk' & Hx)]; [exists k; split; [left | done]|].
        exists k'. split; [by right | done].
      * intros (k' & [->|Hk']%elem_of_cons & Hx); [by left|]. right. by exists k'.
    + apply NoDup_app. split; [by apply wf_layer_NoDup|]. split; [|done].
      intros x Hx Hx'. apply IHe in Hx' as (k' & Hk' & Hx').
      apply (wf_layer sc x k Hwf) in Hx as [_ H1].
      apply (wf_layer sc x k' Hwf) in Hx' as [_ H2].
      specialize (Hall k' Hk'). assert (k = k') by congruence. lia.
    + apply StronglySorted_app_2; [|eapply same_depth_sorted|done].
      * intros x1 x2 H1 H2. apply IHe in H2 as (k' & Hk' & H2).
        apply (wf_layer sc x1 k Hwf) in H1 as [_ H1].
        apply (wf_layer sc x2 k' Hwf) in H2 as [_ H2].
        specialize (Hall k' Hk'). exists k, k'. split; [done|]. split; [done|]. lia.
      * apply Forall_forall. intros x Hx. by apply (wf_layer sc x k Hwf) in Hx as [_ ?].
Qed.

Lemma sweep_layers sc :
  ordered sc → sweep sc = Some (mjoin (layer sc <$> layerOrder sc)).
Proof.
  intros Ho. unfold sweep.
  assert (E : mapM (λ key, layers sc !! key) (layerOrder sc) =
              Some (layer sc <$> layerOrder sc)); [|by rewrite E].
  apply mapM_Some. apply Forall2_fmap_r, Forall_Forall2_diag, Forall_forall.
  intros k Hk. rewrite Ho in Hk. apply sortedKeys_elem in Hk as [l Hl].
  simpl. unfold layer. rewrite Hl. reflexivity.
Qed.

End SceneInvariants.



(** X27: addThing on a scene whose containers agree and whose spatial
    hash has a positive cell size appends the Thing,
    stores its hitbox in the spatial hash, puts it into the layer of its
    rounded depth and lists that layer in layerOrder; the containers agree
    again, a query for the hitbox returns the Thing, and so does
    getThingsNear for every point of the hitbox and every radius. *)
Theorem addThing_registers (sc : Scene.t) (heap : gmap ref Thing.t) (x : ref)
    (T : Thing.t) :
  0 < SpatialHash.size (Scene.spatialHash sc) →
  SceneSpec.wf sc → SceneSpec.ordered sc →
  x ∉ Scene.things sc → Scene.depthMemory sc !! x = None →
  heap !! x = Some T → SceneSpec.thing_ok T →
  ∃ sc' hb, Scene.addThing sc heap x = Some sc' ∧ Scene.hitbox T = Some hb ∧
    SceneSpec.wf sc' ∧ SceneSpec.ordered sc' ∧
    Scene.things sc' = Scene.things sc ++ [x] ∧
    SpatialHash.getHitbox (Scene.spatialHash sc') x = Some hb ∧
    x ∈ SceneSpec.layer sc' (round (Thing.depth T)) ∧
    round (Thing.depth T) ∈ Scene.layerOrder sc' ∧
    (0 <= hb.1.2 → 0 <= hb.2 →
     x ∈ Game.getThingsNearXywh sc' hb.1.1.1 hb.1.1.2 hb.1.2 hb.2 ∧
     ∀ px py r, 0 <= r →
       hb.1.1.1 <= px → px <= hb.1.1.1 + hb.1.2 →
       hb.1.1.2 <= py → py <= hb.1.1.2 + hb.2 →
       x ∈ Game.getThingsNear sc' px py r).
Proof.
  intros Hs Hwf Ho Hx Hd HT Hok.
  destruct (addThing_wf sc heap x T Hwf Hx Hd HT Hok) as (sc' & Hadd & Hwf' & Hth & Hdm).
  destruct (hitbox_ok T Hok) as [hb Hhb].
  pose proof Hadd as Hadd'. unfold Scene.addThing in Hadd'. rewrite HT in Hadd'.
  simpl in Hadd'. rewrite Hhb in Hadd'. simpl in Hadd'. injection Hadd' as Hsc'.
  assert (Hsh : Scene.spatialHash sc' =
            SpatialHash.add (Scene.spatialHash sc) x hb.1.1.1 hb.1.1.2 hb.1.2 hb.2).
  { rewrite <- Hsc'. by rewrite updateDepth_spatialHash. }
  assert (Ho' : SceneSpec.ordered sc').
  { rewrite <- Hsc'. by apply ordered_updateDepth. }
  assert (Hin : x ∈ SceneSpec.layer sc' (round (Thing.depth T))).
  { apply (wf_layer sc' x _ Hwf'). rewrite Hth, Hdm, lookup_insert_eq.
    split; [|done]. apply elem_of_app. right. left. }
  exists sc', hb. split; [done|]. split; [done|]. split; [done|]. split; [done|].
  split; [done|]. split; [|split; [done|split]].
  - unfold SpatialHash.getHitbox. rewrite Hsh, hitboxes_add, lookup_insert_eq.
    by destruct hb as [[[? ?] ?] ?].
  - rewrite Ho'. apply sortedKeys_elem. unfold SceneSpec.layer in Hin.
    destruct (Scene.layers sc' !! round (Thing.depth T)); [by eexists|].
    by apply elem_of_nil in Hin.
  - intros Hw Hh. unfold Game.getThingsNearXywh, Game.getThingsNear. rewrite Hsh.
    split.
    + apply (query_registered _ x (hb.1.1.1, hb.1.1.2, hb.1.2, hb.2)).
      * by rewrite size_add.
      * by split.
      * by split.
      * unfold HashSpec.intersects. simpl. lra.
      * apply registered_add.
    + intros px py r Hr Hx1 Hx2 Hy1 Hy2.
      apply (query_registered _ x (hb.1.1.1, hb.1.1.2, hb.1.2, hb.2)).
      * by rewrite size_add.
      * by split.
      * split; simpl; lra.
      * unfold HashSpec.intersects. simpl. lra.
      * apply registered_add.
Qed.

Lemma addThing_registers_witness :
  let T := Thing.mk 3 [0; 0] [0; 0] [-8; -8; 8; 8] ThingSpec.noContact
             true false ∅ [] false false false in
  ∃ sc' hb, Scene.addThing Scene.create {[ 1%nat := T ]} 1%nat = Some sc' ∧
    Scene.hitbox T = Some hb ∧
    SceneSpec.wf sc' ∧ SceneSpec.ordered sc' ∧
    Scene.things sc' = [] ++ [1%nat] ∧
    SpatialHash.getHitbox (Scene.spatialHash sc') 1%nat = Some hb ∧
    1%nat ∈ SceneSpec.layer sc' (round 3) ∧
    round 3 ∈ Scene.layerOrder sc' ∧
    1%nat ∈ Game.getThingsNear sc' 8 (-8) 100.
Proof.
  intros T.
  destruct (addThing_registers Scene.create {[ 1%nat := T ]} 1%nat T)
    as (sc' & hb & H1 & H2 & H3 & H4 & H5 & H6 & H7 & H8 & H9).
  - reflexivity.
  - apply wf_create.
  - apply ordered_create.
  - apply not_elem_of_nil.
  - reflexivity.
  - reflexivity.
  - split; [by left | simpl; lia].
  - assert (Hhb : hb = (-8 + 0, -8 + 0, 8 - -8, 8 - -8)) by (by injection H2 as <-).
    assert (Hnear : 1%nat ∈ Game.getThingsNear sc' 8 (-8) 100).
    { subst hb. apply H9; simpl; lra. }
    exists sc', hb.
    exact (conj H1 (conj H2 (conj H3 (conj H4 (conj H5 (conj H6 (conj H7 (conj H8 Hnear)))))))).
Defined.

(** X28: on a scene whose containers agree and whose layerOrder is the
    ascending key list, each of the three passes of draw visits every
    Thing of the scene exactly once, Things of a lower remembered depth
    first, and no layer is missing. *)
Theorem draw_visits_each_thing_once_in_depth_order (sc : Scene.t) :
  SceneSpec.wf sc → SceneSpec.ordered sc →
  ∃ visited, Scene.sweep sc = Some visited ∧
    visited ≡ₚ Scene.things sc ∧
    StronglySorted (SceneSpec.below sc) visited ∧
    Scene.draw sc =
      Some (((λ thing, (Scene.PreDraw, thing)) <$> visited) ++
            ((λ thing, (Scene.Draw, thing)) <$> visited) ++
            ((λ thing, (Scene.PostDraw, thing)) <$> visited)).
Proof.
  intros Hwf Ho. pose proof (sweep_layers sc Ho) as Hs.
  assert (Hsorted : StronglySorted Z.lt (Scene.layerOrder sc)).
  { rewrite Ho. apply sortedKeys_lt. }
  destruct (visited_spec sc (Scene.layerOrder sc) Hwf Hsorted) as (He & Hn & Hb).
  eexists. split; [exact Hs|]. split; [|split; [done|]].
  - apply NoDup_Permutation; [done | apply Hwf |]. intros x. rewrite He. split.
    + intros (k & _ & Hx). by apply (wf_layer sc x k Hwf) in Hx as [? _].
    + intros Hx. pose proof Hwf as (_ & _ & _ & _ & Hdm & _).
      destruct (Hdm x Hx) as [k Hk]. exists k.
      assert (Hin : x ∈ SceneSpec.layer sc k) by (by apply (wf_layer sc x k Hwf)).
      split; [|done]. rewrite Ho. apply sortedKeys_elem. unfold SceneSpec.layer in Hin.
      destruct (Scene.layers sc !! k); [by eexists | by apply elem_of_nil in Hin].
  - unfold Scene.draw. by rewrite Hs.
Qed.

Lemma draw_visits_each_thing_once_in_depth_order_witness :
  let T := Thing.mk 3 [0; 0] [0; 0] [-8; -8; 8; 8] ThingSpec.noContact
             true false ∅ [] false false false in
  let sc := default Scene.create (Scene.addThing Scene.create {[ 1%nat := T ]} 1%nat) in
  ∃ visited, Scene.sweep sc = Some visited ∧ visited ≡ₚ Scene.things sc.
Proof.
  intros T sc.
  destruct (addThing_wf Scene.create {[ 1%nat := T ]} 1%nat T wf_create)
    as (sc' & H1 & H3 & _);
    [apply not_elem_of_nil | reflexivity | reflexivity | split; [by left | simpl; lia] |].
  assert (Hsc : sc = sc') by (unfold sc; by rewrite H1).
  destruct (draw_visits_each_thing_once_in_depth_order sc) as (v & Hv & Hp & _).
  - by rewrite Hsc.
  - vm_compute. reflexivity.
  - by exists v.
Defined.

(** ** The accumulator across callbacks *)

Section AccumulatorFacts.
Import Game SchedulerSpec.
Context {World : Type} (hooks : Hooks (World := World)).
Implicit Types (s : State (World := World)).

Lemma trunc_comp x y : x == y → trunc x = trunc y.
Proof.
  intros E. unfold trunc.
  assert (Hb : Qle_bool 0 x = Qle_bool 0 y).
  { destruct (Qle_bool 0 x) eqn:E1, (Qle_bool 0 y) eqn:E2; try done.
    - apply Qle_bool_iff in E1. rewrite E in E1. apply Qle_bool_iff in E1. congruence.
    - apply Qle_bool_iff in E2. rewrite <- E in E2. apply Qle_bool_iff in E2. congruence. }
  rewrite Hb, (Qfloor_comp _ _ E), (Qceiling_comp _ _ E). done.
Qed.

Lemma rem1_comp x y : x == y → rem1 x == rem1 y.
Proof. intros E. unfold rem1. rewrite (trunc_comp x y E), E. reflexivity. Qed.

Lemma rem1_small x : -1 < x → x < 1 → rem1 x == x.
Proof.
  intros H1 H2. unfold rem1. destruct (Qlt_le_dec x 0) as [Hn|Hp].
  - rewrite trunc_ceiling by lra.
    rewrite (Qceiling_unique x 0) by (change (inject_Z 0) with 0; lra).
    change (inject_Z 0) with 0. ring.
  - rewrite trunc_floor by done.
    rewrite (Qfloor_unique x 0) by (change (inject_Z 0) with 0; lra).
    change (inject_Z 0) with 0. ring.
Qed.

Lemma frame_accumulator frameTime s :
  accumulator (priv (frame hooks frameTime s)) =
  rem1 (accumulator (priv (drained hooks frameTime s).1.1)).
Proof.
  rewrite frame_unfold.
  destruct (latch_priv (rerendered hooks frameTime s)
    (render hooks (rerendered hooks frameTime s)
       (before_render hooks frameTime s))) as [-> _].
  by destruct (render_priv hooks (rerendered hooks frameTime s)
    (before_render hooks frameTime s)) as [-> _].
Qed.

Lemma advance_accumulator frameTime s :
  (∀ previous, previousFrameTime (priv s) = Some previous → previous <= frameTime) →
  0 <= updateSpeed (pub s) →
  accumulator (priv s) <= accumulator (priv (advance frameTime s)).
Proof.
  intros Hprev Hspeed. unfold advance.
  assert (Hdelta : 0 <= match previousFrameTime (priv s) with
                        | Some previous => (frameTime - previous) / 1000
                        | None => 0
                        end * 60 * updateSpeed (pub s)).
  { apply Qmult_le_0_compat; [|done]. apply Qmult_le_0_compat; [|discriminate].
    destruct (previousFrameTime (priv s)) as [previous|]; [|discriminate].
    specialize (Hprev previous eq_refl). apply Qle_shift_div_l; [reflexivity|]. lra. }
  destruct (Qlt_bool 0 (impactFrameCount (pub s))); simpl; lra.
Qed.

Lemma drain_idle budget frameTime s rerender times :
  accumulator (priv s) < 1 →
  drain hooks budget frameTime s rerender times = (s, rerender, times).
Proof.
  intros Hlt. destruct budget; [done|]. simpl.
  destruct (Qle_bool 1 (accumulator (priv s))) eqn:E; [|done].
  apply Qle_bool_iff in E. lra.
Qed.

End AccumulatorFacts.



(** X30: in the first callback, and while impact frames are counted
    down, a callback that finds less than a full step in the accumulator
    calls no hook: with a capped frame rate the whole callback is the
    bookkeeping of the clock, no step is drained, nothing is drawn, and
    the frame time is recorded as the previous one. *)
Theorem callback_without_a_full_step_runs_nothing {World : Type}
    (hooks : Game.Hooks (World := World)) (s : Game.State (World := World))
    (frameTime : Q) :
  Game.previousFrameTime (Game.priv s) = None ∨ 0 < Game.impactFrameCount (Game.pub s) →
  Game.accumulator (Game.priv s) < 1 →
  Game.isFramerateUncapped (Game.pub s) = false →
  Game.frame hooks frameTime s = Game.reduce (Game.advance frameTime s) ∧
  SchedulerSpec.steps_drained hooks frameTime s = 0%nat ∧
  Game.drawCount (Game.priv (Game.frame hooks frameTime s)) = Game.drawCount (Game.priv s) ∧
  Game.world (Game.pub (Game.frame hooks frameTime s)) = Game.world (Game.pub s) ∧
  Game.previousFrameTime (Game.priv (Game.frame hooks frameTime s)) = Some frameTime ∧
  Game.accumulator (Game.priv (Game.frame hooks frameTime s)) ==
    rem1 (Game.accumulator (Game.priv s)).
Proof.
  intros Hcase Hlt Hcap.
  assert (Hadv : Game.accumulator (Game.priv (Game.advance frameTime s)) ==
                 Game.accumulator (Game.priv s) ∧
                 Game.isFramerateUncapped (Game.pub (Game.advance frameTime s)) = false ∧
                 Game.world (Game.pub (Game.advance frameTime s)) = Game.world (Game.pub s) ∧
                 Game.drawCount (Game.priv (Game.advance frameTime s)) =
                   Game.drawCount (Game.priv s) ∧
                 Game.previousFrameTime (Game.priv (Game.advance frameTime s)) =
                   Some frameTime).
  { unfold Game.advance.
    destruct (Qlt_bool 0 (Game.impactFrameCount (Game.pub s))) eqn:E; simpl.
    - split; [reflexivity|]. done.
    - destruct Hcase as [Hnone|Himp].
      + rewrite Hnone. split; [ring|]. done.
      + apply Qlt_bool_false in E. lra. }
  destruct Hadv as (Hacc & Hcap' & Hworld & Hdraw & Hprev).
  assert (Hdrained : Game.drained hooks frameTime s = (Game.advance frameTime s, false, 0%nat)).
  { unfold Game.drained. apply drain_idle. rewrite Hacc. done. }
  assert (Hframe : Game.frame hooks frameTime s = Game.reduce (Game.advance frameTime s)).
  { unfold Game.frame. rewrite Hdrained. unfold Game.render, Game.latch.
    simpl. rewrite Hcap'. done. }
  split; [done|]. split; [unfold SchedulerSpec.steps_drained; by rewrite Hdrained|].
  rewrite Hframe. simpl. split; [done|]. split; [done|]. split; [done|].
  by apply rem1_comp.
Qed.

Lemma callback_without_a_full_step_runs_nothing_witness :
  let s := Game.mkState
    (Game.mkPrivate (99 # 100) None None 0 true 0 true None 0)
    (Game.mkPublic None 1 0 false 1280 720 1280 720 true ∅ ∅ ∅ SchedulerSpec.still tt) in
  Game.frame SchedulerSpec.idle 5000 s = Game.reduce (Game.advance 5000 s) ∧
  SchedulerSpec.steps_drained SchedulerSpec.idle 5000 s = 0%nat.
Proof.
  intros s.
  destruct (callback_without_a_full_step_runs_nothing SchedulerSpec.idle s 5000)
    as (H1 & H2 & _).
  - by left.
  - reflexivity.
  - reflexivity.
  - exact (conj H1 H2).
Defined.
